(** * LandAnycode: outline, workspace symbols, references and completion

    A shallow embedding of the symbol features of the repository:
    - [src/features/symbols.ts]: [DocumentSymbolProvider],
      [WorkspaceSymbolProvider] and [WorkspaceIndex];
    - the language-server [ReferencesProvider] and
      [CompletionItemProvider];
    - [src/common.ts] and the start-up of the client in
      [src/client/main.ts].

    JavaScript objects that are mutated through several references (the
    [Node] objects of the outline, which sit at once on the stack and in a
    parent's [children]) live in an explicit store and are named by their
    index in it. JavaScript [Map]s whose iteration order is observable are
    association lists in insertion order. *)

From stdpp Require Import base option list strings gmap sorting.
From Equations Require Import Equations.

Open Scope string_scope.
Open Scope list_scope.
Open Scope nat_scope.
Open Scope stdpp_scope.

Set Warnings "-clear-no-such-hyp".

(** ** Strings of the host language *)

Module Js.

(** [s.startsWith(p)] *)
Definition startsWith (s p : string) : bool := String.prefix p s.

(** [s.endsWith(p)] *)
Definition endsWith (s p : string) : bool :=
  let n := String.length s in
  let m := String.length p in
  if decide (m ≤ n) then bool_decide (String.substring (n - m) m s = p)
  else false.

(** [a === b] on strings *)
Definition streq (a b : string) : bool := bool_decide (a = b).

(** [s.split('')] *)
Definition chars (s : string) : list Ascii.ascii := String.list_ascii_of_string s.

(** A value is truthy unless it is [undefined] or the empty string. *)
Definition truthy (s : option string) : bool :=
  match s with
  | Some t => negb (bool_decide (t = ""))
  | None => false
  end.

(** The outcome of a call that may throw. *)
Inductive result (A : Type) :=
| Ok (a : A)
| Throw.
Arguments Ok {A} a.
Arguments Throw {A}.

(** Awaited code over a world [W]: a call takes the state of the outside
    world and returns the next one with its value, or throws. *)
Definition Async (W A : Type) : Type := W → result (A * W).

#[export] Instance Async_ret {W} : MRet (Async W) := λ A a w, Ok (a, w).
#[export] Instance Async_bind {W} : MBind (Async W) := λ A B f m w,
  match m w with
  | Ok (a, w') => f a w'
  | Throw => Throw
  end.

(** A synchronous computation that may throw, run inside awaited code. *)
Definition lift {W A} (r : result A) : Async W A :=
  λ w, match r with Ok a => Ok (a, w) | Throw => Throw end.

End Js.

(** ** The editor's positions and ranges ([vscode.Position], [vscode.Range])

  These classes belong to the editor API. They are modelled after their
  documented behaviour: positions are ordered by line, then character; a
  range keeps its two positions ordered; [contains] is inclusive at both
  ends. *)

Module Vscode.

Record Position := mkPosition { line : nat; character : nat }.

Definition isBefore (a b : Position) : bool :=
  if decide (line a < line b) then true
  else if decide (line b < line a) then false
  else bool_decide (character a < character b).

Definition isBeforeOrEqual (a b : Position) : bool := negb (isBefore b a).

Record Range := mkRange { start : Position; end_ : Position }.

(** [new vscode.Range(startLine, startCharacter, endLine, endCharacter)]:
    the constructor swaps the two positions when they come out of order. *)
Definition newRange (sl sc el ec : nat) : Range :=
  let s := mkPosition sl sc in
  let e := mkPosition el ec in
  if isBefore e s then mkRange e s else mkRange s e.

(** [range.contains(position)] *)
Definition containsPosition (r : Range) (p : Position) : bool :=
  negb (isBefore p (start r)) && negb (isBefore (end_ r) p).

(** [range.contains(other)] *)
Definition contains (r o : Range) : bool :=
  containsPosition r (start o) && containsPosition r (end_ o).

(** [vscode.SymbolKind] *)
Inductive SymbolKind :=
| File | Module_ | Namespace | Package | Class | Method | Property | Field
| Constructor | Enum | Interface | Function_ | Variable_ | Constant
| String_ | Number | Boolean | Array | Object | Key | Null | EnumMember
| Struct | Event | Operator | TypeParameter.

(** [vscode.Uri], by its components. *)
Record Uri := mkUri {
  scheme : string;
  authority : string;
  path : string;
  query : string;
  fragment : string
}.

#[export] Instance SymbolKind_eq_dec : EqDecision SymbolKind.
Proof. solve_decision. Defined.

#[export] Instance Position_eq_dec : EqDecision Position.
Proof. solve_decision. Defined.

#[export] Instance Range_eq_dec : EqDecision Range.
Proof. solve_decision. Defined.

End Vscode.

(** ** What the parser hands over ([Parser.SyntaxNode], [Parser.QueryCapture]) *)

Module TreeSitter.

Record Point := mkPoint { row : nat; column : nat }.

Record SyntaxNode := mkSyntaxNode {
  startPosition : Point;
  endPosition : Point;
  text : string
}.

(** One capture of a query: the capture's label and the node it matched. *)
Record QueryCapture := mkCapture { name : string; node : SyntaxNode }.

End TreeSitter.

(** ** [src/common.ts] *)

Module Common.
Import Vscode TreeSitter.

Definition asCodeRange (n : SyntaxNode) : Range :=
  newRange (row (startPosition n)) (column (startPosition n))
           (row (endPosition n)) (column (endPosition n)).

Definition _disabledSchemes : list string := ["git"; "vsls"].

(** [isInteresting(document)], on the scheme of the document's uri. *)
Definition isInteresting (scheme : string) : bool :=
  negb (bool_decide (scheme ∈ _disabledSchemes)).

End Common.

(** ** JavaScript [Map]s in insertion order *)

Module JsMap.
Section JsMap.
Context {K V : Type} `{EqDecision K}.

(** [m.get(k)] *)
Fixpoint get (m : list (K * V)) (k : K) : option V :=
  match m with
  | [] => None
  | (k', v) :: m' => if decide (k' = k) then Some v else get m' k
  end.

(** [m.set(k, v)]: an existing key keeps its place, a new one goes last. *)
Fixpoint set (m : list (K * V)) (k : K) (v : V) : list (K * V) :=
  match m with
  | [] => [(k, v)]
  | (k', v') :: m' => if decide (k' = k) then (k, v) :: m' else (k', v') :: set m' k v
  end.

(** [m.delete(k)] *)
Fixpoint delete (m : list (K * V)) (k : K) : list (K * V) :=
  match m with
  | [] => []
  | (k', v') :: m' => if decide (k' = k) then m' else (k', v') :: delete m' k
  end.

(** [Array.from(m.values())] *)
Definition values (m : list (K * V)) : list V := m.*2.

(** [Array.from(m.keys())] *)
Definition keys (m : list (K * V)) : list K := m.*1.
End JsMap.
End JsMap.

(** ** [src/features/symbols.ts]: the outline *)

Module Symbols.
Import Vscode TreeSitter Common.

(** *** [_symbolQueries] *)

(** The keys of [_data] as the class is created: the languages that
    come with a symbol query. The map itself changes while the extension
    runs, see [SymbolQueries] below. *)
Definition languageIds : list string :=
  ["typescript"; "php"; "python"; "java"; "c"; "cpp"; "csharp"; "go"; "rust"].

Definition _symbolKindMapping : list (string * SymbolKind) :=
  [ ("file", File); ("module", Module_); ("namespace", Namespace);
    ("package", Package); ("class", Class); ("method", Method);
    ("property", Property); ("field", Field); ("constructor", Constructor);
    ("enum", Enum); ("interface", Interface); ("function", Function_);
    ("variable", Variable_); ("constant", Constant); ("string", String_);
    ("number", Number); ("boolean", Boolean); ("array", Array);
    ("object", Object); ("key", Key); ("null", Null);
    ("enumMember", EnumMember); ("struct", Struct); ("event", Event);
    ("operator", Operator); ("typeParameter", TypeParameter) ].

Definition getSymbolKind (symbolKind : string) : SymbolKind :=
  default Variable_ (JsMap.get _symbolKindMapping symbolKind).

(** *** The [Node] objects of [provideDocumentSymbols]

    A [Node] is created once per capture and then reached from the stack,
    from [roots] and from its parent's [children]; [children] grows while
    the node is on the stack. The nodes therefore live in a store, in
    creation order, and a reference to a node is its index. *)

Abbreviation ref := nat.

Record Node := mkNode {
  capture : QueryCapture;
  range : Range;
  children : list ref
}.

(** [new Node(capture)] *)
Definition newNode (c : QueryCapture) : Node :=
  mkNode c (asCodeRange (node c)) [].

(** [parent.children.push(node)] *)
Definition pushChild (n : ref) (parent : Node) : Node :=
  mkNode (capture parent) (range parent) (children parent ++ [n]).

(** The local state of the tree-building loop. The head of [stack] is the
    element [stack.pop()] returns. *)
Record Forest := mkForest {
  store : list Node;
  roots : list ref;
  stack : list ref
}.

Definition emptyForest : Forest := mkForest [] [] [].

(** [parent.range.contains(r)] for a reference [parent] *)
Definition refContains (st : list Node) (parent : ref) (r : Range) : bool :=
  match st !! parent with
  | Some p => contains (range p) r
  | None => false
  end.

(** The [while (true)] loop for the node [n] of range [r]. Each round
    looks at what [stack.pop()] gave: nothing (the stack was empty), a
    node that contains [r], or a node to drop. *)
Fixpoint place (n : ref) (r : Range) (st : list Node) (rts stk : list ref) : Forest :=
  match stk with
  | [] => mkForest st (rts ++ [n]) [n]
  | parent :: stk' =>
      if refContains st parent r
      then mkForest (alter (pushChild n) parent st) rts (n :: parent :: stk')
      else place n r st rts stk'
  end.

(** The body of [for (const capture of captures)]. *)
Definition addCapture (f : Forest) (c : QueryCapture) : Forest :=
  let nd := newNode c in
  place (length (store f)) (range nd) (store f ++ [nd]) (roots f) (stack f).

Definition makeTree (captures : list QueryCapture) : Forest :=
  fold_left addCapture captures emptyForest.

(** *** [vscode.DocumentSymbol]

    The record holds what the constructor is given, and [children] as it is
    assigned afterwards. *)

#[local] Set Warnings "-register-all".
Inductive DocumentSymbol := mkDocumentSymbol {
  sym_name : string;
  sym_detail : string;
  sym_kind : SymbolKind;
  sym_range : Range;
  sym_selectionRange : Range;
  sym_children : list DocumentSymbol
}.

(** The [for (let child of node.children)] loop of [build]; [rec] is
    [build] itself, for the recursive call on a child. The loop carries
    the local [children] array and [nameNode]. *)
Fixpoint buildChildren (rec : ref → list DocumentSymbol → option (list DocumentSymbol))
    (st : list Node) (nd : Node) (cs : list ref)
    (syms : list DocumentSymbol) (nameNode : option Node)
    : option (list DocumentSymbol * option Node) :=
  match cs with
  | [] => Some (syms, nameNode)
  | child :: cs' =>
      ch ← st !! child;
      if negb (bool_decide (is_Some nameNode))
         && Js.streq (name (capture ch)) (name (capture nd) +:+ ".name")
      then buildChildren rec st nd cs' syms (Some ch)
      else syms' ← rec child syms; buildChildren rec st nd cs' syms' nameNode
  end.

(** [build(node, bucket)], returning the bucket after the call. The
    recursion follows the [children] references of the store; [fuel]
    bounds its depth, and [None] means the bound was reached or a
    reference pointed outside the store. *)
Fixpoint build (fuel : nat) (st : list Node) (n : ref)
    (bucket : list DocumentSymbol) : option (list DocumentSymbol) :=
  match fuel with
  | 0 => None
  | S fuel' =>
      nd ← st !! n;
      '(syms, nameNode) ← buildChildren (build fuel' st) st nd (children nd) [] None;
      let nameNode := default nd nameNode in
      let symbol :=
        mkDocumentSymbol (text (node (capture nameNode))) ""
          (getSymbolKind (name (capture nd))) (range nd) (range nameNode) syms in
      Some (bucket ++ [symbol])
  end.

(** [for (let node of roots) build(node, result)] *)
Fixpoint buildRoots (fuel : nat) (st : list Node) (rts : list ref)
    (result : list DocumentSymbol) : option (list DocumentSymbol) :=
  match rts with
  | [] => Some result
  | n :: rts' => result' ← build fuel st n result; buildRoots fuel st rts' result'
  end.

(** [provideDocumentSymbols], from the captures of the document's query
    on; [None] as argument stands for a document without parse tree or
    without query, for which the method returns [undefined]. No chain of
    [children] is longer than the store, which is the fuel given. *)
Definition provideDocumentSymbols (captures : option (list QueryCapture))
    : option (list DocumentSymbol) :=
  cs ← captures;
  let f := makeTree cs in
  buildRoots (length (store f)) (store f) (roots f) [].

End Symbols.

(** ** [src/features/symbols.ts]: the cache of compiled queries

    [_symbolQueries._data] changes while the extension runs: the first
    [get] of a language compiles its query and stores it, or drops the
    language when that fails. *)

Module SymbolQueries.
Import Js.
Section WithQuery.
Context {Query : Type}.

(** A value of [_data]: the promise of the module that holds the source
    of the query, which may reject, or the compiled query. *)
Inductive Slot :=
| Pending (symbols : result string)
| Compiled (query : Query).

(** [_data] as the class is created; [modules] stands for the dynamic
    imports. *)
Definition initialData (modules : string → result string) : list (string * Slot) :=
  (λ languageId, (languageId, Pending (modules languageId))) <$> Symbols.languageIds.

(** [isSupported(languageId)] *)
Definition isSupported (data : list (string * Slot)) (languageId : string) : bool :=
  bool_decide (is_Some (JsMap.get data languageId)).

(** [get languageIds()] *)
Definition languageIds (data : list (string * Slot)) : list string := JsMap.keys data.

(** [get(languageId, language)], with [_data] as the call leaves it;
    [language] is the [query] method of the language, which may throw. *)
Definition get (data : list (string * Slot)) (languageId : string)
    (language : string → result Query) : option Query * list (string * Slot) :=
  match JsMap.get data languageId with
  | Some (Pending symbols) =>
      match (match symbols with Ok source => language source | Throw => Throw end) with
      | Ok query => (Some query, JsMap.set data languageId (Compiled query))
      | Throw => (None, JsMap.delete data languageId)
      end
  | Some (Compiled query) => (Some query, data)
  | None => (None, data)
  end.

End WithQuery.
Arguments Slot : clear implicits.
End SymbolQueries.

(** ** [src/features/symbols.ts]: workspace symbols *)

Module WorkspaceSymbols.
Import Vscode TreeSitter Common Js.

(** [IDocument]: what [_collectMatches] needs of a document. *)
Record IDocument := mkDocument {
  version : nat;
  uri : Uri;
  languageId : string;
  getText : string
}.

(** The editor and the parser, as this file uses them, and the map
    [_symbolQueries._data] of this file as it stands in a state of the
    world. Other requests run between the awaits of a search, so every
    awaited call may come back with a changed map; a language is only ever
    deleted from it, never added. *)
Class Host := {
  World : Type;
  (** [Parser.Query] *)
  Query : Type;
  (** [_symbolQueries._data] *)
  _data : World → list (string * SymbolQueries.Slot Query);
  _data_languages : ∀ w,
    forallb (λ languageId, bool_decide (languageId ∈ Symbols.languageIds))
            (SymbolQueries.languageIds (_data w)) = true;
  (** [uri.toString()] *)
  uri_toString : Uri → string;
  (** [token.isCancellationRequested] *)
  isCancellationRequested : World → bool;
  (** [(await vscode.workspace.fs.stat(uri)).size] *)
  fs_stat_size : Uri → Async World N;
  (** [new TextDecoder().decode(await vscode.workspace.fs.readFile(uri))] *)
  fs_readFile : Uri → Async World string;
  (** [getParseTree(document, token)], [_symbolQueries.get] and
      [query.captures(tree.rootNode)] in one: [None] when the tree or the
      query is missing. The call of [get] is where [_data] changes. *)
  queryCaptures : IDocument → Async World (option (list QueryCapture));
  (** [matchesFuzzy(search, text)] of [common.ts] *)
  matchesFuzzy : string → string → bool;
  (** [new RegExp(pattern, flags)] and the [test] method of what it
      returns; [None] when the constructor throws. *)
  newRegExp : string → string → option (string → bool)
}.

(** [vscode.SymbolInformation] *)
Record SymbolInformation := mkSymbolInformation {
  si_name : string;
  si_kind : SymbolKind;
  si_containerName : string;
  si_location : Uri * Range
}.

Section WithHost.
Context `{Host}.


(** Reading [token.isCancellationRequested]. *)
Definition readToken : Async World bool := λ w, Ok (isCancellationRequested w, w).

(** *** [_collectMatches] *)

(** The callback of [forEach], on the bucket. [array[index - 1]] is
    [undefined] at index 0, and reading [name] of it throws. *)
Definition visitCapture (search : string) (document : IDocument)
    (capture : QueryCapture) (index : nat) (array : list QueryCapture)
    (bucket : list SymbolInformation) : result (list SymbolInformation) :=
  if negb (endsWith (name capture) ".name") then Ok bucket
  else if bool_decide (String.length search = 0)
          || matchesFuzzy search (text (node capture))
  then
    let symbol :=
      mkSymbolInformation (text (node capture)) Struct ""
        (uri document, asCodeRange (node capture)) in
    match (match index with 0 => None | S i => array !! i end) with
    | None => Throw
    | Some containerCandidate =>
        if startsWith (name capture) (name containerCandidate)
        then Ok (bucket ++ [mkSymbolInformation (si_name symbol)
                              (Symbols.getSymbolKind (name containerCandidate))
                              (name containerCandidate) (si_location symbol)])
        else Ok (bucket ++ [symbol])
    end
  else Ok bucket.

(** [array.forEach((capture, index, array) => ...)], from [index] on. *)
Fixpoint forEachCapture (search : string) (document : IDocument)
    (array : list QueryCapture) (index : nat) (rest : list QueryCapture)
    (bucket : list SymbolInformation) : result (list SymbolInformation) :=
  match rest with
  | [] => Ok bucket
  | capture :: rest' =>
      match visitCapture search document capture index array bucket with
      | Ok bucket' => forEachCapture search document array (S index) rest' bucket'
      | Throw => Throw
      end
  end.

Definition _collectMatches (search : string) (document : IDocument)
    (bucket : list SymbolInformation) : Async World (list SymbolInformation) := λ w,
  if negb (isInteresting (scheme (uri document)))
     || negb (SymbolQueries.isSupported (_data w) (languageId document))
  then Ok (bucket, w)
  else
    (captures ← queryCaptures document;
     match captures with
     | None => mret bucket
     | Some array =>
         lift (forEachCapture search document array 0 array bucket)
     end) w.

(** *** The prefilter of [_findWithIndex] *)

(** [\w] *)
Definition isWordChar (c : Ascii.ascii) : bool :=
  let n := Ascii.nat_of_ascii c in
  bool_decide (48 ≤ n ≤ 57) || bool_decide (65 ≤ n ≤ 90)
  || bool_decide (97 ≤ n ≤ 122) || bool_decide (n = 95).

(** [[\s_-]], on character codes below 256 *)
Definition isBoundaryChar (c : Ascii.ascii) : bool :=
  let n := Ascii.nat_of_ascii c in
  bool_decide (9 ≤ n ≤ 13) || bool_decide (n = 32) || bool_decide (n = 160)
  || bool_decide (n = 95) || bool_decide (n = 45).

(** [/\w{1,}/.test(search)] *)
Definition hasWordChar (search : string) : bool := existsb isWordChar (chars search).

(** The pattern handed to [new RegExp]. *)
Definition fuzzyCharacters (search : string) : list string :=
  map (λ ch, String ch "\w*") (chars search).

Definition prefilterPattern (search : string) : string :=
  "(^|[\s_-])" +:+ fold_right String.append "" (fuzzyCharacters search).

(** Letters compare without case under the [i] flag; a word character
    only ever equals its own two cases. *)
Definition upper (c : Ascii.ascii) : nat :=
  let n := Ascii.nat_of_ascii c in
  if bool_decide (97 ≤ n ≤ 122) then n - 32 else n.

Definition eqIgnoreCase (a b : Ascii.ascii) : bool := bool_decide (upper a = upper b).

(** Inside a [\w*] that is followed by the literals [cs], each with its
    own [\w*]: either [cs] starts here, or one more word character is
    taken. *)
Fixpoint afterWordStar (cs s : list Ascii.ascii) : bool :=
  match s with
  | [] => match cs with [] => true | _ :: _ => false end
  | x :: s' =>
      match cs with
      | [] => true
      | c :: cs' => eqIgnoreCase c x && afterWordStar cs' s'
      end
      || (isWordChar x && afterWordStar cs s')
  end.

(** [c1\w*c2\w*...] matched at the head of [s]. *)
Definition literalsAt (cs s : list Ascii.ascii) : bool :=
  match cs, s with
  | [], _ => true
  | _ :: _, [] => false
  | c :: cs', x :: s' => eqIgnoreCase c x && afterWordStar cs' s'
  end.

(** The second branch of the group: some character of [[\s_-]], then the
    literals. *)
Fixpoint afterBoundary (cs s : list Ascii.ascii) : bool :=
  match s with
  | [] => false
  | x :: s' => (isBoundaryChar x && literalsAt cs s') || afterBoundary cs s'
  end.

(** [regexp.test(source)] for the pattern of a search made of word
    characters: the literals stand at the start of the source or right
    after a boundary character. *)
Definition wordPrefilter (search source : string) : bool :=
  literalsAt (chars search) (chars source) || afterBoundary (chars search) (chars source).

(** [new RegExp(pattern, 'i')] inside its [try]. A search made of word
    characters puts only literals into the pattern, and its test is
    [wordPrefilter]; with any other character the pattern means what the
    host's engine makes of it. *)
Definition makeRegExp (search : string) : option (string → bool) :=
  if forallb isWordChar (chars search) then Some (wordPrefilter search)
  else newRegExp (prefilterPattern search) "i".

(** *** [WorkspaceIndex] *)

Definition languageMapping : list (string * list string) :=
  [ ("typescript", ["ts"; "tsx"]);
    ("php", ["php"; "php4"; "php5"; "phtml"; "ctp"]);
    ("python", ["py"; "rpy"; "pyw"; "cpy"; "gyp"; "gypi"; "pyi"; "ipy"]);
    ("go", ["go"]);
    ("java", ["java"]);
    ("c", ["c"; "i"]);
    ("cpp", ["cpp"; "cc"; "cxx"; "c++"; "hpp"; "hh"; "hxx"; "h++"; "h"; "ii";
             "ino"; "inl"; "ipp"; "ixx"; "hpp.in"; "h.in"]);
    ("csharp", ["cs"]);
    ("rust", ["rs"]) ].

(** The class [Entry] of [WorkspaceIndex.create]; [_text] is the cache. *)
Record Entry := mkEntry {
  entry_uri : Uri;
  _text : option string
}.

(** [entry.load()], with the entry as the call leaves it. *)
Definition load (e : Entry) : Async World (string * Entry) :=
  if negb (truthy (_text e)) then
    size ← fs_stat_size (entry_uri e);
    if bool_decide (1024 ^ 2 < size)%N
    then mret ("", mkEntry (entry_uri e) (Some ""))
    else
      t ← fs_readFile (entry_uri e);
      mret (t, mkEntry (entry_uri e) (Some t))
  else mret (default "" (_text e), e).

(** [entry.reset()] *)
Definition reset (e : Entry) : Entry := mkEntry (entry_uri e) None.

(** The [Map] called [all] of [WorkspaceIndex.create], filled from the
    files found. *)
Definition createIndex (uris : list Uri) : list (string * Entry) :=
  fold_left (λ all uri, JsMap.set all (uri_toString uri) (mkEntry uri None)) uris [].

(** The three handlers of the file watcher. *)
Definition onDidDelete (all : list (string * Entry)) (uri : Uri) : list (string * Entry) :=
  JsMap.delete all (uri_toString uri).

Definition onDidCreate (all : list (string * Entry)) (uri : Uri) : list (string * Entry) :=
  JsMap.set all (uri_toString uri) (mkEntry uri None).

Definition onDidChange (all : list (string * Entry)) (uri : Uri) : list (string * Entry) :=
  match JsMap.get all (uri_toString uri) with
  | Some e => JsMap.set all (uri_toString uri) (reset e)
  | None => all
  end.

(** The set [exclude] of the generator [all()]. *)
Definition excludeSet (textDocuments : list IDocument) : gset string :=
  fold_left (λ exclude doc, exclude ∪ {[ uri_toString (uri doc) ]}) textDocuments ∅.

(** The loop of the generator: the entries it yields, in order. *)
Fixpoint yieldAll (exclude : gset string) (all : list (string * Entry)) : list Entry :=
  match all with
  | [] => []
  | (key, e) :: all' =>
      if negb (bool_decide (key ∈ exclude)) then e :: yieldAll exclude all'
      else yieldAll exclude all'
  end.

(** [Array.from(index.all())] *)
Definition all_ (all : list (string * Entry)) (textDocuments : list IDocument) : list Entry :=
  yieldAll (excludeSet textDocuments) all.

(** *** [_findWithIndex] *)

(** The loop over [WorkspaceIndex.languageMapping] with its [break]. *)
Fixpoint languageIdOf (mapping : list (string * list string)) (path : string) : string :=
  match mapping with
  | [] => ""
  | (key, value) :: mapping' =>
      if existsb (λ suffix, endsWith path ("." +:+ suffix)) value then key
      else languageIdOf mapping' path
  end.

(** The body of [chunk.map(async entry => ...)] for one entry. *)
Definition processEntry (search : string) (regexp : string → bool)
    (entry : Entry) (bucket : list SymbolInformation)
    : Async World (list SymbolInformation * Entry) :=
  '(source, entry') ← load entry;
  if negb (regexp source) then mret (bucket, entry')
  else
    let languageId := languageIdOf languageMapping (path (entry_uri entry)) in
    bucket' ← _collectMatches search (mkDocument 1 (entry_uri entry) languageId source) bucket;
    mret (bucket', entry').

(** [await Promise.all(chunk.map(...))]. The promises of one chunk only
    interleave at their awaits, and each file's symbols are pushed by one
    synchronous [forEach]; the chunk is run here entry after entry, which
    is one of its schedules. The loop below does not depend on the
    choice: it takes the way a chunk is run as an argument. *)
Fixpoint runChunk (search : string) (regexp : string → bool)
    (chunk : list Entry) (bucket : list SymbolInformation)
    : Async World (list SymbolInformation * list Entry) :=
  match chunk with
  | [] => mret (bucket, [])
  | entry :: chunk' =>
      '(bucket1, entry') ← processEntry search regexp entry bucket;
      '(bucket2, entries') ← runChunk search regexp chunk' bucket1;
      mret (bucket2, entry' :: entries')
  end.

Definition chunkSize : nat := 50.

(** [array.slice(i, j)] *)
Definition slice {A} (i j : nat) (l : list A) : list A := take (j - i) (drop i l).

(** The entries of [array] from [i] on replaced by [chunk], as many as
    [chunk] has: the entry objects of the chunk after their [load]. *)
Definition writeBack {A} (i : nat) (chunk array : list A) : list A :=
  take i array ++ chunk ++ drop (i + length chunk) array.

(** [for (let i = 0; i < allUris.length; i += chunkSize)], from [i] on;
    [n] is [allUris.length], which the loop never changes, and [run] is
    what the body does with a chunk: [await Promise.all(chunk.map(...))]. *)
Equations? findLoop
    (run : list Entry → list SymbolInformation
           → Async World (list SymbolInformation * list Entry))
    (n i : nat) (allUris : list Entry) (bucket : list SymbolInformation) (w : World)
    : result ((list SymbolInformation * list Entry) * World) by wf (n - i) lt :=
  findLoop run n i allUris bucket w with decide (i < n) := {
    | right _ := Ok ((bucket, allUris), w)
    | left _ with isCancellationRequested w := {
        | true := Ok ((bucket, allUris), w)
        | false with run (slice i (i + chunkSize) allUris) bucket w := {
            | Throw := Throw
            | Ok ((bucket', chunk'), w') :=
                findLoop run n (i + chunkSize) (writeBack i chunk' allUris) bucket' w'
          }
      }
  }.
Proof. unfold chunkSize. lia. Qed.

(** [_findWithIndex(search, bucket, token)] on the entries [all()] gave;
    it returns the bucket and the entries as the call leaves them. *)
Definition _findWithIndex (search : string) (allUris : list Entry)
    (bucket : list SymbolInformation)
    : Async World (list SymbolInformation * list Entry) :=
  if negb (hasWordChar search) then mret (bucket, allUris)
  else
    match makeRegExp search with
    | None => mret (bucket, allUris)
    | Some regexp => findLoop (runChunk search regexp) (length allUris) 0 allUris bucket
    end.

(** The setting [anycode.workspaceSymbols]. *)
Inductive Config := off | workspace | documents.

(** [for (const document of vscode.workspace.textDocuments)]; [None] is
    the [return undefined] of a cancelled loop. *)
Fixpoint searchDocuments (search : string) (textDocuments : list IDocument)
    (result : list SymbolInformation)
    : Async World (option (list SymbolInformation)) :=
  match textDocuments with
  | [] => mret (Some result)
  | document :: rest =>
      result' ← _collectMatches search document result;
      cancelled ← readToken;
      if cancelled : bool then mret None else searchDocuments search rest result'
  end.

(** [provideWorkspaceSymbols(search, token)], given the setting, the open
    documents and the [Map] of the index. *)
Definition provideWorkspaceSymbols (value : Config) (textDocuments : list IDocument)
    (index : list (string * Entry)) (search : string)
    : Async World (option (list SymbolInformation)) :=
  match value with
  | off => mret (Some [])
  | _ =>
      found ← searchDocuments search textDocuments [];
      match found with
      | None => mret None
      | Some result =>
          match value with
          | workspace =>
              '(result', _) ← _findWithIndex search (all_ index textDocuments) result;
              mret (Some result')
          | _ => mret (Some result)
          end
      end
  end.

End WithHost.
End WorkspaceSymbols.

(** ** The language server: [ReferencesProvider] *)

Module References.

(** What [provideReferences] takes from its surroundings. The locations
    and positions are the protocol's; [containsLocation] comes from the
    server's [common] module. *)
Class Env := {
  Location : Type;
  Position : Type;
  (** [containsLocation(location, uri, position)] *)
  containsLocation : Location → string → Position → bool
}.

Section WithEnv.
Context `{Env}.

(** An entry of [SymbolIndex.usages]; the kind of a usage may be
    [undefined]. *)
Record Usage := mkUsage {
  usage_location : Location;
  usage_kind : option Z
}.

(** An entry of [SymbolIndex.symbols], a definition. *)
Record Symbol := mkSymbol {
  symbol_location : Location;
  symbol_kind : Z
}.

(** [usage.kind ?? -1] *)
Definition usageKey (usage : Usage) : Z := default (-1)%Z (usage_kind usage).

(** The [get], then [set] or [push], that files a location under a kind.
    The array pushed to is the one the map holds, so the map shows the
    longer array under the same key, at the same place. *)
Definition addLocation (locationsByKind : list (Z * list Location)) (kind : Z)
    (location : Location) : list (Z * list Location) :=
  match JsMap.get locationsByKind kind with
  | None => JsMap.set locationsByKind kind [location]
  | Some array => JsMap.set locationsByKind kind (array ++ [location])
  end.

(** The body of [for (let usage of usages)], on the two locals. *)
Definition visitUsage (uri : string) (position : Position)
    (st : list (Z * list Location) * option Z) (usage : Usage)
    : list (Z * list Location) * option Z :=
  let '(locationsByKind, thisKind) := st in
  let thisKind' :=
    match thisKind with
    | None => if containsLocation (usage_location usage) uri position
              then usage_kind usage else None
    | Some _ => thisKind
    end in
  (addLocation locationsByKind (usageKey usage) (usage_location usage), thisKind').

(** The body of [for (let symbol of symbols)]. *)
Definition visitSymbol (uri : string) (position : Position) (includeDeclaration : bool)
    (st : list (Z * list Location) * option Z) (symbol : Symbol)
    : list (Z * list Location) * option Z :=
  let '(locationsByKind, thisKind) := st in
  let thisKind' :=
    match thisKind with
    | None => if containsLocation (symbol_location symbol) uri position
              then Some (symbol_kind symbol) else None
    | Some _ => thisKind
    end in
  (if includeDeclaration
   then addLocation locationsByKind (symbol_kind symbol) (symbol_location symbol)
   else locationsByKind,
   thisKind').

(** The two loops: [locationsByKind] and [thisKind] as they stand before
    the final [if]. An absent collection ([undefined]) is skipped. *)
Definition collectByKind (uri : string) (position : Position) (includeDeclaration : bool)
    (usages : option (list Usage)) (symbols : option (list Symbol))
    : list (Z * list Location) * option Z :=
  let st1 :=
    match usages with
    | Some us => fold_left (visitUsage uri position) us ([], None)
    | None => ([], None)
    end in
  match symbols with
  | Some ss => fold_left (visitSymbol uri position includeDeclaration) ss st1
  | None => st1
  end.

(** [provideReferences(params)]. [text] is the text of the node at the
    position, [None] when there is no tree or no node; [usages] and
    [symbols] are the two maps of the index after its [update()]. *)
Definition provideReferences (uri : string) (position : Position)
    (includeDeclaration : bool) (text : option string)
    (index_usages : list (string * list Usage))
    (index_symbols : list (string * list Symbol)) : list Location :=
  match text with
  | None => []
  | Some text =>
      let usages := JsMap.get index_usages text in
      let symbols := JsMap.get index_symbols text in
      if negb (bool_decide (is_Some usages)) && negb (bool_decide (is_Some symbols))
      then []
      else
        let '(locationsByKind, thisKind) :=
          collectByKind uri position includeDeclaration usages symbols in
        match thisKind with
        | None => concat (JsMap.values locationsByKind)
        | Some thisKind =>
            let sameKind := default [] (JsMap.get locationsByKind thisKind) in
            let unknownKind := default [] (JsMap.get locationsByKind (-1)%Z) in
            concat [sameKind; unknownKind]
        end
  end.

End WithEnv.
End References.

(** ** The language server: [CompletionItemProvider] *)

Module Completion.
Import Js.

(** [lsp.SymbolKind] *)
Inductive SymbolKind :=
| File | Module_ | Namespace | Package | Class | Method | Property | Field
| Constructor | Enum | Interface | Function_ | Variable_ | Constant
| String_ | Number | Boolean | Array | Object | Key | Null | EnumMember
| Struct | Event | Operator | TypeParameter.

(** [lsp.CompletionItemKind] *)
Inductive CompletionItemKind :=
| CText | CMethod | CFunction | CConstructor | CField | CVariable | CClass
| CInterface | CModule | CProperty | CUnit | CValue | CEnum | CKeyword
| CSnippet | CColor | CFile | CReference | CFolder | CEnumMember
| CConstant | CStruct | CEvent | COperator | CTypeParameter.

#[export] Instance SymbolKind_eq_dec : EqDecision SymbolKind.
Proof. solve_decision. Defined.

(** [lsp.CompletionItem], with the two fields this provider sets. *)
Record CompletionItem := mkCompletionItem {
  label : string;
  kind : option CompletionItemKind
}.

Definition _kindMapping : list (SymbolKind * CompletionItemKind) :=
  [ (Class, CClass); (Interface, CInterface); (Field, CField);
    (Property, CProperty); (Event, CEvent); (Constructor, CConstructor);
    (Method, CMethod); (Enum, CEnum); (EnumMember, CEnumMember);
    (Function_, CFunction); (Variable_, CVariable) ].

(** [const [[, [firstKind]]] = map]: the first element of the value of
    the first entry of [map]. Without a first entry the pattern is
    matched against [undefined] and throws; an empty value leaves
    [firstKind] [undefined]. *)
Definition firstKind (map : list (string * list SymbolKind)) : result (option SymbolKind) :=
  match map with
  | [] => Throw
  | (_, kinds) :: _ => Ok (head kinds)
  end.

(** Loop (1): every identifier of the file. *)
Definition addIdentifier (result : list (string * CompletionItem)) (text : string)
    : list (string * CompletionItem) :=
  JsMap.set result text (mkCompletionItem text None).

(** Loop (2): every definition of the project. *)
Fixpoint addDefinitions (definitions : list (string * list (string * list SymbolKind)))
    (result : list (string * CompletionItem)) : Js.result (list (string * CompletionItem)) :=
  match definitions with
  | [] => Ok result
  | (key, map) :: definitions' =>
      match firstKind map with
      | Throw => Throw
      | Ok firstKind =>
          addDefinitions definitions'
            (JsMap.set result key
               (mkCompletionItem key (firstKind ≫= JsMap.get _kindMapping)))
      end
  end.

(** The [Map] called [result] at the end of [provideCompletionItems];
    [identifiers] are the texts of the captures of the identifier query,
    in order. *)
Definition completionMap (identifiers : list string)
    (definitions : list (string * list (string * list SymbolKind)))
    : Js.result (list (string * CompletionItem)) :=
  addDefinitions definitions (fold_left addIdentifier identifiers []).

(** [provideCompletionItems(params)]; [identifiers] is [None] when the
    document has no parse tree. *)
Definition provideCompletionItems (identifiers : option (list string))
    (definitions : list (string * list (string * list SymbolKind)))
    : Js.result (list CompletionItem) :=
  match identifiers with
  | None => Ok []
  | Some ids =>
      match completionMap ids definitions with
      | Ok result => Ok (JsMap.values result)
      | Throw => Throw
      end
  end.

(** The candidate of a name of the index: its kind comes from the first
    kind of the first entry of the name's map. *)
Definition definitionItem (key : string) (map : list (string * list SymbolKind))
    : CompletionItem :=
  mkCompletionItem key
    (match map with
     | (_, kinds) :: _ => head kinds ≫= JsMap.get _kindMapping
     | [] => None
     end).

(** An index that knows a function [foo]. *)
Definition exampleDefinitions : list (string * list (string * list SymbolKind)) :=
  [("foo", [("file:///a.ts", [Function_; Variable_])])].

End Completion.

(** ** The properties, in the words of the design

  The definitions below follow the description of the algorithms, not
  the code; the theorems of the second part compare the two. *)

Module OutlineSpec.
Import Vscode TreeSitter Common Symbols.

(** Drop the head of a list while a test holds. *)
Fixpoint dropWhile {A} (p : A → bool) (l : list A) : list A :=
  match l with
  | [] => []
  | x :: l' => if p x then dropWhile p l' else l
  end.

(** The containment-stack algorithm, written from its description and
    without the functions of the code: only the record of a node and the
    editor's [contains] are shared.

    The span of a capture runs from the start of its syntax node to its
    end. *)
Definition span (c : QueryCapture) : Range :=
  newRange (row (startPosition (node c))) (column (startPosition (node c)))
           (row (endPosition (node c))) (column (endPosition (node c))).

(** The open node [top] contains the span [r]. *)
Definition spanContains (st : list Node) (r : Range) (top : ref) : bool :=
  match st !! top with
  | Some open => contains (range open) r
  | None => false
  end.

(** Step 1: pop while the top does not contain the span. *)
Fixpoint popClosed (st : list Node) (r : Range) (stk : list ref) : list ref :=
  match stk with
  | [] => []
  | top :: below => if spanContains st r top then stk else popClosed st r below
  end.

(** Step 3: the node [n] becomes the last child of the node [top]. *)
Definition attach (n top : ref) (st : list Node) : list Node :=
  match st !! top with
  | Some open => <[top := mkNode (capture open) (range open) (children open ++ [n])]> st
  | None => st
  end.

(** One capture: pop, then make a root or attach to the top, then push. *)
Definition stackStep (f : Forest) (c : QueryCapture) : Forest :=
  let n := length (store f) in
  let st := store f ++ [mkNode c (span c) []] in
  match popClosed st (span c) (stack f) with
  | [] => mkForest st (roots f ++ [n]) [n]
  | top :: below => mkForest (attach n top st) (roots f) (n :: top :: below)
  end.

Definition containmentForest (captures : list QueryCapture) : Forest :=
  fold_left stackStep captures (mkForest [] [] []).

(** A child labelled [L.name] under a node labelled [L]. *)
Definition isNameChild (st : list Node) (nd : Node) (child : ref) : bool :=
  match st !! child with
  | Some ch => Js.streq (name (capture ch)) (name (capture nd) +:+ ".name")
  | None => false
  end.

(** The node that names the symbol of [nd]: its first name child, or
    [nd] itself. *)
Definition nameSource (st : list Node) (nd : Node) : Node :=
  match find (isNameChild st nd) (children nd) ≫= (λ c, st !! c) with
  | Some ch => ch
  | None => nd
  end.

(** A list without the first element that passes a test. *)
Fixpoint removeFirst {A} (p : A → bool) (l : list A) : list A :=
  match l with
  | [] => []
  | x :: l' => if p x then l' else x :: removeFirst p l'
  end.

(** A symbol and everything below it. *)
Fixpoint allSymbols (s : DocumentSymbol) : list DocumentSymbol :=
  match s with
  | mkDocumentSymbol _ _ _ _ _ cs => s :: flat_map allSymbols cs
  end.

Definition descendants (s : DocumentSymbol) : list DocumentSymbol :=
  flat_map allSymbols (sym_children s).

(** Well-nested captures, on their ranges. Of two captures, the earlier
    one starts first, is not strictly inside the later one, and the two
    are disjoint unless one strictly contains the other. *)
Definition strictlyContains (a b : Range) : bool :=
  contains a b && negb (bool_decide (a = b)).

Definition disjoint (a b : Range) : bool :=
  isBeforeOrEqual (end_ a) (start b) || isBeforeOrEqual (end_ b) (start a).

Definition nestedPair (a b : Range) : bool :=
  isBeforeOrEqual (start a) (start b)
  && negb (strictlyContains b a)
  && (disjoint a b || strictlyContains a b || strictlyContains b a).

Fixpoint wellNested (rs : list Range) : bool :=
  match rs with
  | [] => true
  | a :: rs' => forallb (nestedPair a) rs' && wellNested rs'
  end.

Definition captureRanges (captures : list QueryCapture) : list Range :=
  (λ c, asCodeRange (node c)) <$> captures.

(** The order of positions, as a proposition. *)
Definition ple (a b : Position) : Prop :=
  line a < line b ∨ (line a = line b ∧ character a ≤ character b).

(** A range as the editor builds it: its start is not after its end. *)
Definition validRange (r : Range) : Prop := ple (start r) (end_ r).

(** The ranges of the nodes, in creation order. *)
Definition ranges (f : Forest) : list Range := range <$> store f.

(** What every state of the loop satisfies: a child was created after
    its parent and lies inside it, the stack and the roots point into the
    store, and every range is one the editor built. *)
Record forestOk (f : Forest) : Prop := {
  ok_children : ∀ p nd c, store f !! p = Some nd → c ∈ children nd →
    p < c ∧ ∃ ch, store f !! c = Some ch ∧ contains (range nd) (range ch) = true;
  ok_stack : ∀ p, p ∈ stack f → p < length (store f);
  ok_roots : ∀ p, p ∈ roots f → p < length (store f);
  ok_valid : ∀ p nd, store f !! p = Some nd → validRange (range nd)
}.

(** The symbol of a node, given the symbols of its children. *)
Definition symbolOf (st : list Node) (nd : Node) (syms : list DocumentSymbol)
    : DocumentSymbol :=
  mkDocumentSymbol (text (node (capture (nameSource st nd)))) ""
    (getSymbolKind (name (capture nd))) (range nd) (range (nameSource st nd)) syms.

(** A symbol's range contains its selection range and the range of
    every symbol below it. *)
Definition symbolOk (s : DocumentSymbol) : Prop :=
  contains (sym_range s) (sym_selectionRange s) = true
  ∧ ∀ d, d ∈ descendants s → contains (sym_range s) (sym_range d) = true.

(** A class with a method, as captures. *)
Definition outlineExample : list QueryCapture :=
  [ mkCapture "class" (mkSyntaxNode (mkPoint 0 0) (mkPoint 0 40) "class foo { bar() {} }");
    mkCapture "class.name" (mkSyntaxNode (mkPoint 0 6) (mkPoint 0 9) "foo");
    mkCapture "method" (mkSyntaxNode (mkPoint 0 12) (mkPoint 0 30) "bar() {}");
    mkCapture "method.name" (mkSyntaxNode (mkPoint 0 16) (mkPoint 0 19) "bar") ].

(** Its first node, when the tree is built. *)
Definition outlineExampleRoot : Node :=
  mkNode (mkCapture "class" (mkSyntaxNode (mkPoint 0 0) (mkPoint 0 40) "class foo { bar() {} }"))
         (newRange 0 0 0 40) [1; 2].

(** What the loop keeps true when the captures are well nested: a node
    that left the stack was followed by a capture it does not contain; no
    earlier node contains a root; no node is a root twice. *)
Record rootsOk (f : Forest) : Prop := {
  ok_closed : ∀ i a, ranges f !! i = Some a →
    i ∈ stack f ∨ ∃ m b, i < m ∧ ranges f !! m = Some b ∧ contains a b = false;
  ok_uncovered : ∀ r i a b, r ∈ roots f → i < r →
    ranges f !! i = Some a → ranges f !! r = Some b → contains a b = false;
  ok_nodup : NoDup (roots f)
}.

(** A symbol made of the node [c] of a store: it has the node's range,
    and it and the symbols below it are in order. *)
Definition madeOf (st : list Node) (c : nat) (s : DocumentSymbol) : Prop :=
  ∃ ch, st !! c = Some ch ∧ sym_range s = range ch
        ∧ ∀ x, x ∈ allSymbols s → symbolOk x.

End OutlineSpec.

Module ReferencesSpec.
Import References.
Section WithEnv.
Context `{Env}.

(** The entries that can reach the result, each under its kind: all
    usages, then the definitions when declarations are asked for. *)
Definition candidates (includeDeclaration : bool) (usages : list Usage)
    (symbols : list Symbol) : list (Z * Location) :=
  ((λ u, (usageKey u, usage_location u)) <$> usages)
  ++ (if includeDeclaration
      then (λ s, (symbol_kind s, symbol_location s)) <$> symbols
      else []).

(** The same entries, written from the description and without the
    functions of the code: a usage goes under its kind, or under the
    reserved kind [-1] when its kind is not known; a definition goes under
    its kind, and only when declarations are asked for. *)
Definition filed (includeDeclaration : bool) (usages : list Usage)
    (symbols : list Symbol) : list (Z * Location) :=
  ((λ u, (match usage_kind u with Some kind => kind | None => (-1)%Z end,
          usage_location u)) <$> usages)
  ++ (if includeDeclaration
      then (λ s, (symbol_kind s, symbol_location s)) <$> symbols
      else []).

(** The bucket of one kind: the locations filed under it, in order. *)
Definition bucketOf (kind : Z) (entries : list (Z * Location)) : list Location :=
  (filter (λ e, e.1 = kind) entries).*2.

(** The kinds in the order in which they are first met. *)
Fixpoint discoveryOrder (kinds : list Z) : list Z :=
  match kinds with
  | [] => []
  | k :: kinds' => k :: filter (λ k', k' ≠ k) (discoveryOrder kinds')
  end.

(** Filing a list of entries into the map, one after the other. *)
Definition fileAll (entries : list (Z * Location))
    (locationsByKind : list (Z * list Location)) : list (Z * list Location) :=
  fold_left (λ m e, addLocation m e.1 e.2) entries locationsByKind.

End WithEnv.
End ReferencesSpec.

Module WorkspaceSpec.
Import Vscode TreeSitter Common Js WorkspaceSymbols.
Section WithHost.
Context `{Host}.

(** What the search does with the captures of a document, written from
    its description and without the string functions of the code.

    A label that ends in the suffix of name captures. *)
Definition isNameLabel (label : string) : bool :=
  bool_decide (String.list_ascii_of_string ".name"
               `suffix_of` String.list_ascii_of_string label).

(** A label that starts with another label. *)
Definition hasPrefix (label prefix : string) : bool :=
  bool_decide (String.list_ascii_of_string prefix
               `prefix_of` String.list_ascii_of_string label).

(** A capture the search keeps: a name capture whose text matches. *)
Definition keeps (search : string) (capture : QueryCapture) : bool :=
  isNameLabel (name capture)
  && (bool_decide (search = "") || matchesFuzzy search (text (node capture))).

(** The symbol of a kept capture, given the capture before it. *)
Definition symbolFor (document : IDocument) (previous capture : QueryCapture)
    : SymbolInformation :=
  let location := (uri document, OutlineSpec.span capture) in
  if hasPrefix (name capture) (name previous)
  then mkSymbolInformation (text (node capture))
         (Symbols.getSymbolKind (name previous)) (name previous) location
  else mkSymbolInformation (text (node capture)) Struct "" location.

(** The symbols of a capture sequence, each capture with the one before
    it. *)
Fixpoint symbolsAfter (search : string) (document : IDocument)
    (previous : QueryCapture) (rest : list QueryCapture) : list SymbolInformation :=
  match rest with
  | [] => []
  | capture :: rest' =>
      (if keeps search capture then [symbolFor document previous capture] else [])
      ++ symbolsAfter search document capture rest'
  end.

(** The size of a batch. *)
Definition batchSize : nat := 50.

(** The batches of a list of files: batch [k] holds the files from
    [50 k] up to [50 k + 50]. *)
Definition batchesOf {A} (files : list A) : list (list A) :=
  (λ k, take batchSize (drop (batchSize * k) files))
  <$> seq 0 ((length files + (batchSize - 1)) / batchSize).

(** Batches run one after the other; cancellation seen before a batch
    ends the run with the bucket as it stands, and with this batch and
    the later ones untouched. *)
Fixpoint runBatches
    (run : list Entry → list SymbolInformation
           → Async World (list SymbolInformation * list Entry))
    (batches : list (list Entry)) (bucket : list SymbolInformation)
    : Async World (list SymbolInformation * list (list Entry)) :=
  match batches with
  | [] => mret (bucket, [])
  | batch :: batches' => λ w,
      if isCancellationRequested w then Ok ((bucket, batches), w)
      else
        ('(bucket1, batch') ← run batch bucket;
         '(bucket2, rest) ← runBatches run batches' bucket1;
         mret (bucket2, batch' :: rest)) w
  end.

(** What the loop needs of the way a batch is run: it only pushes to the
    bucket, and it hands back the entries it was given. Any schedule of the
    promises of a batch has this. *)
Definition pushesOnly
    (run : list Entry → list SymbolInformation
           → Async World (list SymbolInformation * list Entry)) : Prop :=
  ∀ chunk bucket w bucket' chunk' w',
    run chunk bucket w = Ok ((bucket', chunk'), w') →
    bucket `prefix_of` bucket' ∧ length chunk' = length chunk.

(** An index whose keys are the string forms of its entries' uris, as
    [create] and the watcher make it. *)
Definition keyedByUri (all : list (string * Entry)) : Prop :=
  ∀ key e, (key, e) ∈ all → key = uri_toString (entry_uri e).

(** The string forms of the uris of the open documents. *)
Definition openKeys (textDocuments : list IDocument) : list string :=
  (λ doc, uri_toString (uri doc)) <$> textDocuments.

End WithHost.

(** *** An editor to run the definitions on

    The world is the number of host calls still answered before the user
    cancels; the file [/src/big.ts] is larger than 1 MiB; no query has
    been compiled yet, and none fails. *)

Definition exampleHost : Host := {|
  World := nat;
  Query := string;
  _data := λ w, SymbolQueries.initialData (λ languageId, Ok ("(" +:+ languageId +:+ ")"));
  _data_languages := λ w, eq_refl;
  uri_toString := λ u, scheme u +:+ "://" +:+ path u;
  isCancellationRequested := λ w, bool_decide (w = 0);
  fs_stat_size := λ u w,
    Ok (if bool_decide (path u = "/src/big.ts") then 2000000%N else 12%N, w - 1);
  fs_readFile := λ u w, Ok ("class Foo {}", w - 1);
  queryCaptures := λ doc w,
    Ok (if bool_decide (getText doc = "") then Some []
        else Some [ mkCapture "class" (mkSyntaxNode (mkPoint 0 0) (mkPoint 0 12) (getText doc));
                    mkCapture "class.name" (mkSyntaxNode (mkPoint 0 6) (mkPoint 0 9) "Foo") ],
        w - 1);
  matchesFuzzy := λ search text, wordPrefilter search text;
  newRegExp := λ pattern flags, None
|}.

Definition bigFile : Uri := mkUri "file" "" "/src/big.ts" "" "".
Definition smallFile : Uri := mkUri "file" "" "/src/small.ts" "" "".

Definition exampleDocument : IDocument := mkDocument 1 smallFile "typescript" "class Foo {}".

Definition exampleCaptures : list QueryCapture :=
  [ mkCapture "class" (mkSyntaxNode (mkPoint 0 0) (mkPoint 0 12) "class Foo {}");
    mkCapture "class.name" (mkSyntaxNode (mkPoint 0 6) (mkPoint 0 9) "Foo") ].

(** An index of 120 files, none of them read yet: three batches. *)
Definition manyFiles : list Entry := replicate 120 (mkEntry smallFile None).

(** The symbol each of these files holds. *)
Definition fooSymbol : SymbolInformation :=
  mkSymbolInformation "Foo" Class "class"
    (smallFile, mkRange (mkPosition 0 6) (mkPosition 0 9)).

(** A class and its name, a comment, and the name of a method that has
    lost its method. *)
Definition containerExample : list QueryCapture :=
  [ mkCapture "class" (mkSyntaxNode (mkPoint 0 0) (mkPoint 0 12) "class Foo {}");
    mkCapture "class.name" (mkSyntaxNode (mkPoint 0 6) (mkPoint 0 9) "Foo");
    mkCapture "comment" (mkSyntaxNode (mkPoint 1 0) (mkPoint 1 9) "// bar ()");
    mkCapture "method.name" (mkSyntaxNode (mkPoint 2 0) (mkPoint 2 3) "bar") ].

End WorkspaceSpec.

(** ** Around the providers

  The cache of compiled queries and the start-up of the client, and the
  notions in which further properties of the outline, the index, the
  prefilter, the references and the completion are stated. *)


(** ** [src/client/main.ts] *)

Module Client.
Import Vscode Js.

(** An item of [supportedLanguages.getSupportedLanguages()]. *)
Record LanguageInfo := mkLanguageInfo {
  languageId : string;
  suffixes : list string
}.

(** The loop of the [file/read] handler that finds the language of a
    file from its path. *)
Fixpoint fileReadLanguageId (items : list LanguageInfo) (path : string) : string :=
  match items with
  | [] => ""
  | item :: items' =>
      if existsb (λ suffix, endsWith path ("." +:+ suffix)) (suffixes item)
      then languageId item
      else fileReadLanguageId items' path
  end.

(** [Math.max(0, configuration.get('symbolIndexSize', 500))], for a
    setting that is a whole number. *)
Definition symbolIndexSize (configured : option Z) : Z :=
  Z.max 0 (default 500%Z configured).

(** What is sent with [file/queue/init] for the files [findFiles] gave;
    [None] when no request is sent. *)
Definition initQueue (toString : Uri → string) (configured : option Z) (uris : list Uri)
    : option (list string) :=
  let size := symbolIndexSize configured in
  if bool_decide (0 < size)%Z then Some (toString <$> take (Z.to_nat size) uris)
  else None.

End Client.

(** ** The shape of the outline's forest *)

Module OutlineShape.
Import Vscode TreeSitter Common Symbols.

(** The stack read as a path: its top is the last child of the element
    below it, and so on down to the bottom, which is the last root. *)
Fixpoint isPath (st : list Node) (rts stk : list ref) : Prop :=
  match stk with
  | [] => True
  | c :: stk' =>
      match stk' with
      | [] => last rts = Some c
      | p :: _ => ∃ nd, st !! p = Some nd ∧ last (children nd) = Some c
      end
      ∧ isPath st rts stk'
  end.

(** What the loop keeps true of the shape of the forest. *)
Record shapeOk (f : Forest) : Prop := {
  ok_partition : roots f ++ flat_map children (store f) ≡ₚ seq 0 (length (store f));
  ok_roots_sorted : StronglySorted lt (roots f);
  ok_children_sorted : ∀ p nd, store f !! p = Some nd → StronglySorted lt (children nd);
  ok_stack_sorted : StronglySorted (λ a b, b < a) (stack f);
  ok_path : isPath (store f) (roots f) (stack f);
  ok_top : head (stack f) = match length (store f) with 0 => None | S n => Some n end
}.

End OutlineShape.

(** ** Counting the symbols of the outline *)

Module OutlineCount.
Import Vscode TreeSitter Common Symbols OutlineSpec.

(** The number of symbols a node gives: one for itself, and what its
    children give, the first name child left out. *)
Fixpoint symbolCount (fuel : nat) (st : list Node) (n : ref) : nat :=
  match fuel with
  | 0 => 0
  | S fuel' =>
      match st !! n with
      | None => 0
      | Some nd =>
          S (sum_list_with (symbolCount fuel' st)
               (removeFirst (isNameChild st nd) (children nd)))
      end
  end.

End OutlineCount.

(** ** The index and its watcher *)

Module IndexSpec.
Import Vscode TreeSitter Common Js WorkspaceSymbols WorkspaceSpec.
Section WithHost.
Context `{Host}.

(** An entry after some calls of [load]: the same file, and either the
    very same entry or one whose empty cache has been filled. *)
Definition loadedFrom (e e' : Entry) : Prop :=
  entry_uri e' = entry_uri e
  ∧ (e' = e ∨ (truthy (_text e) = false ∧ is_Some (_text e'))).

(** What the file watcher reports. *)
Inductive WatcherEvent :=
| DidCreate (uri : Uri)
| DidDelete (uri : Uri)
| DidChange (uri : Uri).

(** The handler that runs for an event. *)
Definition onEvent (all : list (string * Entry)) (event : WatcherEvent)
    : list (string * Entry) :=
  match event with
  | DidCreate uri => onDidCreate all uri
  | DidDelete uri => onDidDelete all uri
  | DidChange uri => onDidChange all uri
  end.

End WithHost.
End IndexSpec.

(** ** The prefilter, as a test for a subsequence *)

Module PrefilterSpec.
Import WorkspaceSymbols.

(** The characters [cs] occur in [s] in this order, case ignored. *)
Fixpoint isSubsequence (cs s : list Ascii.ascii) {struct s} : bool :=
  match s with
  | [] => match cs with [] => true | _ :: _ => false end
  | x :: s' =>
      match cs with
      | [] => true
      | c :: cs' => if eqIgnoreCase c x then isSubsequence cs' s' else isSubsequence cs s'
      end
  end.

End PrefilterSpec.

(** ** The kind at the position of a references request *)

Module CursorSpec.
Import References.
Section WithEnv.
Context `{Env}.

(** The kinds that can become [thisKind]: those of the usages at the
    position that have a kind, then those of the definitions at the
    position. *)
Definition kindsAt (uri : string) (position : Position)
    (usages : list Usage) (symbols : list Symbol) : list Z :=
  omap (λ u, if containsLocation (usage_location u) uri position
             then usage_kind u else None) usages
  ++ omap (λ s, if containsLocation (symbol_location s) uri position
                then Some (symbol_kind s) else None) symbols.

End WithEnv.

(** Locations are a file and an offset; a position is an offset. *)
Definition exampleEnv : Env := {|
  Location := string * nat;
  Position := nat;
  containsLocation := λ location uri position,
    bool_decide (location.1 = uri) && bool_decide (location.2 = position)
|}.

Definition exampleUsages : list (string * list (@Usage exampleEnv)) :=
  [("foo", [ @mkUsage exampleEnv ("a.ts", 3) (Some 12%Z);
             @mkUsage exampleEnv ("a.ts", 9) None;
             @mkUsage exampleEnv ("b.ts", 1) (Some 13%Z) ])].

Definition exampleSymbols : list (string * list (@Symbol exampleEnv)) :=
  [("foo", [ @mkSymbol exampleEnv ("a.ts", 0) 12%Z ])].

End CursorSpec.

(** ** Completion maps *)

Module CompletionSpec.
Import Completion.

(** A map of candidates in which every candidate stands under its own
    label. *)
Definition labelled (m : list (string * CompletionItem)) : Prop :=
  ∀ key item, (key, item) ∈ m → label item = key.

End CompletionSpec.

(** ** More editors to run the definitions on *)

Module WorkspaceExamples.
Import Vscode TreeSitter Common Js WorkspaceSymbols WorkspaceSpec.

(** A parser whose query reports the name of a class before the class. *)
Definition nameFirstHost : Host := {|
  World := nat;
  Query := string;
  _data := λ w, SymbolQueries.initialData (λ languageId, Ok ("(" +:+ languageId +:+ ")"));
  _data_languages := λ w, eq_refl;
  uri_toString := λ u, scheme u +:+ "://" +:+ path u;
  isCancellationRequested := λ w, bool_decide (w = 0);
  fs_stat_size := λ u w, Ok (12%N, w - 1);
  fs_readFile := λ u w, Ok ("class Foo {}", w - 1);
  queryCaptures := λ doc w,
    Ok (Some [ mkCapture "class.name" (mkSyntaxNode (mkPoint 0 6) (mkPoint 0 9) "Foo");
               mkCapture "class" (mkSyntaxNode (mkPoint 0 0) (mkPoint 0 12) (getText doc)) ],
        w - 1);
  matchesFuzzy := λ search text, wordPrefilter search text;
  newRegExp := λ pattern flags, None
|}.

(** A document of the source control view. *)
Definition gitDocument : IDocument :=
  mkDocument 1 (mkUri "git" "" "/src/small.ts" "" "") "typescript" "class Foo {}".

End WorkspaceExamples.

(** * Part II: the proofs *)

(** ** Strings *)

Section StringFacts.
Import Js.

Lemma length_append a b :
  String.length (a +:+ b) = String.length a + String.length b.
Proof. induction a as [|c a IH]; simpl; [done|]. by rewrite IH. Qed.

Lemma substring_all s : String.substring 0 (String.length s) s = s.
Proof. induction s as [|c s IH]; simpl; [done|]. by rewrite IH. Qed.

Lemma substring_append a p :
  String.substring (String.length a) (String.length p) (a +:+ p) = p.
Proof. induction a as [|c a IH]; simpl; [apply substring_all|done]. Qed.

Lemma endsWith_append a p : endsWith (a +:+ p) p = true.
Proof.
  unfold endsWith. rewrite length_append.
  case_decide; [|lia].
  replace (String.length a + String.length p - String.length p) with (String.length a) by lia.
  rewrite substring_append. by apply bool_decide_eq_true.
Qed.

Lemma startsWith_append a b : startsWith (a +:+ b) a = true.
Proof.
  unfold startsWith. induction a as [|c a IH]; simpl.
  - by destruct b.
  - destruct (Ascii.ascii_dec c c); [done|congruence].
Qed.

Lemma chars_append a b : chars (a +:+ b) = chars a ++ chars b.
Proof. unfold chars. induction a as [|c a IH]; simpl; [done|]. by rewrite IH. Qed.

Lemma substring_split s : ∀ i, i ≤ String.length s →
  s = String.substring 0 i s +:+ String.substring i (String.length s - i) s.
Proof.
  induction s as [|c s IH]; intros i Hi; simpl in *.
  - by destruct i.
  - destruct i as [|i]; simpl.
    + by rewrite substring_all.
    + change (String c s = String c (String.substring 0 i s
                                     +:+ String.substring i (String.length s - i) s)).
      f_equal. apply IH. lia.
Qed.

Lemma list_ascii_append a b :
  String.list_ascii_of_string (a +:+ b)
  = String.list_ascii_of_string a ++ String.list_ascii_of_string b.
Proof. apply chars_append. Qed.

Lemma prefix_of_string p s :
  String.list_ascii_of_string p `prefix_of` String.list_ascii_of_string s
  ↔ ∃ rest, s = p +:+ rest.
Proof.
  split.
  - intros [k Hk]. exists (String.string_of_list_ascii k).
    rewrite <- (String.string_of_list_ascii_of_string s), Hk.
    rewrite <- (String.list_ascii_of_string_of_list_ascii k) at 1.
    rewrite <- list_ascii_append. by rewrite String.string_of_list_ascii_of_string.
  - intros [rest ->]. rewrite list_ascii_append. by eexists.
Qed.

Lemma suffix_of_string p s :
  String.list_ascii_of_string p `suffix_of` String.list_ascii_of_string s
  ↔ ∃ stem, s = stem +:+ p.
Proof.
  split.
  - intros [k Hk]. exists (String.string_of_list_ascii k).
    rewrite <- (String.string_of_list_ascii_of_string s), Hk.
    rewrite <- (String.list_ascii_of_string_of_list_ascii k) at 1.
    rewrite <- list_ascii_append. by rewrite String.string_of_list_ascii_of_string.
  - intros [stem ->]. rewrite list_ascii_append. by eexists.
Qed.

(** The string functions of the host say what the lists of characters
    say. *)
Lemma startsWith_prefix_of s p :
  startsWith s p
  = bool_decide (String.list_ascii_of_string p `prefix_of` String.list_ascii_of_string s).
Proof.
  destruct (startsWith s p) eqn:Hs; symmetry.
  - apply bool_decide_eq_true, prefix_of_string.
    unfold startsWith in Hs. apply String.prefix_correct in Hs.
    exists (String.substring (String.length p) (String.length s - String.length p) s).
    assert (String.length p ≤ String.length s) as Hle.
    { destruct (decide (String.length p ≤ String.length s)) as [|Hgt]; [done|].
      apply (f_equal String.length) in Hs.
      assert (∀ t n, String.length (String.substring 0 n t) ≤ String.length t) as Hsub.
      { induction t as [|c t IH]; intros [|n]; simpl; try lia.
        specialize (IH n). lia. }
      specialize (Hsub s (String.length p)). lia. }
    pose proof (substring_split s (String.length p) Hle) as Hsplit.
    by rewrite Hs in Hsplit.
  - apply bool_decide_eq_false. intros [rest ->]%prefix_of_string.
    by rewrite startsWith_append in Hs.
Qed.

Lemma endsWith_suffix_of s p :
  endsWith s p
  = bool_decide (String.list_ascii_of_string p `suffix_of` String.list_ascii_of_string s).
Proof.
  destruct (endsWith s p) eqn:Hs; symmetry.
  - apply bool_decide_eq_true, suffix_of_string.
    unfold endsWith in Hs. case_decide as Hle; [|done].
    apply bool_decide_eq_true in Hs.
    exists (String.substring 0 (String.length s - String.length p) s).
    pose proof (substring_split s (String.length s - String.length p)) as Hsplit.
    replace (String.length s - (String.length s - String.length p))
      with (String.length p) in Hsplit by lia.
    rewrite Hs in Hsplit. apply Hsplit. lia.
  - apply bool_decide_eq_false. intros [stem ->]%suffix_of_string.
    by rewrite endsWith_append in Hs.
Qed.

End StringFacts.


(** ** The tree of [provideDocumentSymbols] *)

Section OutlineTree.
Import Vscode TreeSitter Common Symbols OutlineSpec.

Lemma place_dropWhile n r st rts stk :
  place n r st rts stk =
  match dropWhile (λ top, negb (refContains st top r)) stk with
  | [] => mkForest st (rts ++ [n]) [n]
  | top :: stk' => mkForest (alter (pushChild n) top st) rts (n :: top :: stk')
  end.
Proof.
  induction stk as [|parent stk IH]; simpl; [done|].
  destruct (refContains st parent r); simpl; [done|]. apply IH.
Qed.

Lemma popClosed_dropWhile st r stk :
  popClosed st r stk = dropWhile (λ top, negb (refContains st top r)) stk.
Proof.
  induction stk as [|top stk IH]; simpl; [done|].
  unfold spanContains, refContains. destruct (st !! top) as [open|]; simpl; [|done].
  by destruct (contains (range open) r).
Qed.

Lemma attach_alter n (top : ref) (st : list Node) :
  attach n top st = alter (pushChild n) top st.
Proof.
  unfold attach. apply list_eq. intros i.
  destruct (st !! top) as [open|] eqn:Htop.
  - destruct (decide (top = i)) as [<-|Hne].
    + rewrite list_lookup_insert_eq by (by eapply lookup_lt_Some).
      by rewrite list_lookup_alter_eq, Htop.
    + by rewrite list_lookup_insert_ne, list_lookup_alter_ne.
  - destruct (decide (top = i)) as [<-|Hne].
    + by rewrite list_lookup_alter_eq, Htop.
    + by rewrite list_lookup_alter_ne.
Qed.

Lemma addCapture_stackStep f c : addCapture f c = stackStep f c.
Proof.
  unfold addCapture, stackStep. rewrite place_dropWhile, popClosed_dropWhile.
  change (range (newNode c)) with (span c).
  change (newNode c) with (mkNode c (span c) []).
  destruct (dropWhile _ _); [done|]. by rewrite attach_alter.
Qed.

End OutlineTree.

(** ** Positions and ranges *)

Section Ranges.
Import Vscode TreeSitter Common OutlineSpec.

Lemma isBefore_true a b :
  isBefore a b = true ↔ line a < line b ∨ (line a = line b ∧ character a < character b).
Proof.
  unfold isBefore.
  destruct (decide (line a < line b)); [split; [lia|done]|].
  destruct (decide (line b < line a)); [split; [done|lia]|].
  rewrite bool_decide_eq_true. lia.
Qed.

Lemma isBefore_false a b : isBefore a b = false ↔ ple b a.
Proof.
  unfold ple. destruct (isBefore a b) eqn:E.
  - apply isBefore_true in E. split; [done|lia].
  - split; [intros _|done].
    assert (¬ (line a < line b ∨ (line a = line b ∧ character a < character b))) by
      (rewrite <- isBefore_true; congruence).
    lia.
Qed.

Lemma isBeforeOrEqual_true a b : isBeforeOrEqual a b = true ↔ ple a b.
Proof. unfold isBeforeOrEqual. rewrite negb_true_iff. apply isBefore_false. Qed.

Lemma containsPosition_true r p :
  containsPosition r p = true ↔ ple (start r) p ∧ ple p (end_ r).
Proof.
  unfold containsPosition.
  by rewrite andb_true_iff, !negb_true_iff, !isBefore_false.
Qed.

Lemma contains_true r o :
  contains r o = true ↔
  ple (start r) (start o) ∧ ple (start o) (end_ r)
  ∧ ple (start r) (end_ o) ∧ ple (end_ o) (end_ r).
Proof.
  unfold contains. rewrite andb_true_iff, !containsPosition_true. tauto.
Qed.

Lemma newRange_valid sl sc el ec : validRange (newRange sl sc el ec).
Proof.
  unfold validRange, newRange.
  destruct (isBefore _ _) eqn:E; simpl.
  - apply isBefore_true in E. unfold ple. simpl in *. lia.
  - by apply isBefore_false in E.
Qed.

Lemma asCodeRange_valid n : validRange (asCodeRange n).
Proof. apply newRange_valid. Qed.

Lemma ple_trans a b c : ple a b → ple b c → ple a c.
Proof. unfold ple. lia. Qed.

Lemma contains_refl r : validRange r → contains r r = true.
Proof. unfold validRange. rewrite contains_true. unfold ple. lia. Qed.

Lemma contains_trans a b c :
  contains a b = true → contains b c = true → contains a c = true.
Proof. rewrite !contains_true. unfold ple. lia. Qed.

End Ranges.

(** ** Invariants of the tree-building loop *)

Section OutlineInvariant.
Import Vscode TreeSitter Common Symbols OutlineSpec.

Lemma place_cases n r st rts stk :
  ∃ popped kept, stk = popped ++ kept
    ∧ Forall (λ p, refContains st p r = false) popped
    ∧ match kept with
      | [] => place n r st rts stk = mkForest st (rts ++ [n]) [n]
      | top :: _ => refContains st top r = true
          ∧ place n r st rts stk = mkForest (alter (pushChild n) top st) rts (n :: kept)
      end.
Proof.
  induction stk as [|parent stk IH]; simpl.
  - by exists [], [].
  - destruct (refContains st parent r) eqn:E.
    + by exists [], (parent :: stk).
    + destruct IH as (popped & kept & -> & Hpop & Hk).
      exists (parent :: popped), kept. split_and!; [done|by constructor|done].
Qed.

Lemma fmap_range_alter n (top : ref) (st : list Node) :
  range <$> alter (pushChild n) top st = range <$> st.
Proof.
  revert top. induction st as [|x st IH]; intros [|top]; csimpl; [done..| ].
  f_equal. apply IH.
Qed.

Lemma ranges_addCapture f c :
  ranges (addCapture f c) = ranges f ++ [asCodeRange (node c)].
Proof.
  unfold ranges, addCapture.
  destruct (place_cases (length (store f)) (range (newNode c))
              (store f ++ [newNode c]) (roots f) (stack f))
    as (popped & kept & _ & _ & Hk).
  destruct kept as [|top kept].
  - rewrite Hk. simpl. by rewrite fmap_app.
  - destruct Hk as [_ ->]. simpl. by rewrite fmap_range_alter, fmap_app.
Qed.

Lemma ranges_makeTree_from cs f :
  ranges (fold_left addCapture cs f) = ranges f ++ captureRanges cs.
Proof.
  revert f. induction cs as [|c cs IH]; intros f; simpl.
  - by rewrite app_nil_r.
  - rewrite IH, ranges_addCapture. by rewrite <- app_assoc.
Qed.

Lemma ranges_makeTree cs : ranges (makeTree cs) = captureRanges cs.
Proof. apply (ranges_makeTree_from cs emptyForest). Qed.

Lemma length_store_makeTree cs : length (store (makeTree cs)) = length cs.
Proof.
  assert (length (ranges (makeTree cs)) = length (captureRanges cs)) as E
    by by rewrite ranges_makeTree.
  unfold ranges, captureRanges in E. by rewrite !length_fmap in E.
Qed.

Lemma emptyForest_ok : forestOk emptyForest.
Proof. split; simpl; intros *; try rewrite lookup_nil; try done; by intros ?%elem_of_nil. Qed.

Lemma refContains_true (st : list Node) p r :
  refContains st p r = true → ∃ nd, st !! p = Some nd ∧ contains (range nd) r = true.
Proof. unfold refContains. destruct (st !! p); [eauto|done]. Qed.

Lemma addCapture_ok f c : forestOk f → forestOk (addCapture f c).
Proof.
  intros [Hch Hstk Hrts Hval]. unfold addCapture.
  set (n := length (store f)). set (nd := newNode c).
  destruct (place_cases n (range nd) (store f ++ [nd]) (roots f) (stack f))
    as (popped & kept & Hsplit & _ & Hk).
  assert (∀ p x, (store f ++ [nd]) !! p = Some x →
            (store f !! p = Some x ∧ p < n) ∨ (p = n ∧ x = nd)) as Hsnoc.
  { intros p x Hp. apply lookup_snoc_Some in Hp as [[? ?]|[? ?]]; [left|right]; done. }
  destruct kept as [|top kept].
  - rewrite Hk. split; cbn [store roots stack].
    + intros p x ch Hp Hc. destruct (Hsnoc _ _ Hp) as [[Hp' ?]|[-> ->]].
      * destruct (Hch _ _ _ Hp' Hc) as (? & ch' & Hch' & ?).
        split; [done|]. exists ch'. split; [|done]. by apply lookup_app_l_Some.
      * simpl in Hc. by apply elem_of_nil in Hc.
    + intros p ->%list_elem_of_singleton. rewrite length_app. simpl. lia.
    + intros p [Hp| ->%list_elem_of_singleton]%elem_of_app;
        rewrite length_app; simpl; [apply Hrts in Hp|]; lia.
    + intros p x Hp. destruct (Hsnoc _ _ Hp) as [[Hp' ?]|[-> ->]]; [eauto|].
      apply asCodeRange_valid.
  - destruct Hk as [Htop ->].
    apply refContains_true in Htop as (tnd & Htnd & Hcont).
    assert (top < n) as Htopn.
    { apply Hstk. rewrite Hsplit. apply elem_of_app. right. by left. }
    assert (store f !! top = Some tnd) as Htnd'.
    { destruct (Hsnoc _ _ Htnd) as [[? ?]|[? ?]]; [done|lia]. }
    assert ((store f ++ [nd]) !! n = Some nd) as Hn.
    { subst n. by rewrite lookup_app_r, Nat.sub_diag by lia. }
    split; cbn [store roots stack].
    + intros p x ch Hp Hc.
      destruct (decide (p = top)) as [->|Hne].
      * rewrite list_lookup_alter_eq, Htnd in Hp. simpl in Hp.
        injection Hp as <-. simpl in *.
        apply elem_of_app in Hc as [Hc| ->%list_elem_of_singleton].
        -- destruct (Hch _ _ _ Htnd' Hc) as (? & ch' & Hch' & ?).
           split; [done|]. assert (ch ≠ top) by lia.
           exists ch'. rewrite list_lookup_alter_ne by done.
           split; [|done]. by apply lookup_app_l_Some.
        -- split; [done|]. exists nd.
           rewrite list_lookup_alter_ne by lia. done.
      * rewrite list_lookup_alter_ne in Hp by done.
        destruct (Hsnoc _ _ Hp) as [[Hp' ?]|[-> ->]].
        -- destruct (Hch _ _ _ Hp' Hc) as (? & ch' & Hch' & ?).
           split; [done|].
           destruct (decide (ch = top)) as [->|?].
           ++ exists (pushChild n ch').
              rewrite list_lookup_alter_eq, (lookup_app_l_Some _ _ _ _ Hch').
              done.
           ++ exists ch'. rewrite list_lookup_alter_ne by done.
              split; [|done]. by apply lookup_app_l_Some.
        -- simpl in Hc. by apply elem_of_nil in Hc.
    + rewrite length_alter, length_app. simpl.
      intros p [->|Hp]%elem_of_cons; [lia|].
      assert (p < n); [|lia]. apply Hstk. rewrite Hsplit.
      apply elem_of_app. by right.
    + rewrite length_alter, length_app. simpl.
      intros p Hp%Hrts. lia.
    + intros p x Hp.
      destruct (decide (p = top)) as [->|Hne].
      * rewrite list_lookup_alter_eq, Htnd in Hp. simpl in Hp.
        injection Hp as <-. simpl. eauto.
      * rewrite list_lookup_alter_ne in Hp by done.
        destruct (Hsnoc _ _ Hp) as [[Hp' ?]|[-> ->]]; [eauto|].
        apply asCodeRange_valid.
Qed.

Lemma makeTree_ok cs : forestOk (makeTree cs).
Proof.
  unfold makeTree. generalize emptyForest_ok. generalize emptyForest.
  induction cs as [|c cs IH]; intros f Hf; simpl; [done|].
  apply IH. by apply addCapture_ok.
Qed.

(** C1. The tree-building loop of [provideDocumentSymbols] is the
    containment-stack algorithm. It makes the forest that the algorithm,
    written from its description, makes. Capture by capture: the stack
    is popped while its top does not contain the span of the capture; on
    an empty stack the capture becomes the last root, otherwise it
    becomes the last child of the top; then the capture is pushed. Every
    element of the stack is a node of the store, so the top always has a
    span to compare with. *)
Theorem makeTree_containment_stack captures :
  makeTree captures = containmentForest captures
  ∧ (∀ p, p ∈ stack (makeTree captures) → is_Some (store (makeTree captures) !! p))
  ∧ ∀ c,
      let f := makeTree captures in
      let next := makeTree (captures ++ [c]) in
      let n := length captures in
      let new := mkNode c (span c) [] in
      ∃ popped kept,
        stack f = popped ++ kept
        ∧ (∀ p, p ∈ popped →
             ∃ closed, store f !! p = Some closed
               ∧ contains (range closed) (span c) = false)
        ∧ match kept with
          | [] => next = mkForest (store f ++ [new]) (roots f ++ [n]) [n]
          | top :: _ =>
              ∃ open, store f !! top = Some open
                ∧ contains (range open) (span c) = true
                ∧ next = mkForest
                    (<[top := mkNode (capture open) (range open) (children open ++ [n])]>
                       (store f ++ [new]))
                    (roots f) (n :: kept)
          end.
Proof.
  split_and!.
  - unfold makeTree, containmentForest. change emptyForest with (mkForest [] [] []).
    generalize (mkForest [] [] []).
    induction captures as [|c cs IH]; intros f; simpl; [done|].
    by rewrite addCapture_stackStep, IH.
  - intros p Hp. apply lookup_lt_is_Some_2. by apply (ok_stack _ (makeTree_ok captures)).
  - intros c f next n new.
    pose proof (makeTree_ok captures) as Hf. fold f in Hf.
    assert (next = addCapture f c) as ->.
    { subst next f. unfold makeTree. by rewrite fold_left_app. }
    assert (n = length (store f)) as Hn by (subst n f; by rewrite length_store_makeTree).
    unfold addCapture. rewrite <- Hn.
    change (range (newNode c)) with (span c). change (newNode c) with new.
    destruct (place_cases n (span c) (store f ++ [new]) (roots f) (stack f))
      as (popped & kept & Hstk & Hpopped & Hkept).
    assert (∀ p, p ∈ stack f → refContains (store f ++ [new]) p (span c)
              = match store f !! p with
                | Some nd => contains (range nd) (span c)
                | None => false
                end) as Hlookup.
    { intros p Hp. unfold refContains. rewrite lookup_app_l; [done|].
      by apply (ok_stack _ Hf). }
    exists popped, kept. split_and!; [done| |].
    + intros p Hp. rewrite Forall_forall in Hpopped. specialize (Hpopped p Hp).
      assert (p ∈ stack f) as Hin by (rewrite Hstk; apply elem_of_app; by left).
      rewrite (Hlookup p Hin) in Hpopped.
      destruct (store f !! p) as [closed|] eqn:Hc; [by exists closed|].
      apply lookup_ge_None in Hc. pose proof (ok_stack _ Hf p Hin). lia.
    + destruct kept as [|top rest]; [done|]. destruct Hkept as [Hc ->].
      assert (top ∈ stack f) as Hin.
      { rewrite Hstk. apply elem_of_app. right. left. }
      rewrite (Hlookup top Hin) in Hc.
      destruct (store f !! top) as [open|] eqn:Hopen; [|done].
      exists open. split_and!; [done..|].
      rewrite <- attach_alter. unfold attach.
      by rewrite (lookup_app_l_Some _ _ _ _ Hopen).
Qed.

End OutlineInvariant.

(** ** [build] on a store the loop has made *)

Section OutlineBuild.
Import Vscode TreeSitter Common Symbols OutlineSpec.

Variable st : list Node.
Hypothesis st_children : ∀ p nd c, st !! p = Some nd → c ∈ children nd →
  p < c ∧ ∃ ch, st !! c = Some ch ∧ contains (range nd) (range ch) = true.
Hypothesis st_valid : ∀ p nd, st !! p = Some nd → validRange (range nd).

Lemma buildChildren_named fuel nd cs syms x :
  (∀ c, c ∈ cs → is_Some (st !! c)) →
  buildChildren (build fuel st) st nd cs syms (Some x)
  = (λ s, (s, Some x)) <$> buildRoots fuel st cs syms.
Proof.
  revert syms. induction cs as [|c cs IH]; intros syms Hcs; [done|].
  destruct (Hcs c) as [ch Hch]; [by left|].
  cbn [buildChildren buildRoots]. rewrite Hch. simpl.
  destruct (build fuel st c syms) as [syms'|]; simpl; [|done].
  apply IH. intros c' Hc'. apply Hcs. by right.
Qed.

Lemma buildChildren_unnamed fuel nd cs syms :
  (∀ c, c ∈ cs → is_Some (st !! c)) →
  buildChildren (build fuel st) st nd cs syms None
  = (λ s, (s, find (isNameChild st nd) cs ≫= (λ c, st !! c)))
    <$> buildRoots fuel st (removeFirst (isNameChild st nd) cs) syms.
Proof.
  revert syms. induction cs as [|c cs IH]; intros syms Hcs; [done|].
  destruct (Hcs c) as [ch Hch]; [by left|].
  assert (∀ c', c' ∈ cs → is_Some (st !! c')) as Hcs' by (intros; apply Hcs; by right).
  cbn [buildChildren find removeFirst]. unfold isNameChild at 1 3. rewrite Hch. simpl.
  destruct (Js.streq _ _); simpl.
  - rewrite Hch. by apply buildChildren_named.
  - destruct (build fuel st c syms) as [syms'|]; simpl; [|done]. by apply IH.
Qed.

Lemma children_lookup n nd c : st !! n = Some nd → c ∈ children nd → is_Some (st !! c).
Proof. intros Hn Hc. destruct (st_children _ _ _ Hn Hc) as (_ & ch & -> & _). eauto. Qed.

(** [build] in one equation: the symbol of the node, over the symbols of
    its children without the first name child. *)
Lemma build_unfold fuel n nd bucket :
  st !! n = Some nd →
  build (S fuel) st n bucket
  = (λ syms, bucket ++ [symbolOf st nd syms])
    <$> buildRoots fuel st (removeFirst (isNameChild st nd) (children nd)) [].
Proof.
  intros Hn. cbn [build]. rewrite Hn. simpl.
  rewrite buildChildren_unnamed by eauto using children_lookup.
  destruct (buildRoots _ _ _ _) as [syms|]; simpl; [|done].
  unfold symbolOf, nameSource. by destruct (find _ _ ≫= _).
Qed.

Lemma removeFirst_elem {A} (p : A → bool) l x : x ∈ removeFirst p l → x ∈ l.
Proof.
  induction l as [|y l IH]; simpl; [done|].
  destruct (p y); [by right|]. intros [->|?]%elem_of_cons; [by left|right; auto].
Qed.

Lemma buildRoots_ext f1 f2 cs syms :
  (∀ c b, c ∈ cs → build f1 st c b = build f2 st c b) →
  buildRoots f1 st cs syms = buildRoots f2 st cs syms.
Proof.
  revert syms. induction cs as [|c cs IH]; intros syms Hcs; [done|].
  simpl. rewrite Hcs by by left.
  destruct (build f2 st c syms); simpl; [|done].
  apply IH. intros; apply Hcs; by right.
Qed.

(** With enough fuel the result does not depend on the fuel. *)
Lemma build_fuel f1 : ∀ f2 n bucket,
  length st - n ≤ f1 → length st - n ≤ f2 →
  build f1 st n bucket = build f2 st n bucket.
Proof.
  induction f1 as [|f1 IH]; intros f2 n bucket H1 H2.
  - destruct f2; [done|]. simpl.
    rewrite (proj2 (lookup_ge_None st n)) by lia. done.
  - destruct f2 as [|f2].
    + simpl. rewrite (proj2 (lookup_ge_None st n)) by lia. done.
    + destruct (st !! n) as [nd|] eqn:Hn; [|by simpl; rewrite Hn].
      rewrite !(build_unfold _ _ nd) by done. f_equal.
      apply buildRoots_ext. intros c b Hc%removeFirst_elem.
      destruct (st_children _ _ _ Hn Hc) as [? _].
      apply IH; lia.
Qed.

Lemma buildRoots_fuel f1 f2 cs syms :
  length st ≤ f1 → length st ≤ f2 →
  buildRoots f1 st cs syms = buildRoots f2 st cs syms.
Proof. intros. apply buildRoots_ext. intros. apply build_fuel; lia. Qed.

Lemma buildRoots_total fuel cs syms :
  (∀ c b, c ∈ cs → is_Some (build fuel st c b)) →
  is_Some (buildRoots fuel st cs syms).
Proof.
  revert syms. induction cs as [|c cs IH]; intros syms Hcs; simpl; [eauto|].
  destruct (Hcs c syms) as [syms' ->]; [by left|]. simpl.
  apply IH. intros; apply Hcs; by right.
Qed.

(** [build] returns on every node of the store, given as much fuel as
    there are nodes from it on. *)
Lemma build_total fuel : ∀ n bucket,
  n < length st → length st - n ≤ fuel → is_Some (build fuel st n bucket).
Proof.
  induction fuel as [|fuel IH]; intros n bucket Hn Hf; [lia|].
  destruct (lookup_lt_is_Some_2 st n Hn) as [nd Hnd].
  rewrite (build_unfold _ _ _ _ Hnd).
  apply fmap_is_Some, buildRoots_total.
  intros c b Hc%removeFirst_elem.
  destruct (st_children _ _ _ Hnd Hc) as (? & ch & Hch & _).
  apply lookup_lt_Some in Hch. apply IH; lia.
Qed.

End OutlineBuild.

(** ** Name children *)

Section NameChild.
Import Vscode TreeSitter Common Symbols OutlineSpec.

(** C2. For a node of the tree with label [L], the first child labelled
    exactly [L.name], when there is one, gives the symbol its name (the
    child's text) and its selection range (the child's range), and the
    symbol's children are the symbols of the other children, in order: the
    name child has no symbol of its own. Without such a child the node
    names itself, and all its children have their symbols. *)
Theorem build_name_child cs n nd bucket fuel :
  store (makeTree cs) !! n = Some nd →
  length (store (makeTree cs)) ≤ fuel →
  ∃ syms,
    buildRoots fuel (store (makeTree cs))
      (removeFirst (isNameChild (store (makeTree cs)) nd) (children nd)) [] = Some syms
    ∧ build fuel (store (makeTree cs)) n bucket
      = Some (bucket ++
          [mkDocumentSymbol
             (text (node (capture (nameSource (store (makeTree cs)) nd)))) ""
             (getSymbolKind (name (capture nd))) (range nd)
             (range (nameSource (store (makeTree cs)) nd)) syms])
    ∧ (∀ c ch, find (isNameChild (store (makeTree cs)) nd) (children nd) = Some c →
         store (makeTree cs) !! c = Some ch →
         nameSource (store (makeTree cs)) nd = ch
         ∧ name (capture ch) = name (capture nd) +:+ ".name")
    ∧ (find (isNameChild (store (makeTree cs)) nd) (children nd) = None →
         nameSource (store (makeTree cs)) nd = nd
         ∧ removeFirst (isNameChild (store (makeTree cs)) nd) (children nd) = children nd).
Proof.
  intros Hn Hfuel. set (st := store (makeTree cs)) in *.
  pose proof (makeTree_ok cs) as [Hch _ _ Hval]. fold st in Hch, Hval.
  assert (n < length st) as Hlt by by eapply lookup_lt_Some.
  destruct fuel as [|fuel]; [lia|].
  destruct (build_total st Hch (S fuel) n bucket) as [out Hout]; [lia..|].
  rewrite (build_unfold st Hch _ _ _ _ Hn) in Hout.
  destruct (buildRoots fuel st _ []) as [syms|] eqn:Hsyms; [|done].
  exists syms. split_and!.
  - rewrite <- Hsyms. apply buildRoots_ext. intros c b Hc%removeFirst_elem.
    destruct (Hch _ _ _ Hn Hc) as [? _]. apply build_fuel; [done|lia..].
  - rewrite (build_unfold st Hch _ _ _ _ Hn), Hsyms. done.
  - intros c ch Hfind Hc. unfold nameSource. rewrite Hfind. simpl. rewrite Hc.
    split; [done|]. apply find_some in Hfind as [_ Hp].
    unfold isNameChild in Hp. rewrite Hc in Hp. by apply bool_decide_eq_true in Hp.
  - intros Hfind. unfold nameSource. rewrite Hfind. split; [done|].
    clear -Hfind. induction (children nd) as [|c l IH]; simpl in *; [done|].
    destruct (isNameChild st nd c); [done|]. f_equal. by apply IH.
Qed.

Lemma build_name_child_witness :
  ∃ syms, build 4 (store (makeTree outlineExample)) 0 []
    = Some [mkDocumentSymbol "foo" "" Vscode.Class (newRange 0 0 0 40)
              (newRange 0 6 0 9) syms].
Proof.
  destruct (build_name_child outlineExample 0 outlineExampleRoot [] 4)
    as (syms & _ & Hb & _); [reflexivity|vm_compute; lia|].
  exists syms. exact Hb.
Defined.

End NameChild.

(** ** Roots of well-nested captures *)

Section OutlineRoots.
Import Vscode TreeSitter Common Symbols OutlineSpec.

Lemma wellNested_app_l l1 l2 : wellNested (l1 ++ l2) = true → wellNested l1 = true.
Proof.
  induction l1 as [|a l1 IH]; simpl; [done|].
  rewrite !andb_true_iff, forallb_app, andb_true_iff.
  intros [[Ha _] Hw]. split; [done|]. by apply IH.
Qed.

Lemma wellNested_lookup rs i j a b :
  wellNested rs = true → i < j → rs !! i = Some a → rs !! j = Some b →
  nestedPair a b = true.
Proof.
  revert i j. induction rs as [|x rs IH]; intros i j Hw Hij Hi Hj; [done|].
  simpl in Hw. apply andb_true_iff in Hw as [Hx Hw].
  destruct j as [|j]; [lia|]. simpl in Hj. destruct i as [|i]; simpl in Hi.
  - injection Hi as ->. rewrite forallb_forall in Hx. apply Hx.
    apply list_elem_of_In. by eapply list_elem_of_lookup_2.
  - apply (IH i j); [done|lia|done..].
Qed.

(** Of three captures in order, if the first contains the third but not
    the second, the second contains the third. *)
Lemma nested_cover a b r :
  validRange a → validRange b → validRange r →
  nestedPair a b = true → isBeforeOrEqual (start b) (start r) = true →
  contains a r = true → contains a b = false →
  contains b r = true.
Proof.
  intros Ha Hb Hr Hab Hbr Har Hnab.
  unfold nestedPair, strictlyContains, disjoint in Hab.
  rewrite Hnab in Hab. simpl in Hab.
  rewrite orb_false_r in Hab.
  apply andb_true_iff in Hab as [Hab Hdis].
  apply andb_true_iff in Hab as [Hstart Hnot].
  apply negb_true_iff, andb_false_iff in Hnot.
  assert (contains b a = false) as Hnba.
  { destruct Hnot as [?|Heq]; [done|].
    apply negb_false_iff, bool_decide_eq_true in Heq. subst b.
    rewrite contains_refl in Hnab; done. }
  rewrite Hnba in Hdis. simpl in Hdis. rewrite orb_false_r in Hdis.
  apply orb_true_iff in Hdis.
  rewrite !isBeforeOrEqual_true in *.
  assert (¬ (ple (start a) (start b) ∧ ple (start b) (end_ a)
             ∧ ple (start a) (end_ b) ∧ ple (end_ b) (end_ a))) as Hnab'.
  { rewrite <- contains_true. congruence. }
  apply contains_true in Har as (Har1 & Har2 & Har3 & Har4). apply contains_true.
  unfold validRange in *.
  destruct Hdis as [Hdis|Hdis].
  - split_and!; eauto using ple_trans.
  - destruct Hnab'. split_and!; eauto using ple_trans.
Qed.

Lemma contains_same_start a b :
  validRange a → nestedPair a b = true → contains b a = true → contains a b = true.
Proof.
  intros Ha Hab Hba.
  unfold nestedPair, strictlyContains in Hab.
  apply andb_true_iff in Hab as [Hab _].
  apply andb_true_iff in Hab as [_ Hnot].
  rewrite Hba in Hnot. simpl in Hnot.
  apply negb_true_iff, negb_false_iff, bool_decide_eq_true in Hnot. subst b.
  by apply contains_refl.
Qed.

Lemma ranges_lookup f i a :
  ranges f !! i = Some a ↔ ∃ nd, store f !! i = Some nd ∧ a = range nd.
Proof.
  unfold ranges. rewrite list_lookup_fmap_Some.
  split; intros (nd & ? & ?); by exists nd.
Qed.

Lemma ranges_valid f i a : forestOk f → ranges f !! i = Some a → validRange a.
Proof. intros Hf (nd & Hnd & ->)%ranges_lookup. by eapply ok_valid. Qed.

Lemma nestedPair_start a b :
  nestedPair a b = true → isBeforeOrEqual (start a) (start b) = true.
Proof.
  unfold nestedPair. intros Hab.
  apply andb_true_iff in Hab as [Hab _]. by apply andb_true_iff in Hab as [? _].
Qed.

(** While the captures are well nested, a capture that some earlier node
    contains is contained in a node of the stack. *)
Lemma covered_on_stack f r :
  forestOk f → rootsOk f → validRange r →
  wellNested (ranges f ++ [r]) = true →
  ∀ k i a, length (ranges f) - i ≤ k → ranges f !! i = Some a →
    contains a r = true →
    ∃ s b, s ∈ stack f ∧ ranges f !! s = Some b ∧ contains b r = true.
Proof.
  intros Hf Hr Hv Hw. induction k as [|k IH]; intros i a Hk Hi Ha.
  - apply lookup_lt_Some in Hi. lia.
  - destruct (ok_closed f Hr i a Hi) as [Hin|(m & b & Him & Hm & Hab)]; [by eauto|].
    assert (contains b r = true) as Hb.
    { apply (nested_cover a b r); eauto using ranges_valid.
      - apply (wellNested_lookup (ranges f ++ [r]) i m); auto using lookup_app_l_Some.
      - apply nestedPair_start.
        apply (wellNested_lookup (ranges f ++ [r]) m (length (ranges f)));
          [done|by eapply lookup_lt_Some|by apply lookup_app_l_Some|].
        by rewrite lookup_app_r, Nat.sub_diag by lia. }
    apply (IH m b); [lia|done..].
Qed.

Lemma addCapture_rootsOk f c :
  forestOk f → rootsOk f →
  wellNested (ranges f ++ [asCodeRange (node c)]) = true →
  rootsOk (addCapture f c).
Proof.
  intros Hf Hr Hw.
  pose proof (ranges_addCapture f c) as Hranges.
  pose proof (covered_on_stack f _ Hf Hr (asCodeRange_valid (node c)) Hw) as Hcov.
  unfold addCapture in *.
  set (n := length (store f)) in *. set (nd := newNode c) in *.
  set (r := asCodeRange (node c)) in *.
  assert (length (ranges f) = n) as Hlen by (unfold ranges; by rewrite length_fmap).
  destruct (place_cases n (range nd) (store f ++ [nd]) (roots f) (stack f))
    as (popped & kept & Hsplit & Hpop & Hk).
  assert (∀ p a, p ∈ popped → ranges f !! p = Some a → contains a r = false) as Hpopped.
  { intros p a Hp (x & Hx & ->)%ranges_lookup.
    rewrite Forall_forall in Hpop. specialize (Hpop p Hp).
    unfold refContains in Hpop. by rewrite (lookup_app_l_Some _ _ _ _ Hx) in Hpop. }
  assert (∀ i a, (ranges f ++ [r]) !! i = Some a →
            (i < n ∧ ranges f !! i = Some a) ∨ (i = n ∧ a = r)) as Hsnoc.
  { intros i a Hi. apply lookup_snoc_Some in Hi as [[? ?]|[? ?]]; [left|right]; split;
      congruence || lia. }
  assert (∀ i a, ranges f !! i = Some a → i ∈ popped ++ kept →
            (i ∈ kept) ∨ ∃ m b, i < m ∧ (ranges f ++ [r]) !! m = Some b
                                 ∧ contains a b = false) as Hclose.
  { intros i a Hi [Hp|?]%elem_of_app; [right|by left].
    exists n, r. split_and!.
    - apply lookup_lt_Some in Hi. lia.
    - by rewrite lookup_app_r, Hlen, Nat.sub_diag by lia.
    - by eapply Hpopped. }
  assert (∀ i a, ranges f !! i = Some a →
            i ∈ kept ∨ ∃ m b, i < m ∧ (ranges f ++ [r]) !! m = Some b
                               ∧ contains a b = false) as Hold.
  { intros i a Hi.
    destruct (ok_closed f Hr i a Hi) as [Hin|(m & b & ? & Hm & ?)].
    - rewrite Hsplit in Hin. by eapply Hclose.
    - right. exists m, b. split_and!; [done| |done]. by apply lookup_app_l_Some. }
  assert (∀ r0 i a b, r0 ∈ roots f → i < r0 →
            (ranges f ++ [r]) !! i = Some a → (ranges f ++ [r]) !! r0 = Some b →
            contains a b = false) as Huncov.
  { intros r0 i a b Hr0 Hi Ha Hb.
    pose proof (ok_roots f Hf r0 Hr0).
    rewrite lookup_app_l in Ha, Hb by lia. by eapply (ok_uncovered f Hr). }
  destruct kept as [|top kept].
  - rewrite Hk in *. rewrite app_nil_r in Hsplit.
    split; rewrite ?Hranges; cbn [store roots stack].
    + intros i a Hi. destruct (Hsnoc _ _ Hi) as [[? Hi']|[-> ->]]; [|left; by left].
      destruct (Hold _ _ Hi') as [?%elem_of_nil|?]; [done|by right].
    + intros r0 i a b [Hr0| ->%list_elem_of_singleton]%elem_of_app Hi Ha Hb; [by eauto|].
      rewrite lookup_app_l in Ha by lia.
      rewrite lookup_app_r, Hlen, Nat.sub_diag in Hb by lia. injection Hb as <-.
      destruct (contains a r) eqn:Hc; [|done].
      destruct (Hcov (n - i) i a) as (s & b & Hs & Hb & Hbr); [lia|done..|].
      rewrite Hsplit in Hs. rewrite (Hpopped s b Hs Hb) in Hbr. done.
    + apply NoDup_app. split_and!; [by apply (ok_nodup f)| |apply NoDup_singleton].
      intros x Hx ->%list_elem_of_singleton. apply (ok_roots f Hf) in Hx. lia.
  - destruct Hk as [_ Hk]. rewrite Hk in *.
    split; rewrite ?Hranges; cbn [store roots stack].
    + intros i a Hi. destruct (Hsnoc _ _ Hi) as [[? Hi']|[-> ->]]; [|left; by left].
      destruct (Hold _ _ Hi') as [?|?]; [left; by right|by right].
    + eauto.
    + by apply (ok_nodup f).
Qed.

Lemma emptyForest_rootsOk : rootsOk emptyForest.
Proof.
  split; simpl.
  - intros i a. unfold ranges. simpl. by rewrite lookup_nil.
  - by intros r i a b ?%elem_of_nil.
  - constructor.
Qed.

Lemma makeTree_rootsOk cs :
  wellNested (captureRanges cs) = true → rootsOk (makeTree cs).
Proof.
  unfold makeTree.
  assert (∀ f, forestOk f → rootsOk f →
            wellNested (ranges f ++ captureRanges cs) = true →
            rootsOk (fold_left addCapture cs f)) as Hgen.
  { induction cs as [|c cs IH]; intros f Hf Hr Hw; simpl; [done|].
    assert (wellNested (ranges f ++ [asCodeRange (node c)]) = true) as Hw1.
    { apply (wellNested_app_l _ (captureRanges cs)).
      by rewrite <- app_assoc. }
    apply IH; [by apply addCapture_ok|by apply addCapture_rootsOk|].
    rewrite ranges_addCapture, <- app_assoc. done. }
  intros Hw. apply Hgen; [apply emptyForest_ok|apply emptyForest_rootsOk|done].
Qed.

End OutlineRoots.

(** ** The ranges of the symbols *)

Section OutlineSymbols.
Import Vscode TreeSitter Common Symbols OutlineSpec.

Lemma allSymbols_unfold s : allSymbols s = s :: descendants s.
Proof. by destruct s. Qed.

Lemma elem_of_flat_map {A B} (f : A → list B) l x :
  x ∈ flat_map f l ↔ ∃ y, y ∈ l ∧ x ∈ f y.
Proof.
  rewrite list_elem_of_In, in_flat_map. by setoid_rewrite list_elem_of_In.
Qed.

Variable st : list Node.
Hypothesis st_children : ∀ p nd c, st !! p = Some nd → c ∈ children nd →
  p < c ∧ ∃ ch, st !! c = Some ch ∧ contains (range nd) (range ch) = true.
Hypothesis st_valid : ∀ p nd, st !! p = Some nd → validRange (range nd).

Lemma buildRoots_madeOf fuel :
  (∀ n bucket out, build fuel st n bucket = Some out →
     ∃ s, out = bucket ++ [s] ∧ madeOf st n s) →
  ∀ cs syms out, buildRoots fuel st cs syms = Some out →
    ∃ new, out = syms ++ new ∧ Forall2 (madeOf st) cs new.
Proof.
  intros IH. induction cs as [|c cs IHcs]; intros syms out Hout; simpl in Hout.
  - injection Hout as <-. exists []. by rewrite app_nil_r.
  - destruct (build fuel st c syms) as [syms'|] eqn:Hc; simpl in Hout; [|done].
    destruct (IH _ _ _ Hc) as (s & -> & Hs).
    destruct (IHcs _ _ Hout) as (new & -> & Hnew).
    exists (s :: new). rewrite <- app_assoc. split; [done|by constructor].
Qed.

Lemma nameSource_inside nd n :
  st !! n = Some nd → contains (range nd) (range (nameSource st nd)) = true.
Proof.
  intros Hn. unfold nameSource.
  destruct (find _ _) as [c|] eqn:Hfind; simpl.
  - apply find_some in Hfind as [Hc%list_elem_of_In _].
    destruct (st_children _ _ _ Hn Hc) as (_ & ch & -> & ?). done.
  - apply contains_refl. eauto.
Qed.

Lemma build_madeOf fuel : ∀ n bucket out,
  build fuel st n bucket = Some out → ∃ s, out = bucket ++ [s] ∧ madeOf st n s.
Proof.
  induction fuel as [|fuel IH]; intros n bucket out Hout; [done|].
  destruct (st !! n) as [nd|] eqn:Hn; [|by simpl in Hout; rewrite Hn in Hout].
  rewrite (build_unfold st st_children _ _ _ _ Hn) in Hout.
  destruct (buildRoots fuel st _ []) as [syms|] eqn:Hsyms; [|done].
  injection Hout as <-.
  destruct (buildRoots_madeOf fuel IH _ _ _ Hsyms) as (new & -> & Hnew).
  simpl in *.
  exists (symbolOf st nd new). split; [done|].
  exists nd. split_and!; [done..|].
  assert (∀ s, s ∈ new → contains (range nd) (sym_range s) = true
                          ∧ ∀ x, x ∈ allSymbols s → symbolOk x) as Hsub.
  { intros s Hs. apply list_elem_of_lookup in Hs as [i Hi].
    destruct (Forall2_lookup_r _ _ _ _ _ Hnew Hi) as (c & Hc & ch & Hch & -> & Hok).
    split; [|done]. apply list_elem_of_lookup_2, removeFirst_elem in Hc.
    destruct (st_children _ _ _ Hn Hc) as (_ & ch' & Hch' & ?). congruence. }
  assert (∀ d, d ∈ flat_map allSymbols new → contains (range nd) (sym_range d) = true)
    as Hdesc.
  { intros d (s & Hs & Hd)%elem_of_flat_map.
    destruct (Hsub s Hs) as [Hin Hok].
    rewrite allSymbols_unfold in Hd. apply elem_of_cons in Hd as [->|Hd]; [done|].
    eapply contains_trans; [done|].
    apply (Hok s); [|done]. rewrite allSymbols_unfold. by left. }
  intros x Hx. rewrite allSymbols_unfold in Hx.
  apply elem_of_cons in Hx as [->|Hx].
  - split; [by eapply nameSource_inside|done].
  - apply elem_of_flat_map in Hx as (s & Hs & Hx). by apply (Hsub s).
Qed.

End OutlineSymbols.

Section OutlineTheorem.
Import Vscode TreeSitter Common Symbols OutlineSpec.

(** C5. For a well-nested sequence of captures (in document pre-order,
    with ranges that are pairwise disjoint or strictly nested),
    [provideDocumentSymbols] returns symbols of which each has a range
    that contains its selection range and the range of every symbol below
    it, and no symbol at the top contains another one at the top. *)
Theorem outline_ranges_nested cs :
  wellNested (captureRanges cs) = true →
  ∃ result, provideDocumentSymbols (Some cs) = Some result
    ∧ (∀ s, s ∈ flat_map allSymbols result →
         contains (sym_range s) (sym_selectionRange s) = true
         ∧ ∀ d, d ∈ descendants s → contains (sym_range s) (sym_range d) = true)
    ∧ (∀ i j si sj, i ≠ j → result !! i = Some si → result !! j = Some sj →
         contains (sym_range si) (sym_range sj) = false).
Proof.
  intros Hw. unfold provideDocumentSymbols. simpl.
  pose proof (makeTree_ok cs) as Hf. pose proof (makeTree_rootsOk cs Hw) as Hr.
  pose proof (ranges_makeTree cs) as Hranges.
  set (f := makeTree cs) in *. destruct Hf as [Hch Hstk Hrts Hval].
  destruct (buildRoots_total (store f) (length (store f)) (roots f) []) as [result Hres].
  { intros c b Hc. apply build_total; [done|by apply Hrts|lia]. }
  exists result. split; [done|].
  destruct (buildRoots_madeOf (store f) _ (build_madeOf (store f) Hch Hval _) _ _ _ Hres)
    as (new & -> & Hnew). simpl.
  split.
  - intros s (t & Ht & Hs)%elem_of_flat_map.
    apply list_elem_of_lookup in Ht as [i Hi].
    destruct (Forall2_lookup_r _ _ _ _ _ Hnew Hi) as (c & Hc & ch & Hch' & _ & Hok).
    by apply Hok.
  - intros i j si sj Hij Hi Hj.
    destruct (Forall2_lookup_r _ _ _ _ _ Hnew Hi) as (ri & Hri & ndi & Hndi & -> & _).
    destruct (Forall2_lookup_r _ _ _ _ _ Hnew Hj) as (rj & Hrj & ndj & Hndj & -> & _).
    assert (ri ≠ rj) as Hne.
    { intros ->. apply Hij. by eapply NoDup_lookup, Hrj; [apply (ok_nodup f)|]. }
    assert (ranges f !! ri = Some (range ndi)) as Hai by (apply ranges_lookup; eauto).
    assert (ranges f !! rj = Some (range ndj)) as Haj by (apply ranges_lookup; eauto).
    apply list_elem_of_lookup_2 in Hri, Hrj.
    destruct (decide (ri < rj)) as [Hlt|Hge].
    + by eapply (ok_uncovered f Hr rj ri).
    + assert (rj < ri) as Hlt by lia.
      pose proof (ok_uncovered f Hr ri rj _ _ Hri Hlt Haj Hai) as Hno.
      destruct (contains (range ndi) (range ndj)) eqn:Hc; [|done].
      rewrite (contains_same_start (range ndj) (range ndi)) in Hno; [done|eauto| |done].
      rewrite Hranges in Hai, Haj. by eapply wellNested_lookup.
Qed.

Lemma outline_ranges_nested_witness :
  ∃ result, provideDocumentSymbols (Some outlineExample) = Some result
    ∧ (∀ s, s ∈ flat_map allSymbols result →
         contains (sym_range s) (sym_selectionRange s) = true
         ∧ ∀ d, d ∈ descendants s → contains (sym_range s) (sym_range d) = true)
    ∧ (∀ i j si sj, i ≠ j → result !! i = Some si → result !! j = Some sj →
         contains (sym_range si) (sym_range sj) = false).
Proof. apply (outline_ranges_nested outlineExample). reflexivity. Defined.

End OutlineTheorem.

(** ** Maps in insertion order *)

Section JsMapFacts.
Context {K V : Type} `{EqDecision K}.
Implicit Types (m : list (K * V)) (k : K) (v : V).

Lemma get_set m k v k' :
  JsMap.get (JsMap.set m k v) k' = if decide (k = k') then Some v else JsMap.get m k'.
Proof.
  induction m as [|[k0 v0] m IH]; simpl.
  - by destruct (decide (k = k')).
  - destruct (decide (k0 = k)) as [->|Hne]; simpl.
    + by destruct (decide (k = k')).
    + destruct (decide (k0 = k')) as [->|?]; [|done].
      by destruct (decide (k = k')).
Qed.

Lemma get_is_Some m k : is_Some (JsMap.get m k) ↔ k ∈ JsMap.keys m.
Proof.
  unfold JsMap.keys. induction m as [|[k0 v0] m IH]; csimpl.
  - split; [by intros [? ?]|by intros ?%elem_of_nil].
  - rewrite elem_of_cons. destruct (decide (k0 = k)) as [->|?].
    + split; [by left|eauto].
    + rewrite IH. split; [by right|]. by intros [?|?].
Qed.

Lemma get_None m k : JsMap.get m k = None ↔ k ∉ JsMap.keys m.
Proof. rewrite <- get_is_Some, eq_None_not_Some. done. Qed.

Lemma keys_set_in m k v :
  k ∈ JsMap.keys m → JsMap.keys (JsMap.set m k v) = JsMap.keys m.
Proof.
  unfold JsMap.keys. induction m as [|[k0 v0] m IH]; csimpl.
  - by intros ?%elem_of_nil.
  - destruct (decide (k0 = k)) as [->|Hne]; csimpl; [done|].
    intros [?|Hin]%elem_of_cons; [congruence|]. by rewrite IH.
Qed.

Lemma keys_set_notin m k v :
  k ∉ JsMap.keys m → JsMap.keys (JsMap.set m k v) = JsMap.keys m ++ [k].
Proof.
  unfold JsMap.keys. induction m as [|[k0 v0] m IH]; csimpl; [done|].
  intros Hnot. destruct (decide (k0 = k)) as [->|Hne]; csimpl.
  - destruct Hnot. by left.
  - rewrite IH; [done|]. intros Hin. apply Hnot. by right.
Qed.

Lemma values_by_key d m :
  NoDup (JsMap.keys m) →
  JsMap.values m = (λ k, default d (JsMap.get m k)) <$> JsMap.keys m.
Proof.
  unfold JsMap.keys, JsMap.values. induction m as [|[k0 v0] m IH]; csimpl; [done|].
  intros [Hk0 Hm]%NoDup_cons. destruct (decide (k0 = k0)); [|done]. simpl. f_equal.
  rewrite IH by done. apply Forall_fmap_ext, Forall_forall. intros k Hk.
  destruct (decide (k0 = k)) as [->|?]; [|done]. by destruct Hk0.
Qed.

End JsMapFacts.

(** ** The buckets of [provideReferences] *)

Section ReferencesFacts.
Import References ReferencesSpec.
Context `{Env}.
Implicit Types (m : list (Z * list Location)) (k : Z).

Lemma get_addLocation m k0 loc k :
  JsMap.get (addLocation m k0 loc) k
  = if decide (k0 = k) then Some (default [] (JsMap.get m k0) ++ [loc]) else JsMap.get m k.
Proof.
  unfold addLocation. destruct (JsMap.get m k0) eqn:E; rewrite get_set; by simpl.
Qed.

Lemma keys_addLocation_in m k0 loc :
  k0 ∈ JsMap.keys m → JsMap.keys (addLocation m k0 loc) = JsMap.keys m.
Proof.
  intros Hin. unfold addLocation. destruct (JsMap.get m k0); by apply keys_set_in.
Qed.

Lemma keys_addLocation_notin m k0 loc :
  k0 ∉ JsMap.keys m → JsMap.keys (addLocation m k0 loc) = JsMap.keys m ++ [k0].
Proof.
  intros Hin. unfold addLocation. destruct (JsMap.get m k0); by apply keys_set_notin.
Qed.

Lemma bucketOf_cons k k0 loc es :
  bucketOf k ((k0, loc) :: es)
  = if decide (k0 = k) then loc :: bucketOf k es else bucketOf k es.
Proof.
  unfold bucketOf. rewrite filter_cons. simpl.
  by destruct (decide (k0 = k)).
Qed.

Lemma fileAll_get es : ∀ m k,
  default [] (JsMap.get (fileAll es m) k) = default [] (JsMap.get m k) ++ bucketOf k es.
Proof.
  induction es as [|[k0 loc] es IH]; intros m k; simpl.
  - by rewrite app_nil_r.
  - unfold fileAll in *. simpl. rewrite IH, get_addLocation, bucketOf_cons.
    destruct (decide (k0 = k)) as [->|?]; simpl; [|done]. by rewrite <- app_assoc.
Qed.

Lemma fileAll_keys es : ∀ m,
  NoDup (JsMap.keys m) →
  NoDup (JsMap.keys (fileAll es m))
  ∧ JsMap.keys (fileAll es m)
    = JsMap.keys m ++ filter (λ k, k ∉ JsMap.keys m) (discoveryOrder es.*1).
Proof.
  induction es as [|[k0 loc] es IH]; intros m Hm; csimpl.
  - by rewrite app_nil_r.
  - unfold fileAll in *. simpl. destruct (decide (k0 ∈ JsMap.keys m)) as [Hin|Hin].
    + destruct (IH (addLocation m k0 loc)) as [Hnd Hk].
      { by rewrite keys_addLocation_in. }
      split; [done|]. rewrite Hk, keys_addLocation_in by done. f_equal.
      rewrite filter_cons_False by (intros Hn; by apply Hn).
      rewrite list_filter_filter. apply list_filter_iff. intros k. split; [|tauto].
      intros Hk'. split; [done|]. by intros ->.
    + destruct (IH (addLocation m k0 loc)) as [Hnd Hk].
      { rewrite keys_addLocation_notin by done. apply NoDup_app. split_and!; [done| |].
        - intros x Hx ->%list_elem_of_singleton. done.
        - apply NoDup_singleton. }
      split; [done|]. rewrite Hk, keys_addLocation_notin by done.
      rewrite <- app_assoc. f_equal.
      rewrite filter_cons_True by done. simpl. f_equal.
      rewrite list_filter_filter. apply list_filter_iff. intros k.
      rewrite elem_of_app, list_elem_of_singleton. tauto.
Qed.

Lemma fold_visitUsage uri position us : ∀ m tk,
  (fold_left (visitUsage uri position) us (m, tk)).1
  = fileAll ((λ u, (usageKey u, usage_location u)) <$> us) m.
Proof.
  induction us as [|u us IH]; intros m tk; [done|].
  simpl. destruct tk; by rewrite IH.
Qed.

Lemma fold_visitSymbol uri position incl ss : ∀ m tk,
  (fold_left (visitSymbol uri position incl) ss (m, tk)).1
  = fileAll (if incl then (λ s, (symbol_kind s, symbol_location s)) <$> ss else []) m.
Proof.
  induction ss as [|s ss IH]; intros m tk; [by destruct incl|].
  simpl. destruct tk; rewrite IH; by destruct incl.
Qed.

(** The map of the two loops holds the candidates, filed in order. *)
Lemma collectByKind_fileAll uri position incl usages symbols :
  (collectByKind uri position incl usages symbols).1
  = fileAll (candidates incl (default [] usages) (default [] symbols)) [].
Proof.
  unfold collectByKind, candidates, fileAll. rewrite fold_left_app.
  fold (fileAll ((λ u, (usageKey u, usage_location u)) <$> default [] usages) []).
  destruct usages as [us|], symbols as [ss|]; simpl.
  - destruct (fold_left (visitUsage _ _) us _) as [m tk] eqn:E.
    rewrite fold_visitSymbol. f_equal.
    by rewrite <- (fold_visitUsage uri position us [] None), E.
  - rewrite fold_visitUsage. by destruct incl.
  - rewrite fold_visitSymbol. done.
  - by destruct incl.
Qed.

End ReferencesFacts.

Section ReferencesTheorems.
Import References ReferencesSpec CursorSpec.
Context `{Env}.

Lemma filter_all {A} (P : A → Prop) `{∀ x, Decision (P x)} (l : list A) :
  (∀ x, P x) → filter P l = l.
Proof.
  intros HP. induction l as [|x l IH]; [done|].
  by rewrite filter_cons_True, IH.
Qed.

Lemma concat_fmap {A B} (f : A → list B) (l : list A) :
  concat (f <$> l) = flat_map f l.
Proof. induction l as [|x l IH]; csimpl; [done|]. by rewrite IH. Qed.

Lemma elem_of_bucketOf k loc (es : list (Z * Location)) :
  loc ∈ bucketOf k es ↔ (k, loc) ∈ es.
Proof.
  unfold bucketOf. rewrite list_elem_of_fmap. split.
  - intros ([k' loc'] & -> & [Hk Hin]%list_elem_of_filter). simpl in *. by subst.
  - intros Hin. exists (k, loc). split; [done|]. by apply list_elem_of_filter.
Qed.

(** The map of the two loops, bucket by bucket, and its keys in order. *)
Lemma collectByKind_buckets uri position incl usages symbols :
  let m := (collectByKind uri position incl usages symbols).1 in
  let entries := candidates incl (default [] usages) (default [] symbols) in
  (∀ k, default [] (JsMap.get m k) = bucketOf k entries)
  ∧ concat (JsMap.values m)
    = flat_map (λ k, bucketOf k entries) (discoveryOrder entries.*1).
Proof.
  intros m entries. subst m. rewrite collectByKind_fileAll. fold entries.
  assert (∀ k, default [] (JsMap.get (fileAll entries []) k) = bucketOf k entries) as Hget.
  { intros k. by rewrite fileAll_get. }
  split; [done|].
  destruct (fileAll_keys entries []) as [Hnd Hkeys]; [constructor|].
  rewrite (values_by_key [] _ Hnd), Hkeys. simpl.
  rewrite filter_all by (intros k ?%elem_of_nil; done).
  rewrite concat_fmap. apply flat_map_ext. intros k. apply Hget.
Qed.

#[local] Arguments collectByKind : simpl never.

Lemma fold_visitUsage_kind uri position us : ∀ m tk,
  (fold_left (visitUsage uri position) us (m, tk)).2
  = match tk with
    | Some k => Some k
    | None => head (omap (λ u, if containsLocation (usage_location u) uri position
                               then usage_kind u else None) us)
    end.
Proof.
  induction us as [|u us IH]; intros m tk; simpl.
  - by destruct tk.
  - rewrite IH. destruct tk as [k|]; [done|].
    destruct (containsLocation _ _ _); [|done]. by destruct (usage_kind u).
Qed.

Lemma fold_visitSymbol_kind uri position incl ss : ∀ m tk,
  (fold_left (visitSymbol uri position incl) ss (m, tk)).2
  = match tk with
    | Some k => Some k
    | None => head (omap (λ s, if containsLocation (symbol_location s) uri position
                               then Some (symbol_kind s) else None) ss)
    end.
Proof.
  induction ss as [|s ss IH]; intros m tk; simpl.
  - by destruct tk.
  - rewrite IH. destruct tk as [k|]; [done|].
    by destruct (containsLocation _ _ _).
Qed.

Lemma collectByKind_kindsAt uri position incl usages symbols :
  (collectByKind uri position incl usages symbols).2
  = head (kindsAt uri position (default [] usages) (default [] symbols)).
Proof.
  unfold collectByKind, kindsAt.
  set (ku := omap _ (default [] usages)). set (ks := omap _ (default [] symbols)).
  assert ((match usages with
           | Some us => fold_left (visitUsage uri position) us ([], None)
           | None => ([], None)
           end).2 = head ku) as Hu.
  { subst ku. destruct usages as [us|]; simpl; [|done]. by rewrite fold_visitUsage_kind. }
  destruct (match usages with
            | Some us => fold_left (visitUsage uri position) us ([], None)
            | None => ([], None)
            end) as [m tk]. simpl in Hu. subst tk.
  assert (head (ku ++ ks) = match head ku with Some k => Some k | None => head ks end) as ->.
  { by destruct ku. }
  subst ks. destruct symbols as [ss|]; simpl.
  - by rewrite fold_visitSymbol_kind.
  - by destruct (head ku).
Qed.

Lemma provideReferences_buckets uri position incl text index_usages index_symbols :
  let usages := JsMap.get index_usages text in
  let symbols := JsMap.get index_symbols text in
  let entries := candidates incl (default [] usages) (default [] symbols) in
  provideReferences uri position incl (Some text) index_usages index_symbols
  = match (collectByKind uri position incl usages symbols).2 with
    | None => flat_map (λ k, bucketOf k entries) (discoveryOrder entries.*1)
    | Some thisKind => bucketOf thisKind entries ++ bucketOf (-1)%Z entries
    end.
Proof.
  intros usages symbols entries.
  destruct (collectByKind_buckets uri position incl usages symbols) as [Hget Hall].
  fold entries in Hget, Hall.
  unfold provideReferences. fold usages symbols. clearbody usages symbols.
  assert (∀ m tk, collectByKind uri position incl usages symbols = (m, tk) →
            match tk with
            | Some thisKind =>
                concat [default [] (JsMap.get m thisKind);
                        default [] (JsMap.get m (-1)%Z)]
            | None => concat (JsMap.values m)
            end
            = match tk with
              | Some thisKind => bucketOf thisKind entries ++ bucketOf (-1)%Z entries
              | None => flat_map (λ k, bucketOf k entries) (discoveryOrder entries.*1)
              end) as Hcase.
  { intros m tk E. rewrite E in Hget, Hall. simpl in Hget, Hall.
    destruct tk; [|done]. simpl. by rewrite app_nil_r, !Hget. }
  destruct usages as [us|], symbols as [ss|]; simpl;
    try (destruct (collectByKind _ _ _ _ _) as [m tk] eqn:E; simpl;
         rewrite <- (Hcase m tk eq_refl); by destruct tk).
  subst entries. unfold candidates, collectByKind. simpl. by destruct incl.
Qed.

(** C3. [thisKind] is the kind of the first entry at the position that
    has one, usages first. With [thisKind] undefined, [provideReferences]
    returns all buckets one after the other, in the order in which their
    kinds were first met; with [thisKind] defined it returns the bucket of
    that kind followed by the bucket of unknown kind. So every usage of
    unknown kind is in the result, and a location of the result always
    belongs to a usage of that kind or of unknown kind, or to a definition
    of that kind when declarations are asked for: an entry of another
    kind under the same text is left out. *)
Theorem references_tie_break uri position incl text index_usages index_symbols :
  let usages := default [] (JsMap.get index_usages text) in
  let symbols := default [] (JsMap.get index_symbols text) in
  let entries := filed incl usages symbols in
  let result := provideReferences uri position incl (Some text) index_usages index_symbols in
  match head (kindsAt uri position usages symbols) with
  | None => result = flat_map (λ k, bucketOf k entries) (discoveryOrder entries.*1)
  | Some thisKind =>
      result = bucketOf thisKind entries ++ bucketOf (-1)%Z entries
      ∧ (∀ u, u ∈ usages → usage_kind u = None → usage_location u ∈ result)
      ∧ (∀ loc, loc ∈ result →
           (∃ u, u ∈ usages ∧ usage_location u = loc
              ∧ (usage_kind u = Some thisKind ∨ usage_kind u = None
                 ∨ usage_kind u = Some (-1)%Z))
           ∨ (incl = true
              ∧ ∃ s, s ∈ symbols ∧ symbol_location s = loc
                  ∧ (symbol_kind s = thisKind ∨ symbol_kind s = (-1)%Z)))
  end.
Proof.
  intros usages symbols entries result.
  assert (result = match head (kindsAt uri position usages symbols) with
                   | None => flat_map (λ k, bucketOf k entries) (discoveryOrder entries.*1)
                   | Some thisKind => bucketOf thisKind entries ++ bucketOf (-1)%Z entries
                   end) as Hres.
  { subst result. rewrite provideReferences_buckets, collectByKind_kindsAt. done. }
  destruct (head (kindsAt uri position usages symbols)) as [thisKind|]; [|done].
  split; [done|]. rewrite Hres. split.
  - intros u Hu Hk. apply elem_of_app. right. apply elem_of_bucketOf.
    unfold entries, filed. apply elem_of_app. left.
    apply list_elem_of_fmap. exists u. split; [|done]. by rewrite Hk.
  - assert (∀ k loc, loc ∈ bucketOf k entries →
              (∃ u, u ∈ usages ∧ usage_location u = loc
                 ∧ (usage_kind u = Some k ∨ (usage_kind u = None ∧ k = (-1)%Z)))
              ∨ (incl = true ∧ ∃ s, s ∈ symbols ∧ symbol_location s = loc
                                   ∧ symbol_kind s = k)) as Hbucket.
    { intros k loc Hin. apply elem_of_bucketOf in Hin. unfold entries, filed in Hin.
      apply elem_of_app in Hin as [Hin|Hin].
      - left. apply list_elem_of_fmap in Hin as (u & [= -> ->] & Hu).
        exists u. split_and!; [done..|]. destruct (usage_kind u); auto.
      - right. destruct incl; [|by apply elem_of_nil in Hin]. split; [done|].
        apply list_elem_of_fmap in Hin as (s0 & [= -> ->] & Hs). by exists s0. }
    intros loc [Hin|Hin]%elem_of_app; apply Hbucket in Hin
      as [(u & Hu & Hloc & Hk)|(Hincl & s0 & Hs & Hloc & Hk)].
    + left. exists u. split_and!; [done..|]. destruct Hk as [?|[? _]]; auto.
    + right. split; [done|]. exists s0. auto.
    + left. exists u. split_and!; [done..|]. destruct Hk as [?|[? _]]; auto.
    + right. split; [done|]. exists s0. auto.
Qed.

(** C4. Every usage is filed under its kind whatever the
    [includeDeclaration] flag says; a definition is filed only when the
    flag is set: without it the map is the one made of the usages alone. *)
Theorem usages_always_definitions_on_flag uri position incl us ss :
  let m := (collectByKind uri position incl (Some us) (Some ss)).1 in
  (∀ u, u ∈ us → usage_location u ∈ default [] (JsMap.get m (usageKey u)))
  ∧ (∀ s, s ∈ ss → incl = true →
       symbol_location s ∈ default [] (JsMap.get m (symbol_kind s)))
  ∧ (incl = false → m = (collectByKind uri position incl (Some us) None).1)
  ∧ (∀ k, default [] (JsMap.get m k)
          = bucketOf k (((λ u, (usageKey u, usage_location u)) <$> us)
                        ++ if incl then (λ s, (symbol_kind s, symbol_location s)) <$> ss
                           else [])).
Proof.
  intros m.
  destruct (collectByKind_buckets uri position incl (Some us) (Some ss)) as [Hget _].
  fold m in Hget. simpl in Hget. unfold candidates in Hget.
  split_and!.
  - intros u Hu. rewrite Hget. apply elem_of_bucketOf, elem_of_app. left.
    apply list_elem_of_fmap. by exists u.
  - intros s Hs ->. rewrite Hget. apply elem_of_bucketOf, elem_of_app. right.
    apply list_elem_of_fmap. by exists s.
  - intros ->. subst m. rewrite !collectByKind_fileAll. done.
  - done.
Qed.

End ReferencesTheorems.

(** ** Completion *)

Section CompletionTheorems.
Import Js Completion.

Lemma fold_addIdentifier (ids : list string) : ∀ m text,
  JsMap.get (fold_left addIdentifier ids m) text
  = if decide (text ∈ ids) then Some (mkCompletionItem text None) else JsMap.get m text.
Proof.
  induction ids as [|i ids IH]; intros m text; simpl.
  - done.
  - rewrite IH. unfold addIdentifier. rewrite get_set.
    repeat case_decide; subst; try done; set_solver.
Qed.

Lemma addDefinitions_spec defs : ∀ r0,
  NoDup defs.*1 → Forall (λ d, d.2 ≠ []) defs →
  ∃ r, addDefinitions defs r0 = Ok r
    ∧ (∀ key map, (key, map) ∈ defs → JsMap.get r key = Some (definitionItem key map))
    ∧ (∀ key, key ∉ defs.*1 → JsMap.get r key = JsMap.get r0 key).
Proof.
  induction defs as [|[k map] defs IH]; intros r0 Hnd Hne; csimpl.
  - exists r0. split_and!; [done| |done]. by intros ?? ?%elem_of_nil.
  - apply NoDup_cons in Hnd as [Hk Hnd]. apply Forall_cons in Hne as [Hmap Hne].
    destruct map as [|[u kinds] map]; [done|].
    destruct (IH (JsMap.set r0 k (mkCompletionItem k (head kinds ≫= JsMap.get _kindMapping)))
                Hnd Hne) as (r & Hr & Hdef & Hother).
    exists r. split_and!; [exact Hr| |].
    + intros key map' [Heq|Hin]%elem_of_cons.
      * injection Heq as -> ->. rewrite Hother by done. rewrite get_set.
        by destruct (decide (k = k)).
      * by apply Hdef.
    + intros key Hkey. rewrite Hother.
      * rewrite get_set. destruct (decide (k = key)) as [->|?]; [|done].
        destruct Hkey. by left.
      * intros ?. apply Hkey. by right.
Qed.

(** C6. Completion fills one map keyed by name from two sources: every
    identifier of the document gives a candidate without kind, and every
    name of the index's definitions gives a candidate whose kind is that
    of the first definition entry of the name, which replaces the
    candidate an identifier of the same name had given. *)
Theorem completion_two_sources ids defs :
  NoDup defs.*1 → Forall (λ d, d.2 ≠ []) defs →
  ∃ result, completionMap ids defs = Ok result
    ∧ provideCompletionItems (Some ids) defs = Ok (JsMap.values result)
    ∧ (∀ key map, (key, map) ∈ defs →
         ∃ uri kinds rest, map = (uri, kinds) :: rest
           ∧ JsMap.get result key
             = Some (mkCompletionItem key (head kinds ≫= JsMap.get _kindMapping)))
    ∧ (∀ text, text ∈ ids → text ∉ defs.*1 →
         JsMap.get result text = Some (mkCompletionItem text None))
    ∧ (∀ key, key ∈ JsMap.keys result ↔ key ∈ ids ∨ key ∈ defs.*1).
Proof.
  intros Hnd Hne. unfold provideCompletionItems, completionMap.
  destruct (addDefinitions_spec defs (fold_left addIdentifier ids []) Hnd Hne)
    as (r & Hr & Hdef & Hother).
  exists r. rewrite Hr. split_and!; [done..| | |].
  - intros key map Hin. rewrite (Hdef key map Hin).
    rewrite Forall_forall in Hne. specialize (Hne _ Hin). simpl in Hne.
    destruct map as [|[uri kinds] rest]; [done|]. by exists uri, kinds, rest.
  - intros text Hin Hnot. rewrite Hother, fold_addIdentifier by done.
    by case_decide.
  - intros key. rewrite <- get_is_Some.
    destruct (decide (key ∈ defs.*1)) as [Hin|Hnot].
    + split; [by right|intros _].
      apply list_elem_of_fmap in Hin as ([k map] & -> & Hin). simpl.
      rewrite (Hdef k map Hin). eauto.
    + rewrite Hother, fold_addIdentifier by done.
      destruct (decide (key ∈ ids)); simpl.
      * split; [by left|eauto].
      * split; [by intros [? ?]|by intros [?|?]].
Qed.

Lemma completion_two_sources_witness :
  ∃ result, completionMap ["foo"; "bar"] exampleDefinitions = Ok result
    ∧ JsMap.get result "foo" = Some (mkCompletionItem "foo" (Some CFunction))
    ∧ JsMap.get result "bar" = Some (mkCompletionItem "bar" None).
Proof.
  destruct (completion_two_sources ["foo"; "bar"] exampleDefinitions)
    as (result & Hr & _ & Hdef & Hid & _).
  - repeat constructor; set_solver.
  - repeat constructor; done.
  - exists result. split; [done|]. split.
    + destruct (Hdef "foo" _ ltac:(by left)) as (uri & kinds & rest & Heq & Hget).
      by injection Heq as <- <- <-.
    + apply Hid; [by right; left|]. set_solver.
Defined.

End CompletionTheorems.

(** ** Workspace symbols: the container of a name *)

Section CollectMatches.
Import Vscode TreeSitter Common Js WorkspaceSymbols WorkspaceSpec.
Context `{Host}.

Lemma keeps_code search capture :
  keeps search capture
  = endsWith (name capture) ".name"
    && (bool_decide (String.length search = 0)
        || matchesFuzzy search (text (node capture))).
Proof.
  unfold keeps, isNameLabel. rewrite endsWith_suffix_of. do 2 f_equal.
  apply bool_decide_ext. by destruct search.
Qed.

Lemma visitCapture_dropped search document capture index array bucket :
  keeps search capture = false →
  visitCapture search document capture index array bucket = Ok bucket.
Proof.
  rewrite keeps_code. unfold visitCapture. intros Hk.
  destruct (endsWith _ _); simpl in *; [|done]. by rewrite Hk.
Qed.

Lemma visitCapture_kept search document capture i array previous bucket :
  keeps search capture = true → array !! i = Some previous →
  visitCapture search document capture (S i) array bucket
  = Ok (bucket ++ [symbolFor document previous capture]).
Proof.
  rewrite keeps_code. unfold visitCapture, symbolFor, hasPrefix. intros Hk Hi.
  rewrite <- startsWith_prefix_of.
  destruct (endsWith _ _); simpl in *; [|done]. rewrite Hk, Hi.
  by destruct (startsWith _ _).
Qed.

(** A kept capture at index 0 has no capture before it: the callback
    throws. *)
Lemma visitCapture_first search document capture array bucket :
  keeps search capture = true →
  visitCapture search document capture 0 array bucket = Throw.
Proof.
  rewrite keeps_code. unfold visitCapture. intros Hk.
  destruct (endsWith _ _); simpl in *; [|done]. by rewrite Hk.
Qed.

Lemma forEachCapture_after search document rest : ∀ pre previous bucket,
  forEachCapture search document (pre ++ previous :: rest) (S (length pre)) rest bucket
  = Ok (bucket ++ symbolsAfter search document previous rest).
Proof.
  induction rest as [|capture rest IH]; intros pre previous bucket; simpl.
  - by rewrite app_nil_r.
  - destruct (keeps search capture) eqn:Hk.
    + rewrite (visitCapture_kept _ _ _ _ _ previous) by
        (done || by rewrite list_lookup_middle).
      specialize (IH (pre ++ [previous]) capture). rewrite length_app in IH. simpl in IH.
      rewrite Nat.add_1_r, <- app_assoc in IH. simpl in IH.
      by rewrite IH, <- app_assoc.
    + rewrite visitCapture_dropped by done. simpl.
      specialize (IH (pre ++ [previous]) capture). rewrite length_app in IH. simpl in IH.
      rewrite Nat.add_1_r, <- app_assoc in IH. simpl in IH.
      by rewrite IH.
Qed.

Lemma keeps_true search capture :
  keeps search capture = true
  ↔ (∃ stem, name capture = stem +:+ ".name")
    ∧ (search = "" ∨ matchesFuzzy search (text (node capture)) = true).
Proof.
  unfold keeps, isNameLabel.
  rewrite andb_true_iff, orb_true_iff, !bool_decide_eq_true, suffix_of_string. done.
Qed.

(** C8. The callback of [_collectMatches] pushes a symbol exactly for
    the captures the search keeps: those with a label that ends in
    [.name] and a text that matches, every text matching the empty
    search. For a kept capture it looks at the capture right before it in
    the sequence. If and only if the label of the kept capture starts with
    the label of that capture, the symbol gets that label as container
    name and the kind of that label; otherwise it has no container name
    and stays a [Struct]. A kept capture at the head of the sequence has
    no capture before it, and the callback throws. *)
Theorem container_from_preceding_capture search document :
  (∀ array bucket,
     forEachCapture search document array 0 array bucket
     = match array with
       | [] => Ok bucket
       | first :: rest =>
           if keeps search first then Throw
           else Ok (bucket ++ symbolsAfter search document first rest)
       end)
  ∧ (∀ capture i array previous bucket,
       array !! i = Some previous →
       (∃ stem, name capture = stem +:+ ".name") →
       search = "" ∨ matchesFuzzy search (text (node capture)) = true →
       ∃ symbol,
         visitCapture search document capture (S i) array bucket = Ok (bucket ++ [symbol])
         ∧ si_name symbol = text (node capture)
         ∧ si_location symbol
           = (uri document,
              newRange (row (startPosition (node capture)))
                       (column (startPosition (node capture)))
                       (row (endPosition (node capture)))
                       (column (endPosition (node capture))))
         ∧ ((∃ rest, name capture = name previous +:+ rest) →
              si_containerName symbol = name previous
              ∧ si_kind symbol = Symbols.getSymbolKind (name previous))
         ∧ (¬ (∃ rest, name capture = name previous +:+ rest) →
              si_containerName symbol = "" ∧ si_kind symbol = Struct))
  ∧ (∀ capture index array bucket,
       ¬ (∃ stem, name capture = stem +:+ ".name")
       ∨ (search ≠ "" ∧ matchesFuzzy search (text (node capture)) = false) →
       visitCapture search document capture index array bucket = Ok bucket)
  ∧ forEachCapture "" document containerExample 0 containerExample []
    = Ok [ mkSymbolInformation "Foo" Class "class"
             (uri document, mkRange (mkPosition 0 6) (mkPosition 0 9));
           mkSymbolInformation "bar" Struct ""
             (uri document, mkRange (mkPosition 2 0) (mkPosition 2 3)) ].
Proof.
  split_and!.
  - intros [|first rest] bucket; [done|].
    destruct (keeps search first) eqn:Hfirst.
    + simpl. by rewrite visitCapture_first.
    + simpl. rewrite visitCapture_dropped by done.
      apply (forEachCapture_after search document rest [] first).
  - intros capture i array previous bucket Hi Hname Hsearch.
    exists (symbolFor document previous capture).
    rewrite (visitCapture_kept _ _ _ _ _ previous) by (by apply keeps_true || done).
    unfold symbolFor, hasPrefix. split; [done|].
    case_bool_decide as Hprefix; rewrite prefix_of_string in Hprefix; simpl;
      split_and!; done.
  - intros capture index array bucket Hnot. apply visitCapture_dropped.
    destruct (keeps search capture) eqn:Hk; [|done].
    apply keeps_true in Hk as [Hname Hsearch].
    destruct Hnot as [Hnot|[Hne Hno]]; [done|].
    destruct Hsearch as [?|Hyes]; [done|congruence].
  - reflexivity.
Qed.

End CollectMatches.

Lemma container_from_preceding_capture_witness :
  @WorkspaceSymbols.forEachCapture WorkspaceSpec.exampleHost "" WorkspaceSpec.exampleDocument
    WorkspaceSpec.exampleCaptures 0 WorkspaceSpec.exampleCaptures []
  = Js.Ok [WorkspaceSymbols.mkSymbolInformation "Foo" Vscode.Class "class"
             (WorkspaceSpec.smallFile, Vscode.newRange 0 6 0 9)].
Proof.
  exact (proj1 (@container_from_preceding_capture WorkspaceSpec.exampleHost ""
                  WorkspaceSpec.exampleDocument) WorkspaceSpec.exampleCaptures []).
Defined.

(** ** The index of workspace files *)

Section WorkspaceIndex.
Import Vscode TreeSitter Common Js WorkspaceSymbols WorkspaceSpec.
Context `{Host}.

Lemma elem_of_excludeSet textDocuments key :
  key ∈ excludeSet textDocuments ↔ key ∈ openKeys textDocuments.
Proof.
  unfold excludeSet, openKeys.
  assert (∀ acc : gset string,
            key ∈ fold_left (λ exclude doc, exclude ∪ {[ uri_toString (uri doc) ]})
                    textDocuments acc
            ↔ key ∈ acc ∨ key ∈ (λ doc, uri_toString (uri doc)) <$> textDocuments) as Hgen.
  { induction textDocuments as [|doc docs IH]; intros acc; csimpl.
    - rewrite elem_of_nil. tauto.
    - rewrite IH, elem_of_union, elem_of_singleton, elem_of_cons. tauto. }
  rewrite Hgen. set_solver.
Qed.

Lemma yieldAll_filter exclude all :
  yieldAll exclude all = (filter (λ kv, kv.1 ∉ exclude) all).*2.
Proof.
  induction all as [|[key e] all IH]; [done|].
  simpl. rewrite filter_cons. simpl.
  destruct (decide (key ∉ exclude)) as [Hn|Hn].
  - rewrite bool_decide_eq_false_2 by done. csimpl. by rewrite IH.
  - rewrite bool_decide_eq_true_2 by (by apply dec_stable). simpl. by rewrite IH.
Qed.

Lemma set_elem {V} (m : list (string * V)) k v key x :
  (key, x) ∈ JsMap.set m k v → (key, x) = (k, v) ∨ (key, x) ∈ m.
Proof.
  induction m as [|[k0 v0] m IH]; simpl.
  - intros ->%list_elem_of_singleton. by left.
  - destruct (decide (k0 = k)) as [->|?].
    + intros [?|?]%elem_of_cons; [by left|right; by right].
    + intros [->|Hin]%elem_of_cons; [right; by left|].
      destruct (IH Hin); [by left|right; by right].
Qed.

Lemma delete_elem {V} (m : list (string * V)) k key x :
  (key, x) ∈ JsMap.delete m k → (key, x) ∈ m.
Proof.
  induction m as [|[k0 v0] m IH]; simpl; [done|].
  destruct (decide (k0 = k)); [by right|].
  intros [->|?]%elem_of_cons; [by left|right; auto].
Qed.

Lemma get_elem {V} (m : list (string * V)) k v :
  JsMap.get m k = Some v → (k, v) ∈ m.
Proof.
  induction m as [|[k0 v0] m IH]; simpl; [done|].
  destruct (decide (k0 = k)) as [->|?]; [intros [= ->]; by left|right; auto].
Qed.

(** The index is keyed by uri from its creation on, whatever the watcher
    reports. *)
Lemma createIndex_keyed uris : keyedByUri (createIndex uris).
Proof.
  unfold createIndex.
  assert (∀ all, keyedByUri all →
            keyedByUri (fold_left (λ all uri, JsMap.set all (uri_toString uri)
                                                (mkEntry uri None)) uris all)) as Hgen.
  { induction uris as [|u uris IH]; intros all Hall; simpl; [done|].
    apply IH. intros key e [[= -> ->]|?]%set_elem; [done|by apply Hall]. }
  apply Hgen. by intros ?? ?%elem_of_nil.
Qed.

Lemma watcher_keyed all u :
  keyedByUri all →
  keyedByUri (onDidCreate all u) ∧ keyedByUri (onDidDelete all u)
  ∧ keyedByUri (onDidChange all u).
Proof.
  intros Hall. split_and!.
  - intros key e [[= -> ->]|?]%set_elem; [done|by apply Hall].
  - intros key e ?%delete_elem. by apply Hall.
  - unfold onDidChange. destruct (JsMap.get all _) as [e0|] eqn:E; [|done].
    intros key e [[= -> ->]|?]%set_elem; [|by apply Hall].
    apply get_elem, Hall in E. done.
Qed.

(** C10. The entries [all()] yields are those of the index whose key is
    not the uri of an open document, in the order of the index: no file
    that is open as a text document is handed to the scan of the files on
    disk. *)
Theorem all_omits_open_documents index textDocuments :
  all_ index textDocuments = (filter (λ kv, kv.1 ∉ openKeys textDocuments) index).*2
  ∧ (∀ e, e ∈ all_ index textDocuments →
       ∃ key, (key, e) ∈ index
         ∧ ∀ doc, doc ∈ textDocuments → key ≠ uri_toString (uri doc))
  ∧ (keyedByUri index →
     ∀ e doc, e ∈ all_ index textDocuments → doc ∈ textDocuments →
       uri_toString (entry_uri e) ≠ uri_toString (uri doc)).
Proof.
  assert (all_ index textDocuments
          = (filter (λ kv, kv.1 ∉ openKeys textDocuments) index).*2) as Heq.
  { unfold all_. rewrite yieldAll_filter. f_equal.
    apply list_filter_iff. intros kv. by rewrite elem_of_excludeSet. }
  assert (∀ e, e ∈ all_ index textDocuments →
            ∃ key, (key, e) ∈ index
              ∧ ∀ doc, doc ∈ textDocuments → key ≠ uri_toString (uri doc)) as Hkey.
  { intros e. rewrite Heq. intros ([key e'] & -> & [Hk Hin]%list_elem_of_filter)%list_elem_of_fmap.
    exists key. split; [done|]. intros doc Hdoc ->. apply Hk.
    unfold openKeys. apply list_elem_of_fmap. by exists doc. }
  split_and!; [done..|].
  intros Hindex e doc He Hdoc.
  destruct (Hkey e He) as (key & Hin & Hne).
  rewrite <- (Hindex key e Hin). by apply Hne.
Qed.

End WorkspaceIndex.

(** ** Large files *)

Section LargeFiles.
Import Vscode TreeSitter Common Js WorkspaceSymbols WorkspaceSpec.
Context `{Host}.

Lemma chars_nil search : chars search = [] → search = "".
Proof. unfold chars. by destruct search. Qed.

Lemma wordPrefilter_empty search : search ≠ "" → wordPrefilter search "" = false.
Proof.
  intros Hne. unfold wordPrefilter. simpl.
  destruct (chars search) eqn:E; [|done]. by apply chars_nil in E.
Qed.

(** [load] on an entry without cached text, for a file above the limit. *)
Lemma load_large e w size w' :
  truthy (_text e) = false →
  fs_stat_size (entry_uri e) w = Ok (size, w') →
  (1024 ^ 2 < size)%N →
  load e w = Ok (("", mkEntry (entry_uri e) (Some "")), w').
Proof.
  intros Ht Hstat Hsize. unfold load. rewrite Ht. simpl.
  unfold mbind, Async_bind. rewrite Hstat.
  by rewrite bool_decide_eq_true_2.
Qed.

(** C9, as the code has it. When the entry of a file holds no text from an
    earlier load and the file is larger than 1 MiB, [load] yields the
    empty string and caches it; the file then adds no symbol to the bucket
    whenever the prefilter rejects the empty string, and the prefilter of
    a search made of word characters does. *)
Theorem large_file_contributes_nothing search e bucket w size w' :
  truthy (_text e) = false →
  fs_stat_size (entry_uri e) w = Ok (size, w') →
  (1024 ^ 2 < size)%N →
  load e w = Ok (("", mkEntry (entry_uri e) (Some "")), w')
  ∧ (∀ regexp, regexp "" = false →
       processEntry search regexp e bucket w
       = Ok ((bucket, mkEntry (entry_uri e) (Some "")), w'))
  ∧ (search ≠ "" → forallb isWordChar (chars search) = true →
       makeRegExp search = Some (wordPrefilter search)
       ∧ wordPrefilter search "" = false).
Proof.
  intros Ht Hstat Hsize.
  pose proof (load_large e w size w' Ht Hstat Hsize) as Hload.
  split_and!; [done| |].
  - intros regexp Hpre. unfold processEntry, mbind, Async_bind. rewrite Hload. simpl.
    by rewrite Hpre.
  - intros Hne Hword. split; [|by apply wordPrefilter_empty].
    unfold makeRegExp. by rewrite Hword.
Qed.

End LargeFiles.

Lemma large_file_contributes_nothing_witness :
  @WorkspaceSymbols.processEntry WorkspaceSpec.exampleHost "foo"
    (WorkspaceSymbols.wordPrefilter "foo")
    (WorkspaceSymbols.mkEntry WorkspaceSpec.bigFile None) [] 5
  = Js.Ok (([], WorkspaceSymbols.mkEntry WorkspaceSpec.bigFile (Some "")), 4).
Proof.
  refine (proj1 (proj2
    (@large_file_contributes_nothing WorkspaceSpec.exampleHost "foo"
       (WorkspaceSymbols.mkEntry WorkspaceSpec.bigFile None) [] 5 2000000%N 4
       _ _ _)) (WorkspaceSymbols.wordPrefilter "foo") _); reflexivity.
Defined.

(** The text of an earlier load is returned without a look at the file:
    a file that has grown beyond 1 MiB since then is still searched, and
    here it adds a symbol. *)
Lemma large_file_cached_counterexample :
  @WorkspaceSymbols.fs_stat_size WorkspaceSpec.exampleHost WorkspaceSpec.bigFile 5
  = Js.Ok (2000000%N, 4)
  ∧ (1024 ^ 2 < 2000000)%N
  ∧ @WorkspaceSymbols.load WorkspaceSpec.exampleHost
      (WorkspaceSymbols.mkEntry WorkspaceSpec.bigFile (Some "class Foo {}")) 5
    = Js.Ok (("class Foo {}",
              WorkspaceSymbols.mkEntry WorkspaceSpec.bigFile (Some "class Foo {}")), 5)
  ∧ @WorkspaceSymbols.processEntry WorkspaceSpec.exampleHost "foo"
      (WorkspaceSymbols.wordPrefilter "foo")
      (WorkspaceSymbols.mkEntry WorkspaceSpec.bigFile (Some "class Foo {}")) [] 5
    = Js.Ok (([WorkspaceSymbols.mkSymbolInformation "Foo" Vscode.Class "class"
                 (WorkspaceSpec.bigFile, Vscode.newRange 0 6 0 9)],
              WorkspaceSymbols.mkEntry WorkspaceSpec.bigFile (Some "class Foo {}")), 4).
Proof. split_and!; reflexivity. Qed.

(** ** Workspace search in batches *)

Section Batches.
Import Vscode TreeSitter Common Js WorkspaceSymbols WorkspaceSpec.
Context `{Host}.

Ltac async := unfold mbind, Async_bind, mret, Async_ret, lift, readToken in *.

Lemma findLoop_unfold run n i arr bucket w :
  findLoop run n i arr bucket w
  = if decide (i < n) then
      if isCancellationRequested w then Ok ((bucket, arr), w)
      else match run (slice i (i + chunkSize) arr) bucket w with
           | Ok ((bucket', chunk'), w') =>
               findLoop run n (i + chunkSize) (writeBack i chunk' arr) bucket' w'
           | Throw => Throw
           end
    else Ok ((bucket, arr), w).
Proof.
  simp findLoop. destruct (decide (i < n)); simpl; [|done].
  destruct (isCancellationRequested w); simpl; [done|].
  destruct (run _ _ _) as [[[b c] w']|]; simpl; done.
Qed.


(** *** Nothing is ever taken out of the bucket *)

Lemma visitCapture_prefix search document capture index array bucket bucket' :
  visitCapture search document capture index array bucket = Ok bucket' →
  bucket `prefix_of` bucket'.
Proof.
  unfold visitCapture.
  destruct (negb _); [by intros [= <-]|].
  destruct (_ || _); [|by intros [= <-]].
  destruct (match index with 0 => None | S i => array !! i end); [|done].
  destruct (startsWith _ _); intros [= <-]; by apply prefix_app_r.
Qed.

Lemma forEachCapture_prefix search document array rest : ∀ index bucket bucket',
  forEachCapture search document array index rest bucket = Ok bucket' →
  bucket `prefix_of` bucket'.
Proof.
  induction rest as [|capture rest IH]; intros index bucket bucket'; simpl.
  - by intros [= <-].
  - destruct (visitCapture _ _ _ _ _ _) as [b1|] eqn:E; [|done].
    intros Hrest%IH. etrans; [|done]. by eapply visitCapture_prefix.
Qed.

Lemma collectMatches_prefix search document bucket w bucket' w' :
  _collectMatches search document bucket w = Ok (bucket', w') →
  bucket `prefix_of` bucket'.
Proof.
  unfold _collectMatches. destruct (_ || _); async; [by intros [= <- _]|].
  destruct (queryCaptures document w) as [[[array|] w1]|]; [| |done].
  - destruct (forEachCapture _ _ _ _ _ _) as [b1|] eqn:E; [|done].
    intros [= <- _]. by eapply forEachCapture_prefix.
  - by intros [= <- _].
Qed.

Lemma processEntry_prefix search regexp entry bucket w bucket' entry' w' :
  processEntry search regexp entry bucket w = Ok ((bucket', entry'), w') →
  bucket `prefix_of` bucket'.
Proof.
  unfold processEntry. async.
  destruct (load entry w) as [[[source e1] w1]|]; [|done].
  destruct (negb _); [by intros [= <- _ _]|].
  destruct (_collectMatches _ _ _ _) as [[b1 w2]|] eqn:E; [|done].
  intros [= <- _ _]. by eapply collectMatches_prefix.
Qed.

Lemma runChunk_prefix search regexp chunk : ∀ bucket w bucket' chunk' w',
  runChunk search regexp chunk bucket w = Ok ((bucket', chunk'), w') →
  bucket `prefix_of` bucket' ∧ length chunk' = length chunk.
Proof.
  induction chunk as [|entry chunk IH]; intros bucket w bucket' chunk' w'; simpl; async.
  - by intros [= <- <- _].
  - destruct (processEntry _ _ _ _ _) as [[[b1 e1] w1]|] eqn:E1; [|done].
    destruct (runChunk _ _ _ _ _) as [[[b2 es] w2]|] eqn:E2; [|done].
    intros [= <- <- _]. destruct (IH _ _ _ _ _ E2) as [Hp Hl].
    split; [|by simpl; rewrite Hl].
    etrans; [|done]. by eapply processEntry_prefix.
Qed.

Lemma runChunk_pushesOnly search regexp : pushesOnly (runChunk search regexp).
Proof. intros chunk bucket w bucket' chunk' w'. apply runChunk_prefix. Qed.

Lemma findLoop_prefix run n :
  pushesOnly run →
  ∀ k i arr bucket w bucket' arr' w',
  n - i ≤ k →
  findLoop run n i arr bucket w = Ok ((bucket', arr'), w') →
  bucket `prefix_of` bucket'.
Proof.
  intros Hrun.
  induction k as [|k IH]; intros i arr bucket w bucket' arr' w' Hk;
    rewrite findLoop_unfold; destruct (decide (i < n)); try lia;
    try by intros [= <- _ _].
  destruct (isCancellationRequested w); [by intros [= <- _ _]|].
  destruct (run _ _ _) as [[[b1 c1] w1]|] eqn:E; [|done].
  intros Hrest. apply IH in Hrest; [|unfold chunkSize; lia].
  etrans; [|done]. by eapply Hrun.
Qed.

(** *** The batches *)

Lemma chunkSize_pos : 0 < chunkSize.
Proof. unfold chunkSize. lia. Qed.

Lemma chunkSize_50 : chunkSize = 50.
Proof. reflexivity. Qed.

Lemma batchesOf_code {A} (files : list A) :
  batchesOf files
  = (λ k, slice (chunkSize * k) (chunkSize * k + chunkSize) files)
    <$> seq 0 ((length files + (chunkSize - 1)) / chunkSize).
Proof.
  unfold batchesOf. change batchSize with chunkSize.
  apply list_fmap_ext. intros _ k _. unfold slice. f_equal.
  generalize (chunkSize * k), chunkSize. intros. lia.
Qed.

#[local] Opaque chunkSize.

Lemma batch_count len :
  1 ≤ len →
  (len + (chunkSize - 1)) / chunkSize
  = S ((len - chunkSize + (chunkSize - 1)) / chunkSize).
Proof.
  intros Hlen. pose proof chunkSize_pos.
  destruct (decide (len < chunkSize)).
  - replace (len - chunkSize) with 0 by lia.
    rewrite (Nat.div_small (0 + _)) by lia.
    symmetry. apply Nat.div_unique with (len - 1); lia.
  - replace (len + (chunkSize - 1)) with ((len - chunkSize + (chunkSize - 1)) + 1 * chunkSize)
      by lia.
    rewrite Nat.div_add by lia. lia.
Qed.

Lemma slice_take_drop {A} i c (l : list A) : slice i (i + c) l = take c (drop i l).
Proof. unfold slice. f_equal. lia. Qed.

Lemma batchesOf_nil {A} : batchesOf ([] : list A) = [].
Proof.
  rewrite batchesOf_code. simpl. rewrite Nat.div_small; [done|].
  pose proof chunkSize_pos. lia.
Qed.

Lemma batchesOf_unfold {A} (l : list A) :
  l ≠ [] → batchesOf l = take chunkSize l :: batchesOf (drop chunkSize l).
Proof.
  intros Hl. rewrite !batchesOf_code.
  rewrite batch_count by (destruct l; [done|simpl; lia]).
  rewrite length_drop. cbn [seq]. rewrite fmap_cons.
  replace (slice (chunkSize * 0) (chunkSize * 0 + chunkSize) l) with (take chunkSize l)
    by (rewrite Nat.mul_0_r; by rewrite slice_take_drop).
  f_equal.
  rewrite <- fmap_S_seq, <- list_fmap_compose. apply list_fmap_ext.
  intros _ k _. simpl. rewrite !slice_take_drop, drop_drop. do 2 f_equal. lia.
Qed.

Lemma concat_batchesOf {A} (l : list A) : concat (batchesOf l) = l.
Proof.
  remember (length l) as len eqn:Hlen. revert l Hlen.
  induction len as [len IH] using lt_wf_ind. intros l ->.
  destruct l as [|x l]; [by rewrite batchesOf_nil|].
  rewrite batchesOf_unfold by done. rewrite concat_cons.
  rewrite (IH (length (drop chunkSize (x :: l)))); [apply take_drop| |done].
  rewrite length_drop. pose proof chunkSize_pos. simpl. lia.
Qed.

Lemma batchesOf_sizes {A} (l : list A) :
  Forall (λ batch, 0 < length batch ≤ chunkSize) (batchesOf l).
Proof.
  remember (length l) as len eqn:Hlen. revert l Hlen.
  induction len as [len IH] using lt_wf_ind. intros l ->.
  destruct l as [|x l]; [by rewrite batchesOf_nil|].
  rewrite batchesOf_unfold by done. pose proof chunkSize_pos. constructor.
  - rewrite length_take. simpl. lia.
  - apply (IH (length (drop chunkSize (x :: l)))); [|done].
    rewrite length_drop. simpl. lia.
Qed.

(** *** Writing a chunk back *)

Lemma writeBack_length {A} i (chunk arr : list A) :
  length chunk = length (slice i (i + chunkSize) arr) →
  length (writeBack i chunk arr) = length arr.
Proof.
  rewrite slice_take_drop, length_take, length_drop. intros Hc.
  unfold writeBack. rewrite !length_app, length_take, length_drop. lia.
Qed.

Lemma writeBack_drop {A} i (chunk arr : list A) :
  i ≤ length arr →
  length chunk = length (slice i (i + chunkSize) arr) →
  drop (i + chunkSize) (writeBack i chunk arr) = drop (i + chunkSize) arr.
Proof.
  rewrite slice_take_drop, length_take, length_drop. intros Hi Hc.
  unfold writeBack.
  rewrite drop_app_add' by (rewrite length_take; lia).
  rewrite drop_app_ge by lia. rewrite drop_drop. f_equal. lia.
Qed.

Lemma writeBack_take {A} i (chunk arr : list A) :
  i ≤ length arr →
  length chunk = length (slice i (i + chunkSize) arr) →
  take (i + chunkSize) (writeBack i chunk arr) = take i arr ++ chunk.
Proof.
  rewrite slice_take_drop, length_take, length_drop. intros Hi Hc.
  unfold writeBack.
  rewrite take_app_add' by (rewrite length_take; lia).
  rewrite take_app_ge by lia. f_equal.
  destruct (decide (length chunk = chunkSize)) as [->|Hne].
  - by rewrite Nat.sub_diag, take_0, app_nil_r.
  - rewrite (drop_ge arr) by lia. by rewrite take_nil, app_nil_r.
Qed.

(** *** The loop over indices runs the batches in order *)

Lemma findLoop_runBatches run n :
  pushesOnly run →
  ∀ k i arr bucket w,
  n - i ≤ k → length arr = n →
  findLoop run n i arr bucket w
  = match runBatches run (batchesOf (drop i arr)) bucket w with
    | Ok ((b, bs), w') => Ok ((b, take i arr ++ concat bs), w')
    | Throw => Throw
    end.
Proof.
  intros Hrun.
  assert (∀ i arr bucket w, length arr = n → ¬ i < n →
            Ok ((bucket, arr), w)
            = match runBatches run (batchesOf (drop i arr)) bucket w with
              | Ok ((b, bs), w') => Ok ((b, take i arr ++ concat bs), w')
              | Throw => Throw
              end) as Hdone.
  { intros i arr bucket w Hlen Hi.
    rewrite (drop_ge arr) by lia. rewrite batchesOf_nil. simpl. async.
    by rewrite take_ge, app_nil_r by lia. }
  induction k as [|k IH]; intros i arr bucket w Hk Hlen;
    rewrite findLoop_unfold; destruct (decide (i < n)) as [Hi|Hi];
    try lia; try by apply Hdone.
  assert (drop i arr ≠ []) as Hne.
  { intros Hnil%drop_nil_inv. lia. }
  pose proof chunkSize_pos as Hpos.
  pose proof (concat_batchesOf (drop i arr)) as Hcat.
  rewrite batchesOf_unfold in Hcat |- * by done.
  rewrite drop_drop, <- slice_take_drop in Hcat |- *.
  cbn [runBatches]. async.
  destruct (isCancellationRequested w).
  - by rewrite Hcat, take_drop.
  - destruct (run _ _ _) as [[[b1 c1] w1]|] eqn:E; [|done].
    destruct (Hrun _ _ _ _ _ _ E) as [_ Hc].
    rewrite IH; [|lia|by rewrite writeBack_length].
    rewrite writeBack_drop, writeBack_take by (done || lia).
    destruct (runBatches _ _ _ _) as [[[b bs] w2]|]; [|done].
    by rewrite concat_cons, <- app_assoc.
Qed.

Lemma findWithIndex_prefix search allUris bucket w bucket' arr' w' :
  _findWithIndex search allUris bucket w = Ok ((bucket', arr'), w') →
  bucket `prefix_of` bucket'.
Proof.
  unfold _findWithIndex. destruct (negb _); async; [by intros [= <- _ _]|].
  destruct (makeRegExp search) as [regexp|]; [|by intros [= <- _ _]].
  by apply (findLoop_prefix _ _ (runChunk_pushesOnly search regexp) (length allUris)); lia.
Qed.

Lemma findWithIndex_runBatches search regexp :
  hasWordChar search = true → makeRegExp search = Some regexp →
  ∀ arr b w,
    _findWithIndex search arr b w
    = match runBatches (runChunk search regexp) (batchesOf arr) b w with
      | Ok ((b', bs), w') => Ok ((b', concat bs), w')
      | Throw => Throw
      end.
Proof.
  intros Hword Hre arr b w. unfold _findWithIndex. rewrite Hword, Hre. simpl.
  rewrite (findLoop_runBatches _ _ (runChunk_pushesOnly search regexp) (length arr))
    by (done || lia).
  by rewrite drop_0.
Qed.

Lemma runBatches_app run bs1 bs2 : ∀ bucket w,
  runBatches run (bs1 ++ bs2) bucket w
  = match runBatches run bs1 bucket w with
    | Ok ((b, bs1'), w1) =>
        if isCancellationRequested w1 then Ok ((b, bs1' ++ bs2), w1)
        else match runBatches run bs2 b w1 with
             | Ok ((b2, bs2'), w2) => Ok ((b2, bs1' ++ bs2'), w2)
             | Throw => Throw
             end
    | Throw => Throw
    end.
Proof.
  induction bs1 as [|batch bs1 IH]; intros bucket w.
  - cbn [runBatches app]. async.
    destruct bs2 as [|batch bs2]; cbn [runBatches]; async.
    + by destruct (isCancellationRequested w).
    + destruct (isCancellationRequested w); [done|].
      destruct (run batch bucket w) as [[[b1 c1] w1]|]; [|done].
      by destruct (runBatches run bs2 b1 w1) as [[[b2 bs2'] w2]|].
  - cbn [runBatches app]. async.
    destruct (isCancellationRequested w) eqn:Hc; [by rewrite Hc|].
    destruct (run batch bucket w) as [[[b1 c1] w1]|]; [|done].
    rewrite IH.
    destruct (runBatches run bs1 b1 w1) as [[[b bs1'] w2]|]; [|done].
    destruct (isCancellationRequested w2); [done|].
    by destruct (runBatches run bs2 b w2) as [[[b2 bs2'] w3]|].
Qed.

Lemma batchesOf_app {A} j : ∀ first rest : list A,
  length first = chunkSize * j →
  batchesOf (first ++ rest) = batchesOf first ++ batchesOf rest.
Proof.
  pose proof chunkSize_pos.
  induction j as [|j IH]; intros first rest Hlen.
  - rewrite Nat.mul_0_r in Hlen. apply length_zero_iff_nil in Hlen as ->.
    by rewrite batchesOf_nil.
  - assert (first ≠ []) as Hne by (intros ->; simpl in Hlen; nia).
    rewrite (batchesOf_unfold first) by done.
    rewrite batchesOf_unfold by (destruct first; done).
    rewrite take_app_le, drop_app_le by nia.
    rewrite IH by (rewrite length_drop; nia). done.
Qed.

Lemma batchesOf_single {A} (l : list A) :
  l ≠ [] → length l ≤ chunkSize → batchesOf l = [l].
Proof.
  intros Hne Hlen. rewrite batchesOf_unfold by done.
  rewrite take_ge, drop_ge by done. by rewrite batchesOf_nil.
Qed.

(** C7. For a search with a word character, [_findWithIndex] takes the
    files of the index in batches of 50, batch [k] being the files from
    [50 k] on, and runs one batch after the other. Cancellation is looked
    for before every batch: when it is seen, neither that batch nor a
    later one is run, their files are not touched, and the bucket is
    returned with all that the batches before have put into it. Nothing
    is ever taken out of the bucket, so what the open documents gave
    stays in the result of [provideWorkspaceSymbols] as well. On an index
    of 120 files with one symbol each, cancelled when the first batch is
    done, the result is the 50 symbols of the first batch, and the other
    70 files have not been read. *)
Theorem workspace_search_in_batches search regexp allUris bucket w :
  hasWordChar search = true →
  makeRegExp search = Some regexp →
  _findWithIndex search allUris bucket w
  = match runBatches (runChunk search regexp) (batchesOf allUris) bucket w with
    | Ok ((b, bs), w') => Ok ((b, concat bs), w')
    | Throw => Throw
    end
  ∧ length (batchesOf allUris) = (length allUris + 49) / 50
  ∧ concat (batchesOf allUris) = allUris
  ∧ (∀ k batch, batchesOf allUris !! k = Some batch →
       batch = take 50 (drop (50 * k) allUris) ∧ 0 < length batch ≤ 50)
  ∧ (isCancellationRequested w = true →
       _findWithIndex search allUris bucket w = Ok ((bucket, allUris), w))
  ∧ (length allUris ≤ 50 → isCancellationRequested w = false →
       _findWithIndex search allUris bucket w = runChunk search regexp allUris bucket w)
  ∧ (∀ j first rest found first' w1,
       allUris = first ++ rest → length first = 50 * j →
       _findWithIndex search first bucket w = Ok ((found, first'), w1) →
       bucket `prefix_of` found
       ∧ _findWithIndex search allUris bucket w
         = if isCancellationRequested w1 then Ok ((found, first' ++ rest), w1)
           else match _findWithIndex search rest found w1 with
                | Ok ((b, rest'), w2) => Ok ((b, first' ++ rest'), w2)
                | Throw => Throw
                end)
  ∧ (∀ b' arr' w', _findWithIndex search allUris bucket w = Ok ((b', arr'), w') →
       bucket `prefix_of` b')
  ∧ (∀ textDocuments index found w0 w1,
       searchDocuments search textDocuments [] w0 = Ok (Some found, w1) →
       provideWorkspaceSymbols workspace textDocuments index search w0
       = match _findWithIndex search (all_ index textDocuments) found w1 with
         | Ok ((symbols, _), w2) => Ok (Some symbols, w2)
         | Throw => Throw
         end
       ∧ ∀ out w2,
           provideWorkspaceSymbols workspace textDocuments index search w0 = Ok (out, w2) →
           ∃ symbols, out = Some symbols ∧ found `prefix_of` symbols)
  ∧ @_findWithIndex exampleHost "foo" manyFiles [] 150
    = Ok ((replicate 50 fooSymbol,
           replicate 50 (mkEntry smallFile (Some "class Foo {}"))
           ++ replicate 70 (mkEntry smallFile None)), 0).
Proof.
  intros Hword Hre.
  pose proof (findWithIndex_runBatches search regexp Hword Hre) as Hrun.
  split_and!.
  - apply Hrun.
  - unfold batchesOf. by rewrite length_fmap, length_seq.
  - apply concat_batchesOf.
  - intros k batch Hk. pose proof (batchesOf_sizes allUris) as Hsz.
    rewrite Forall_forall in Hsz. specialize (Hsz batch (list_elem_of_lookup_2 _ _ _ Hk)).
    rewrite chunkSize_50 in Hsz. split; [|done]. unfold batchesOf in Hk.
    rewrite list_lookup_fmap in Hk.
    destruct (seq 0 _ !! k) as [i|] eqn:Hi; [|done].
    apply lookup_seq in Hi as [-> _]. by injection Hk as <-.
  - intros Hc. rewrite Hrun. destruct (batchesOf allUris) as [|batch bs] eqn:Hb.
    + pose proof (concat_batchesOf allUris) as Hcat. rewrite Hb in Hcat. by subst.
    + pose proof (concat_batchesOf allUris) as Hcat. rewrite Hb in Hcat.
      cbn [runBatches]. by rewrite Hc, Hcat.
  - intros Hlen Hc. rewrite Hrun. destruct allUris as [|e es]; [by rewrite batchesOf_nil|].
    rewrite batchesOf_single by (done || by rewrite chunkSize_50).
    cbn [runBatches]. async. rewrite Hc.
    destruct (runChunk search regexp (e :: es) bucket w) as [[[b1 c1] w1]|]; [|done].
    simpl. by rewrite app_nil_r.
  - intros j first rest found first' w1 -> Hlen Hfirst.
    split; [by eapply findWithIndex_prefix|].
    rewrite Hrun, (batchesOf_app j) by (by rewrite chunkSize_50).
    rewrite runBatches_app.
    rewrite Hrun in Hfirst.
    destruct (runBatches (runChunk search regexp) (batchesOf first) bucket w)
      as [[[b bs1] w1']|]; [|done].
    injection Hfirst as -> <- ->.
    destruct (isCancellationRequested w1).
    + by rewrite concat_app, concat_batchesOf.
    + rewrite Hrun.
      destruct (runBatches (runChunk search regexp) (batchesOf rest) found w1)
        as [[[b2 bs2] w2]|]; [|done].
      by rewrite concat_app.
  - intros b' arr' w'. apply findWithIndex_prefix.
  - intros textDocuments index found w0 w1 Hdocs.
    assert (provideWorkspaceSymbols workspace textDocuments index search w0
            = match _findWithIndex search (all_ index textDocuments) found w1 with
              | Ok ((symbols, _), w2) => Ok (Some symbols, w2)
              | Throw => Throw
              end) as Heq.
    { unfold provideWorkspaceSymbols. async. rewrite Hdocs.
      by destruct (_findWithIndex _ _ _ _) as [[[b1 arr1] w3]|]. }
    split; [done|]. intros out w2. rewrite Heq.
    destruct (_findWithIndex _ _ _ _) as [[[b1 arr1] w3]|] eqn:E; [|done].
    intros [= <- _]. exists b1. split; [done|]. by eapply findWithIndex_prefix.
  - by vm_compute.
Qed.

End Batches.

Lemma workspace_search_in_batches_witness :
  @WorkspaceSymbols._findWithIndex WorkspaceSpec.exampleHost "foo" WorkspaceSpec.manyFiles [] 0
  = Js.Ok (([], WorkspaceSpec.manyFiles), 0).
Proof.
  exact (proj1 (proj2 (proj2 (proj2 (proj2
           (@workspace_search_in_batches WorkspaceSpec.exampleHost "foo"
              (WorkspaceSymbols.wordPrefilter "foo") WorkspaceSpec.manyFiles [] 0
              eq_refl eq_refl))))) eq_refl).
Defined.

Lemma all_omits_open_documents_witness :
  @WorkspaceSymbols.all_ WorkspaceSpec.exampleHost
    (@WorkspaceSymbols.createIndex WorkspaceSpec.exampleHost
       [WorkspaceSpec.bigFile; WorkspaceSpec.smallFile])
    [WorkspaceSpec.exampleDocument]
  = [WorkspaceSymbols.mkEntry WorkspaceSpec.bigFile None].
Proof.
  etrans; [exact (proj1 (@all_omits_open_documents WorkspaceSpec.exampleHost _ _))|].
  reflexivity.
Defined.

(** ** The definitions at work *)

Section Examples.
Import Vscode TreeSitter Common Js Symbols OutlineSpec WorkspaceSymbols WorkspaceSpec.

(** A class [foo] with a method [bar]: one symbol at the top, named by the
    class's name child, with the method below it. *)
Example outline_of_a_class :
  provideDocumentSymbols (Some outlineExample)
  = Some [mkDocumentSymbol "foo" "" Vscode.Class (newRange 0 0 0 40) (newRange 0 6 0 9)
            [mkDocumentSymbol "bar" "" Vscode.Method (newRange 0 12 0 30)
               (newRange 0 16 0 19) []]].
Proof. reflexivity. Qed.

(** A capture that starts where an earlier one does but ends later is not
    its child: both become roots. *)
Example later_container_is_a_second_root :
  roots (makeTree [ mkCapture "variable" (mkSyntaxNode (mkPoint 0 0) (mkPoint 0 5) "x");
                    mkCapture "function" (mkSyntaxNode (mkPoint 0 0) (mkPoint 0 10) "f") ])
  = [0; 1].
Proof. reflexivity. Qed.

(** The prefilter of the search [fb]. *)
Example prefilter_fb :
  prefilterPattern "fb" = "(^|[\s_-])f\w*b\w*"
  ∧ wordPrefilter "fb" "fooBar" = true
  ∧ wordPrefilter "fb" "let foo_bar" = true
  ∧ wordPrefilter "fb" "abcfb" = false.
Proof. split_and!; reflexivity. Qed.

(** A name capture at the head of the sequence: the callback throws. *)
Example name_capture_first_throws :
  @forEachCapture exampleHost "" exampleDocument
    [mkCapture "class.name" (mkSyntaxNode (mkPoint 0 6) (mkPoint 0 9) "Foo")] 0
    [mkCapture "class.name" (mkSyntaxNode (mkPoint 0 6) (mkPoint 0 9) "Foo")] []
  = Throw.
Proof. reflexivity. Qed.

(** 120 files, and a user who cancels when the first batch is through:
    50 symbols, and the 70 files of the other two batches never loaded. *)
Example cancelled_after_the_first_batch :
  match @_findWithIndex exampleHost "foo" (replicate 120 (mkEntry smallFile None)) [] 150 with
  | Ok ((bucket, entries), _) =>
      length bucket = 50
      ∧ length (filter (λ e, _text e = None) entries) = 70
  | Throw => False
  end.
Proof. vm_compute. done. Qed.

End Examples.

(** ** Further properties of the code *)


(** ** More on maps in insertion order *)

Section JsMapMore.
Context {K V : Type} `{EqDecision K}.
Implicit Types m : list (K * V).

Lemma keys_delete_subseteq m k x : x ∈ JsMap.keys (JsMap.delete m k) → x ∈ JsMap.keys m.
Proof.
  unfold JsMap.keys. induction m as [|[k' v'] m IH]; simpl; [done|].
  case_decide; subst; simpl.
  - intros. by right.
  - intros [->|?]%elem_of_cons; [left|right; auto].
Qed.

Lemma NoDup_keys_delete m k : NoDup (JsMap.keys m) → NoDup (JsMap.keys (JsMap.delete m k)).
Proof.
  unfold JsMap.keys. induction m as [|[k' v'] m IH]; simpl; [done|].
  intros [Hnot Hnd]%NoDup_cons. case_decide; subst; simpl; [done|].
  apply NoDup_cons. split; [|auto].
  intros Hin. apply Hnot. by eapply keys_delete_subseteq.
Qed.

Lemma NoDup_keys_set m k v : NoDup (JsMap.keys m) → NoDup (JsMap.keys (JsMap.set m k v)).
Proof.
  intros Hnd. destruct (decide (k ∈ JsMap.keys m)) as [Hin|Hnot].
  - by rewrite keys_set_in.
  - rewrite keys_set_notin by done. apply NoDup_app. split_and!; [done| |apply NoDup_singleton].
    intros x Hx ->%list_elem_of_singleton. done.
Qed.

Lemma get_delete m k k' :
  NoDup (JsMap.keys m) →
  JsMap.get (JsMap.delete m k) k' = if decide (k = k') then None else JsMap.get m k'.
Proof.
  unfold JsMap.keys. induction m as [|[k0 v0] m IH]; simpl.
  - by case_decide.
  - intros [Hnot Hnd]%NoDup_cons.
    destruct (decide (k0 = k)) as [->|Hne]; simpl.
    + destruct (decide (k = k')) as [->|Hne'].
      * by apply get_None.
      * done.
    + rewrite IH by done. repeat case_decide; subst; done.
Qed.

End JsMapMore.

(** ** The shape of the outline *)

Section OutlineShapeFacts.
Import Vscode TreeSitter Common Symbols OutlineSpec OutlineShape.

Lemma flat_map_children_alter n (top : ref) (st : list Node) :
  top < length st →
  flat_map children (alter (pushChild n) top st) ≡ₚ n :: flat_map children st.
Proof.
  revert top. induction st as [|x st IH]; intros top Htop; simpl in *; [lia|].
  destruct top as [|top]; simpl.
  - rewrite <- app_assoc. simpl.
    by rewrite <- Permutation_middle.
  - change (list_alter (pushChild n) top st) with (alter (pushChild n) top st).
    rewrite IH by lia. by rewrite Permutation_middle.
Qed.

Lemma flat_map_children_snoc (st : list Node) c :
  flat_map children (st ++ [newNode c]) = flat_map children st.
Proof. rewrite flat_map_app. simpl. by rewrite !app_nil_r. Qed.

Lemma StronglySorted_snoc {A} (R : A → A → Prop) l x :
  StronglySorted R l → Forall (λ y, R y x) l → StronglySorted R (l ++ [x]).
Proof.
  induction 1 as [|y l Hl IH Hy]; intros Hx; simpl.
  - repeat constructor.
  - apply Forall_cons in Hx as [Hyx Hx]. constructor; [by apply IH|].
    apply Forall_app. split; [done|by constructor].
Qed.

Lemma StronglySorted_suffix {A} (R : A → A → Prop) l1 l2 :
  StronglySorted R (l1 ++ l2) → StronglySorted R l2.
Proof.
  induction l1 as [|x l1 IH]; simpl; [done|]. intros Hs. apply IH. by inversion Hs.
Qed.

Lemma isPath_suffix st rts l1 l2 : isPath st rts (l1 ++ l2) → isPath st rts l2.
Proof.
  induction l1 as [|x l1 IH]; simpl; [done|]. intros [_ Hp]. by apply IH.
Qed.

Lemma isPath_ext st st' rts stk :
  (∀ p, p ∈ tail stk → st' !! p = st !! p) →
  isPath st rts stk → isPath st' rts stk.
Proof.
  induction stk as [|c stk IH]; simpl; [done|]. intros Hst [Hc Hp]. split.
  - destruct stk as [|p stk]; [done|]. rewrite Hst; [done|]. simpl. left.
  - apply IH; [|done]. intros p Hin. apply Hst. simpl.
    destruct stk; simpl in *; [by apply elem_of_nil in Hin|]. by right.
Qed.

Lemma isPath_cons st rts c p stk :
  (∃ nd, st !! p = Some nd ∧ last (children nd) = Some c) →
  isPath st rts (p :: stk) → isPath st rts (c :: p :: stk).
Proof. intros. by split. Qed.

Lemma emptyForest_shapeOk : shapeOk emptyForest.
Proof.
  split; simpl; try done; try constructor.
Qed.

Lemma addCapture_shapeOk f c : forestOk f → shapeOk f → shapeOk (addCapture f c).
Proof.
  intros Hf Hs. unfold addCapture.
  set (n := length (store f)). set (nd := newNode c).
  destruct (place_cases n (range nd) (store f ++ [nd]) (roots f) (stack f))
    as (popped & kept & Hstk & _ & Hplace).
  assert (Hkept : ∀ p, p ∈ kept → p < n).
  { intros p Hp. apply (ok_stack _ Hf). rewrite Hstk. apply elem_of_app. by right. }
  destruct kept as [|top rest].
  - rewrite Hplace. split; cbn [store roots stack].
    + rewrite length_app. simpl. rewrite Nat.add_1_r, seq_S. simpl.
      unfold nd. rewrite flat_map_children_snoc.
      rewrite <- (ok_partition _ Hs). fold n.
      rewrite <- !app_assoc. apply Permutation_app_head. apply Permutation_app_comm.
    + apply StronglySorted_snoc; [apply (ok_roots_sorted _ Hs)|].
      apply Forall_forall. intros r Hr. apply (ok_roots _ Hf _ Hr).
    + intros p x Hx. apply lookup_app_Some in Hx as [Hx|[_ Hx]].
      * by apply (ok_children_sorted _ Hs p).
      * apply list_lookup_singleton_Some in Hx as [_ <-]. simpl. constructor.
    + repeat constructor.
    + simpl. split; [|done]. by rewrite last_snoc.
    + rewrite length_app. simpl. by rewrite Nat.add_1_r.
  - destruct Hplace as [Hc Hplace]. rewrite Hplace.
    assert (Htop : top < n) by (apply Hkept; left).
    assert (Hlen : top < length (store f ++ [nd])) by (rewrite length_app; simpl; lia).
    split; cbn [store roots stack].
    + rewrite length_alter, length_app. simpl. rewrite Nat.add_1_r, seq_S. simpl.
      rewrite flat_map_children_alter by done.
      unfold nd. rewrite flat_map_children_snoc.
      rewrite <- (ok_partition _ Hs). fold n.
      rewrite <- Permutation_middle. rewrite <- Permutation_cons_append. done.
    + apply (ok_roots_sorted _ Hs).
    + intros p x Hx.
      destruct (decide (p = top)) as [->|Hne].
      * rewrite list_lookup_alter_eq in Hx.
        apply fmap_Some in Hx as (y & Hy & ->). simpl.
        rewrite lookup_app_l in Hy by done.
        apply StronglySorted_snoc; [by apply (ok_children_sorted _ Hs top)|].
        apply Forall_forall. intros ch Hch.
        destruct (ok_children _ Hf _ _ _ Hy Hch) as (_ & z & Hz & _).
        by apply lookup_lt_Some in Hz.
      * rewrite list_lookup_alter_ne in Hx by done.
        apply lookup_app_Some in Hx as [Hx|[_ Hx]].
        -- by apply (ok_children_sorted _ Hs p).
        -- apply list_lookup_singleton_Some in Hx as [_ <-]. simpl. constructor.
    + constructor.
      * pose proof (ok_stack_sorted _ Hs) as Hsorted. rewrite Hstk in Hsorted.
        by apply StronglySorted_suffix in Hsorted.
      * apply Forall_forall. intros p Hp. by apply Hkept.
    + apply isPath_cons.
      * rewrite list_lookup_alter_eq. rewrite lookup_app_l by done.
        destruct (store f !! top) as [y|] eqn:Hy.
        -- exists (pushChild n y). split; [done|]. simpl. by rewrite last_snoc.
        -- apply lookup_ge_None in Hy. lia.
      * pose proof (ok_path _ Hs) as Hpath. rewrite Hstk in Hpath.
        apply isPath_suffix in Hpath.
        pose proof (ok_stack_sorted _ Hs) as Hsorted. rewrite Hstk in Hsorted.
        apply StronglySorted_suffix in Hsorted.
        apply StronglySorted_inv in Hsorted as [_ Hlt].
        eapply isPath_ext; [|exact Hpath].
        intros p Hp. simpl in Hp.
        rewrite Forall_forall in Hlt. specialize (Hlt _ Hp).
        rewrite list_lookup_alter_ne by lia.
        apply lookup_app_l. lia.
    + rewrite length_alter, length_app. simpl. by rewrite Nat.add_1_r.
Qed.

Lemma makeTree_snoc cs c : makeTree (cs ++ [c]) = addCapture (makeTree cs) c.
Proof. unfold makeTree. by rewrite fold_left_app. Qed.

Lemma makeTree_shapeOk cs : shapeOk (makeTree cs).
Proof.
  induction cs as [|c cs IH] using rev_ind; [apply emptyForest_shapeOk|].
  rewrite makeTree_snoc. apply addCapture_shapeOk; [apply makeTree_ok|done].
Qed.

Lemma roots_nil_iff cs : roots (makeTree cs) = [] ↔ cs = [].
Proof.
  split; [|by intros ->].
  intros Hr. pose proof (ok_partition _ (makeTree_shapeOk cs)) as Hp.
  rewrite Hr, length_store_makeTree in Hp. simpl in Hp.
  destruct cs as [|c cs]; [done|]. exfalso.
  assert (0 ∈ flat_map children (store (makeTree (c :: cs)))) as Hin.
  { rewrite Hp. simpl. left. }
  apply elem_of_flat_map in Hin as (nd & Hnd & Hin).
  apply list_elem_of_lookup in Hnd as [p Hnd].
  destruct (ok_children _ (makeTree_ok (c :: cs)) _ _ _ Hnd Hin) as [Hlt _]. lia.
Qed.

(** X1. Whatever the captures are, also when their ranges overlap or
    come out of order, [provideDocumentSymbols] returns a list of
    symbols; each symbol's range contains its selection range and the
    range of every symbol below it, and the list is empty only when
    there is no capture. *)
Theorem outline_of_any_captures cs :
  ∃ result, provideDocumentSymbols (Some cs) = Some result
    ∧ (∀ s, s ∈ flat_map allSymbols result →
         contains (sym_range s) (sym_selectionRange s) = true
         ∧ ∀ d, d ∈ descendants s → contains (sym_range s) (sym_range d) = true)
    ∧ length result = length (roots (makeTree cs))
    ∧ (result = [] ↔ cs = []).
Proof.
  unfold provideDocumentSymbols. simpl.
  pose proof (makeTree_ok cs) as Hf. pose proof (roots_nil_iff cs) as Hnil.
  set (f := makeTree cs) in *. destruct Hf as [Hch Hstk Hrts Hval].
  destruct (buildRoots_total (store f) (length (store f)) (roots f) []) as [result Hres].
  { intros c b Hc. apply build_total; [done|by apply Hrts|lia]. }
  exists result. split; [done|].
  destruct (buildRoots_madeOf (store f) _ (build_madeOf (store f) Hch Hval _) _ _ _ Hres)
    as (new & -> & Hnew). simpl.
  pose proof (Forall2_length _ _ _ Hnew) as Hlen.
  split_and!.
  - intros s (t & Ht & Hs)%elem_of_flat_map.
    apply list_elem_of_lookup in Ht as [i Hi].
    destruct (Forall2_lookup_r _ _ _ _ _ Hnew Hi) as (c & Hc & ch & Hch' & _ & Hok).
    by apply Hok.
  - done.
  - rewrite <- Hnil. split; intros Hx; apply length_zero_iff_nil.
    + rewrite Hlen, Hx. done.
    + rewrite <- Hlen, Hx. done.
Qed.

(** X2. The tree loop makes one node per capture and puts each node in
    exactly one place: the roots together with all the [children] arrays
    hold every node once, and a child was always created after its
    parent. *)
Theorem outline_tree_partition cs :
  length (store (makeTree cs)) = length cs
  ∧ roots (makeTree cs) ++ flat_map children (store (makeTree cs)) ≡ₚ seq 0 (length cs)
  ∧ (∀ p nd c, store (makeTree cs) !! p = Some nd → c ∈ children nd → p < c < length cs).
Proof.
  split_and!.
  - apply length_store_makeTree.
  - rewrite <- (length_store_makeTree cs). apply ok_partition, makeTree_shapeOk.
  - intros p nd c Hnd Hc.
    destruct (ok_children _ (makeTree_ok cs) _ _ _ Hnd Hc) as (Hlt & ch & Hch & _).
    apply lookup_lt_Some in Hch. rewrite length_store_makeTree in Hch. lia.
Qed.

(** X3. Roots and children stand in the order of their captures: the
    references in [roots] and in every [children] array increase, and the
    symbols at the top of the result are those of the roots, one for one
    and in the same order. *)
Theorem outline_in_capture_order cs :
  StronglySorted lt (roots (makeTree cs))
  ∧ (∀ p nd, store (makeTree cs) !! p = Some nd → StronglySorted lt (children nd))
  ∧ ∃ result, provideDocumentSymbols (Some cs) = Some result
      ∧ Forall2 (λ r s, ∃ nd, store (makeTree cs) !! r = Some nd ∧ sym_range s = range nd)
          (roots (makeTree cs)) result.
Proof.
  pose proof (makeTree_shapeOk cs) as Hs. split_and!.
  - apply (ok_roots_sorted _ Hs).
  - apply (ok_children_sorted _ Hs).
  - unfold provideDocumentSymbols. simpl.
    pose proof (makeTree_ok cs) as Hf.
    set (f := makeTree cs) in *. destruct Hf as [Hch Hstk Hrts Hval].
    destruct (buildRoots_total (store f) (length (store f)) (roots f) []) as [result Hres].
    { intros c b Hc. apply build_total; [done|by apply Hrts|lia]. }
    exists result. split; [done|].
    destruct (buildRoots_madeOf (store f) _ (build_madeOf (store f) Hch Hval _) _ _ _ Hres)
      as (new & -> & Hnew). simpl.
    eapply Forall2_impl; [exact Hnew|].
    intros r s (nd & Hnd & Hr & _). eauto.
Qed.

(** X4. After every capture the stack is the path from that capture up
    to the last root: its top is the node of the capture, every element
    is the last child of the element below it, the bottom is the last
    root, and the references decrease from top to bottom. *)
Theorem outline_stack_is_last_path cs :
  head (stack (makeTree cs)) = match length cs with 0 => None | S n => Some n end
  ∧ isPath (store (makeTree cs)) (roots (makeTree cs)) (stack (makeTree cs))
  ∧ StronglySorted (λ a b, b < a) (stack (makeTree cs)).
Proof.
  pose proof (makeTree_shapeOk cs) as Hs. split_and!.
  - rewrite <- (length_store_makeTree cs). apply (ok_top _ Hs).
  - apply (ok_path _ Hs).
  - apply (ok_stack_sorted _ Hs).
Qed.

End OutlineShapeFacts.

(** ** The number of symbols *)

Section OutlineCountFacts.
Import Vscode TreeSitter Common Symbols OutlineSpec OutlineShape OutlineCount.

Lemma sum_list_with_ext {A} (f g : A → nat) l :
  (∀ x, x ∈ l → f x = g x) → sum_list_with f l = sum_list_with g l.
Proof.
  induction l as [|x l IH]; intros Hfg; simpl; [done|].
  rewrite Hfg by left. rewrite IH; [done|]. intros. apply Hfg. by right.
Qed.

Lemma sum_list_with_removeFirst {A} (f : A → nat) p l :
  sum_list_with f (removeFirst p l) ≤ sum_list_with f l.
Proof. induction l as [|x l IH]; simpl; [done|]. destruct (p x); simpl; lia. Qed.

Lemma removeFirst_none {A} (p : A → bool) l :
  (∀ x, x ∈ l → p x = false) → removeFirst p l = l.
Proof.
  induction l as [|x l IH]; intros Hp; simpl; [done|].
  rewrite Hp by left. f_equal. apply IH. intros. apply Hp. by right.
Qed.

Lemma length_flat_map_allSymbols_app l1 l2 :
  length (flat_map allSymbols (l1 ++ l2))
  = length (flat_map allSymbols l1) + length (flat_map allSymbols l2).
Proof. by rewrite flat_map_app, length_app. Qed.

Variable st : list Node.
Hypothesis st_children : ∀ p nd c, st !! p = Some nd → c ∈ children nd →
  p < c ∧ ∃ ch, st !! c = Some ch ∧ contains (range nd) (range ch) = true.

Lemma symbolCount_fuel f1 : ∀ f2 n,
  length st - n ≤ f1 → length st - n ≤ f2 →
  symbolCount f1 st n = symbolCount f2 st n.
Proof.
  induction f1 as [|f1 IH]; intros f2 n H1 H2.
  - destruct f2; [done|]. simpl.
    rewrite (proj2 (lookup_ge_None st n)) by lia. done.
  - destruct f2 as [|f2]; simpl.
    + rewrite (proj2 (lookup_ge_None st n)) by lia. done.
    + destruct (st !! n) as [nd|] eqn:Hn; [|done]. f_equal.
      apply sum_list_with_ext. intros c Hc%removeFirst_elem.
      destruct (st_children _ _ _ Hn Hc) as [? _].
      apply lookup_lt_Some in Hn. apply IH; lia.
Qed.

Lemma buildRoots_count fuel :
  (∀ n bucket out, build fuel st n bucket = Some out →
     ∃ s, out = bucket ++ [s] ∧ length (allSymbols s) = symbolCount fuel st n) →
  ∀ cs syms out, buildRoots fuel st cs syms = Some out →
    ∃ new, out = syms ++ new
      ∧ length (flat_map allSymbols new) = sum_list_with (symbolCount fuel st) cs.
Proof.
  intros IH. induction cs as [|c cs IHcs]; intros syms out Hout; simpl in Hout.
  - injection Hout as <-. exists []. by rewrite app_nil_r.
  - destruct (build fuel st c syms) as [syms'|] eqn:Hc; simpl in Hout; [|done].
    destruct (IH _ _ _ Hc) as (s & -> & Hs).
    destruct (IHcs _ _ Hout) as (new & -> & Hnew).
    exists (s :: new). rewrite <- app_assoc. split; [done|].
    simpl. rewrite length_app, Hs, Hnew. done.
Qed.

Lemma build_count fuel : ∀ n bucket out,
  build fuel st n bucket = Some out →
  ∃ s, out = bucket ++ [s] ∧ length (allSymbols s) = symbolCount fuel st n.
Proof.
  induction fuel as [|fuel IH]; intros n bucket out; [done|].
  destruct (st !! n) as [nd|] eqn:Hn; [|by simpl; rewrite Hn].
  rewrite (build_unfold st st_children _ _ nd) by done.
  intros (syms & Hsyms & ->)%fmap_Some.
  destruct (buildRoots_count fuel IH _ _ _ Hsyms) as (new & Hnew & Hlen).
  simpl in Hnew. subst new.
  eexists. split; [done|]. rewrite allSymbols_unfold. simpl. rewrite Hn.
  unfold descendants. simpl. by rewrite Hlen.
Qed.

Lemma symbolCount_unfold n nd :
  st !! n = Some nd →
  symbolCount (length st) st n
  = S (sum_list_with (symbolCount (length st) st)
         (removeFirst (isNameChild st nd) (children nd))).
Proof.
  intros Hn.
  rewrite (symbolCount_fuel (length st) (S (length st)) n) by lia.
  simpl. by rewrite Hn.
Qed.

Lemma sum_seq_le (d : nat → nat) (l : list Node) : ∀ i,
  (∀ j nd, l !! j = Some nd → d (i + j) ≤ S (sum_list_with d (children nd))) →
  sum_list_with d (seq i (length l)) ≤ length l + sum_list_with d (flat_map children l).
Proof.
  induction l as [|nd l IH]; intros i Hd; simpl; [done|].
  rewrite sum_list_with_app.
  specialize (Hd 0 nd eq_refl) as Hnd. rewrite Nat.add_0_r in Hnd.
  assert (∀ j x, l !! j = Some x → d (S i + j) ≤ S (sum_list_with d (children x))) as Hl.
  { intros j x Hx. replace (S i + j) with (i + S j) by lia. by apply Hd. }
  specialize (IH (S i) Hl). lia.
Qed.

Lemma sum_seq_eq (d : nat → nat) (l : list Node) : ∀ i,
  (∀ j nd, l !! j = Some nd → d (i + j) = S (sum_list_with d (children nd))) →
  sum_list_with d (seq i (length l)) = length l + sum_list_with d (flat_map children l).
Proof.
  induction l as [|nd l IH]; intros i Hd; simpl; [done|].
  rewrite sum_list_with_app.
  specialize (Hd 0 nd eq_refl) as Hnd. rewrite Nat.add_0_r in Hnd.
  assert (∀ j x, l !! j = Some x → d (S i + j) = S (sum_list_with d (children x))) as Hl.
  { intros j x Hx. replace (S i + j) with (i + S j) by lia. by apply Hd. }
  specialize (IH (S i) Hl). lia.
Qed.

End OutlineCountFacts.

Section OutlineCountTheorem.
Import Vscode TreeSitter Common Symbols OutlineSpec OutlineShape OutlineCount.

Lemma fmap_capture_alter n (top : ref) (st : list Node) :
  capture <$> alter (pushChild n) top st = capture <$> st.
Proof.
  revert top. induction st as [|x st IH]; intros top; [done|].
  destruct top as [|top]; csimpl; [done|]. f_equal. apply IH.
Qed.

Lemma captures_makeTree cs : capture <$> store (makeTree cs) = cs.
Proof.
  induction cs as [|c cs IH] using rev_ind; [done|].
  rewrite makeTree_snoc. unfold addCapture.
  destruct (place_cases (length (store (makeTree cs))) (range (newNode c))
              (store (makeTree cs) ++ [newNode c]) (roots (makeTree cs))
              (stack (makeTree cs))) as (popped & kept & _ & _ & Hplace).
  destruct kept as [|top rest].
  - rewrite Hplace. simpl. by rewrite fmap_app, IH.
  - destruct Hplace as [_ ->]. simpl. by rewrite fmap_capture_alter, fmap_app, IH.
Qed.

(** X5. The outline never has more symbols than the document has
    captures, all levels counted; when no capture is a name capture
    (no label ends in [.name]) it has exactly one symbol per capture. *)
Theorem outline_symbol_count cs :
  ∃ result, provideDocumentSymbols (Some cs) = Some result
    ∧ length (flat_map allSymbols result) ≤ length cs
    ∧ (Forall (λ c, Js.endsWith (name c) ".name" = false) cs →
       length (flat_map allSymbols result) = length cs).
Proof.
  unfold provideDocumentSymbols. simpl.
  pose proof (makeTree_ok cs) as Hf. pose proof (makeTree_shapeOk cs) as Hs.
  pose proof (captures_makeTree cs) as Hcs.
  pose proof (length_store_makeTree cs) as HN.
  set (f := makeTree cs) in *. destruct Hf as [Hch Hstk Hrts Hval].
  destruct (buildRoots_total (store f) (length (store f)) (roots f) []) as [result Hres].
  { intros c b Hc. apply build_total; [done|by apply Hrts|lia]. }
  exists result. split; [done|].
  destruct (buildRoots_count (store f) _ (build_count (store f) Hch _) _ _ _ Hres)
    as (new & -> & Hlen). simpl. rewrite Hlen.
  set (d := symbolCount (length (store f)) (store f)).
  assert (sum_list_with d (roots f) + sum_list_with d (flat_map children (store f))
          = sum_list_with d (seq 0 (length (store f)))) as Hperm.
  { rewrite <- sum_list_with_app. by rewrite (ok_partition _ Hs). }
  split.
  - assert (sum_list_with d (seq 0 (length (store f)))
            ≤ length (store f) + sum_list_with d (flat_map children (store f))) as Hle.
    { apply sum_seq_le. intros j nd Hnd. simpl. unfold d. rewrite (symbolCount_unfold _ Hch j nd Hnd).
      apply le_n_S, sum_list_with_removeFirst. }
    lia.
  - intros Hnames.
    assert (sum_list_with d (seq 0 (length (store f)))
            = length (store f) + sum_list_with d (flat_map children (store f))) as Heq.
    { apply sum_seq_eq. intros j nd Hnd. simpl. unfold d. rewrite (symbolCount_unfold _ Hch j nd Hnd).
      f_equal. f_equal. apply removeFirst_none. intros c Hc.
      unfold isNameChild. destruct (store f !! c) as [ch|] eqn:Hc'; [|done].
      apply bool_decide_eq_false. intros Hname.
      assert (capture ch ∈ cs) as Hin.
      { rewrite <- Hcs. apply list_elem_of_fmap. exists ch. split; [done|].
        by eapply list_elem_of_lookup_2. }
      rewrite Forall_forall in Hnames. specialize (Hnames _ Hin).
      by rewrite Hname, endsWith_append in Hnames. }
    lia.
Qed.

End OutlineCountTheorem.

(** ** [_symbolQueries] *)

Section SymbolQueriesFacts.
Import Vscode Js Symbols.

(** X6. [getSymbolKind] gives a label of the table its kind and every
    other label [Variable]; no label that ends in [.name] is in the
    table, so a name label always gets [Variable]. *)
Theorem getSymbolKind_table_or_variable :
  (∀ label kind, (label, kind) ∈ _symbolKindMapping → getSymbolKind label = kind)
  ∧ (∀ label, label ∉ JsMap.keys _symbolKindMapping → getSymbolKind label = Variable_)
  ∧ (∀ label, getSymbolKind (label +:+ ".name") = Variable_).
Proof.
  assert (Hout : ∀ label, label ∉ JsMap.keys _symbolKindMapping →
                          getSymbolKind label = Variable_).
  { intros label Hnot. unfold getSymbolKind. apply get_None in Hnot. by rewrite Hnot. }
  split_and!.
  - intros label kind Hin. unfold _symbolKindMapping in Hin.
    repeat (apply elem_of_cons in Hin as [Hin|Hin]; [by injection Hin as -> ->|]).
    by apply elem_of_nil in Hin.
  - exact Hout.
  - intros label. apply Hout. intros Hin.
    assert (Forall (λ key, endsWith key ".name" = false) (JsMap.keys _symbolKindMapping))
      as Hkeys by (repeat constructor).
    rewrite Forall_forall in Hkeys. specialize (Hkeys _ Hin).
    by rewrite endsWith_append in Hkeys.
Qed.

End SymbolQueriesFacts.

Section QueryCache.
Import Js SymbolQueries.
Context {Query : Type}.
Implicit Types data : list (string * Slot Query).

(** X7. [_symbolQueries.get] settles a language at its first call: when
    the query compiles it is stored, and every later call returns it
    without compiling again, whatever language object is passed; when the
    import or the compilation fails the language is deleted and is
    unsupported from then on. The entries of the other languages stay as
    they are. *)
Theorem query_cache_settles data languageId language query data' :
  NoDup (languageIds data) →
  get data languageId language = (query, data') →
  NoDup (languageIds data')
  ∧ (∀ language', get data' languageId language' = (query, data'))
  ∧ isSupported data' languageId = bool_decide (is_Some query)
  ∧ (∀ other, other ≠ languageId → JsMap.get data' other = JsMap.get data other).
Proof.
  unfold get, isSupported, languageIds. intros Hnd Hget.
  destruct (JsMap.get data languageId) as [[symbols|compiled]|] eqn:Hslot.
  - destruct (match symbols with Ok source => language source | Throw => Throw end)
      as [compiled|] eqn:Hq; injection Hget as <- <-.
    + split_and!.
      * by apply NoDup_keys_set.
      * intros language'. rewrite get_set. by case_decide.
      * rewrite get_set. case_decide; [|done].
        apply bool_decide_ext. split; eauto.
      * intros other Hne. rewrite get_set. by case_decide.
    + split_and!.
      * by apply NoDup_keys_delete.
      * intros language'. rewrite get_delete by done. by case_decide.
      * rewrite get_delete by done. case_decide; [|done].
        apply bool_decide_ext. split; intros [? ?]; done.
      * intros other Hne. rewrite get_delete by done. by case_decide.
  - injection Hget as <- <-. split_and!; try done.
    + intros language'. by rewrite Hslot.
    + rewrite Hslot. apply bool_decide_ext. split; eauto.
  - injection Hget as <- <-. split_and!; try done.
    + intros language'. by rewrite Hslot.
    + rewrite Hslot. apply bool_decide_ext. split; intros [? ?]; done.
Qed.

End QueryCache.

Lemma query_cache_settles_witness :
  SymbolQueries.isSupported
    (SymbolQueries.get (SymbolQueries.initialData (λ _, Js.Ok "(class) @class")) "go"
       (λ _, @Js.Throw nat)).2 "go" = false.
Proof.
  destruct (query_cache_settles
              (SymbolQueries.initialData (λ _, Js.Ok "(class) @class")) "go"
              (λ _, @Js.Throw nat) None
              (SymbolQueries.get (SymbolQueries.initialData (λ _, Js.Ok "(class) @class")) "go"
                 (λ _, @Js.Throw nat)).2)
    as (_ & _ & Hs & _).
  - apply (bool_decide_unpack _). by vm_compute.
  - reflexivity.
  - exact Hs.
Defined.

(** ** More on [_collectMatches] and [provideWorkspaceSymbols] *)

Section CollectMore.
Import Vscode TreeSitter Common Js WorkspaceSymbols WorkspaceSpec.
Context `{Host}.

Ltac async := unfold mbind, Async_bind, mret, Async_ret, lift, readToken in *.

(** X8. A name capture that comes right after the capture of its
    construct, labelled [L.name] after [L], is reported with the text of
    the name, the kind of [L] and [L] as container, provided the search is
    empty or matches the text. *)
Theorem name_capture_after_its_construct
    search document previous capture i array bucket :
  array !! i = Some previous →
  name capture = name previous +:+ ".name" →
  search = "" ∨ matchesFuzzy search (text (node capture)) = true →
  visitCapture search document capture (S i) array bucket
  = Ok (bucket ++ [mkSymbolInformation (text (node capture))
                     (Symbols.getSymbolKind (name previous)) (name previous)
                     (uri document, asCodeRange (node capture))]).
Proof.
  intros Harr Hname Hsearch. unfold visitCapture.
  rewrite Hname, endsWith_append, Harr, startsWith_append. simpl.
  destruct Hsearch as [-> | ->]; simpl; [done|].
  by rewrite orb_true_r.
Qed.

(** X9. When the first capture of a document is a name capture the
    search keeps, the callback reads [name] of [array[-1]], which is
    [undefined]: the call throws, and with it the whole request. *)
Theorem leading_name_capture_fails_the_request
    value document rest index search first captures w w1 :
  value ≠ off →
  isInteresting (scheme (uri document)) = true →
  SymbolQueries.isSupported (_data w) (languageId document) = true →
  queryCaptures document w = Ok (Some (first :: captures), w1) →
  keeps search first = true →
  _collectMatches search document [] w = Throw
  ∧ provideWorkspaceSymbols value (document :: rest) index search w = Throw.
Proof.
  intros Hvalue Hint Hsup Hq Hkeep.
  assert (_collectMatches search document [] w = Throw) as Hthrow.
  { unfold _collectMatches. rewrite Hint, Hsup. simpl. async. rewrite Hq. simpl.
    by rewrite visitCapture_first. }
  split; [done|].
  destruct value; [done| |]; simpl; async; by rewrite Hthrow.
Qed.

(** X10. Documents of the schemes [git] and [vsls], and documents of a
    language without query, are passed over without a call to the parser;
    the loop over the open documents still reads the cancellation token
    after each of them. *)
Theorem skipped_documents_are_not_parsed search textDocuments result w :
  Forall (λ document, isInteresting (scheme (uri document)) = false
                      ∨ SymbolQueries.isSupported (_data w) (languageId document) = false)
         textDocuments →
  (∀ document, document ∈ textDocuments →
     _collectMatches search document result w = Ok (result, w))
  ∧ searchDocuments search textDocuments result w
    = Ok (match textDocuments with
          | [] => Some result
          | _ :: _ => if isCancellationRequested w then None else Some result
          end, w).
Proof.
  intros Hskip.
  assert (∀ document, document ∈ textDocuments →
            _collectMatches search document result w = Ok (result, w)) as Hone.
  { intros document Hin. rewrite Forall_forall in Hskip.
    unfold _collectMatches. destruct (Hskip _ Hin) as [-> | ->]; simpl; [done|].
    by rewrite orb_true_r. }
  split; [done|].
  induction textDocuments as [|document rest IH]; [done|].
  simpl. async. rewrite Hone by left.
  destruct (isCancellationRequested w) eqn:Hc; [done|].
  apply Forall_cons in Hskip as [_ Hskip].
  rewrite IH; [|done|by intros; apply Hone; right].
  by destruct rest.
Qed.

(** X11. When the token is cancelled by the time an open document has
    been searched, [provideWorkspaceSymbols] returns [undefined]: what
    was found so far is dropped, and neither the other documents nor the
    index are looked at. *)
Theorem cancelled_document_pass_returns_undefined
    value document rest index search w found w' :
  value ≠ off →
  _collectMatches search document [] w = Ok (found, w') →
  isCancellationRequested w' = true →
  provideWorkspaceSymbols value (document :: rest) index search w = Ok (None, w').
Proof.
  intros Hvalue Hfound Hc.
  destruct value; [done| |]; simpl; async; by rewrite Hfound, Hc.
Qed.

(** X12. A search without a word character, the empty one included,
    never reaches the index: [_findWithIndex] returns at once, and the
    setting [workspace] gives what the setting [documents] gives. *)
Theorem wordless_search_skips_the_workspace search textDocuments index w :
  hasWordChar search = false →
  (∀ allUris bucket, _findWithIndex search allUris bucket w = Ok ((bucket, allUris), w))
  ∧ provideWorkspaceSymbols workspace textDocuments index search w
    = provideWorkspaceSymbols documents textDocuments index search w.
Proof.
  intros Hword.
  assert (∀ allUris bucket w0,
            _findWithIndex search allUris bucket w0 = Ok ((bucket, allUris), w0)) as Hfind.
  { intros. unfold _findWithIndex. by rewrite Hword. }
  split; [by intros; apply Hfind|].
  simpl. async.
  destruct (searchDocuments search textDocuments [] w) as [[[found|] w1]|]; [|done|done].
  by rewrite Hfind.
Qed.

End CollectMore.

Section EmptySearch.
Import Vscode TreeSitter Common Js WorkspaceSymbols WorkspaceSpec.
Context `{Host}.

Lemma symbolsAfter_names document : ∀ rest previous,
  si_name <$> symbolsAfter "" document previous rest
  = (λ c, text (node c)) <$> filter (λ c, endsWith (name c) ".name" = true) rest.
Proof.
  induction rest as [|capture rest IH]; intros previous; [done|].
  simpl. rewrite fmap_app, IH, filter_cons, keeps_code. simpl.
  rewrite andb_true_r. case_decide as Hname.
  - rewrite Hname. unfold symbolFor. by destruct (hasPrefix _ _).
  - by destruct (endsWith (name capture) ".name").
Qed.

(** X13. With the empty search every name capture of a document is
    reported, in order and under its text; the fuzzy matcher is not
    asked. This holds for a document whose first capture is not itself a
    name capture. *)
Theorem empty_search_lists_every_name document first rest bucket :
  endsWith (name first) ".name" = false →
  ∃ symbols,
    forEachCapture "" document (first :: rest) 0 (first :: rest) bucket
    = Ok (bucket ++ symbols)
    ∧ si_name <$> symbols
      = (λ c, text (node c)) <$> filter (λ c, endsWith (name c) ".name" = true) rest
    ∧ Forall (λ s, (si_location s).1 = uri document) symbols.
Proof.
  intros Hfirst. exists (symbolsAfter "" document first rest). split_and!.
  - simpl. rewrite visitCapture_dropped by (rewrite keeps_code; by rewrite Hfirst).
    apply (forEachCapture_after "" document rest [] first bucket).
  - apply symbolsAfter_names.
  - generalize first. clear Hfirst first.
    induction rest as [|capture rest IH]; intros previous; simpl; [constructor|].
    apply Forall_app. split; [|apply IH].
    destruct (keeps "" capture); [|constructor].
    constructor; [|constructor]. unfold symbolFor. by destruct (hasPrefix _ _).
Qed.

End EmptySearch.

(** ** More on the index *)

Section IndexMore.
Import Vscode TreeSitter Common Js WorkspaceSymbols WorkspaceSpec IndexSpec.
Context `{Host}.

Ltac async := unfold mbind, Async_bind, mret, Async_ret, lift, readToken in *.

Lemma load_inv e w t e' w' :
  load e w = Ok ((t, e'), w') →
  (truthy (_text e) = true ∧ e' = e ∧ _text e = Some t ∧ w' = w)
  ∨ (truthy (_text e) = false ∧ e' = mkEntry (entry_uri e) (Some t)).
Proof.
  unfold load. destruct (truthy (_text e)) eqn:Htruthy; simpl; async.
  - intros [= <- <- <-]. left. split_and!; try done.
    destruct (_text e); [done|discriminate].
  - destruct (fs_stat_size (entry_uri e) w) as [[size w1]|]; [|done].
    case_bool_decide.
    + intros [= <- <- _]. by right.
    + destruct (fs_readFile (entry_uri e) w1) as [[t1 w2]|]; [|done].
      intros [= <- <- _]. by right.
Qed.

(** X14. [load] returns the text it puts into the cache. A text that is
    not empty is served from the cache from then on, without a call to
    the file system; an empty text (an empty file, or one over the size
    limit) is not: the next [load] asks the file system again, as after
    [reset]. *)
Theorem load_caches_nonempty_text e w t e' w' :
  load e w = Ok ((t, e'), w') →
  entry_uri e' = entry_uri e
  ∧ _text e' = Some t
  ∧ (t ≠ "" → ∀ w2, load e' w2 = Ok ((t, e'), w2))
  ∧ (t = "" → ∀ w2, load e' w2 = load (reset e') w2).
Proof.
  intros [(Htruthy & -> & Ht & _)|(Htruthy & ->)]%load_inv; split_and!; try done.
  - intros _ w2. unfold load. rewrite Htruthy, Ht. done.
  - intros ->. rewrite Ht in Htruthy. done.
  - intros Ht w2. unfold load. simpl. by rewrite bool_decide_eq_false_2.
  - by intros ->.
Qed.

Lemma loadedFrom_refl e : loadedFrom e e.
Proof. split; [done|by left]. Qed.

Lemma loadedFrom_trans e1 e2 e3 : loadedFrom e1 e2 → loadedFrom e2 e3 → loadedFrom e1 e3.
Proof.
  intros [Hu1 H1] [Hu2 H2]. split; [congruence|].
  destruct H1 as [->|[Hf1 Hs1]]; [done|].
  destruct H2 as [->|[Hf2 Hs2]]; right; done.
Qed.

Lemma load_loadedFrom e w t e' w' : load e w = Ok ((t, e'), w') → loadedFrom e e'.
Proof.
  intros [(_ & -> & _)|(Htruthy & ->)]%load_inv; [apply loadedFrom_refl|].
  split; [done|]. right. split; [done|]. simpl. eauto.
Qed.

Lemma processEntry_loadedFrom search regexp e bucket w bucket' e' w' :
  processEntry search regexp e bucket w = Ok ((bucket', e'), w') → loadedFrom e e'.
Proof.
  unfold processEntry. async.
  destruct (load e w) as [[[source e1] w1]|] eqn:Hload; [|done].
  apply load_loadedFrom in Hload.
  destruct (negb _); [by intros [= _ <- _]|].
  destruct (_collectMatches _ _ _ _) as [[b1 w2]|]; [|done].
  by intros [= _ <- _].
Qed.

Lemma runChunk_loadedFrom search regexp chunk : ∀ bucket w bucket' chunk' w',
  runChunk search regexp chunk bucket w = Ok ((bucket', chunk'), w') →
  Forall2 loadedFrom chunk chunk'.
Proof.
  induction chunk as [|entry chunk IH]; intros bucket w bucket' chunk' w'; simpl; async.
  - intros [= _ <- _]. constructor.
  - destruct (processEntry _ _ _ _ _) as [[[b1 e1] w1]|] eqn:E1; [|done].
    destruct (runChunk _ _ _ _ _) as [[[b2 es] w2]|] eqn:E2; [|done].
    intros [= _ <- _]. constructor; [by eapply processEntry_loadedFrom|by eapply IH].
Qed.

Lemma runBatches_loadedFrom run batches :
  (∀ chunk bucket w bucket' chunk' w',
     run chunk bucket w = Ok ((bucket', chunk'), w') → Forall2 loadedFrom chunk chunk') →
  ∀ bucket w bucket' batches' w',
  runBatches run batches bucket w = Ok ((bucket', batches'), w') →
  Forall2 loadedFrom (concat batches) (concat batches').
Proof.
  intros Hrun. induction batches as [|batch batches IH];
    intros bucket w bucket' batches' w'; simpl; async.
  - intros [= _ <- _]. constructor.
  - destruct (isCancellationRequested w).
    + intros [= _ <- _]. simpl. apply Forall_Forall2_diag, Forall_forall.
      intros. apply loadedFrom_refl.
    + destruct (run _ _ _) as [[[b1 c1] w1]|] eqn:E1; [|done].
      destruct (runBatches _ _ _ _) as [[[b2 bs] w2]|] eqn:E2; [|done].
      intros [= _ <- _]. simpl. apply Forall2_app; [by eapply Hrun|by eapply IH].
Qed.

(** X15. A search over the index hands back the entries it was given:
    as many, in the same order and for the same files. An entry comes
    back as it was or, when its cache was empty, with the cache filled;
    a cached text is never replaced. *)
Theorem search_keeps_the_entries search allUris bucket w bucket' entries' w' :
  _findWithIndex search allUris bucket w = Ok ((bucket', entries'), w') →
  entry_uri <$> entries' = entry_uri <$> allUris
  ∧ Forall2 (λ e e', e' = e ∨ (truthy (_text e) = false ∧ is_Some (_text e')))
      allUris entries'.
Proof.
  intros Hfind.
  assert (Forall2 loadedFrom allUris entries') as Hall.
  { unfold _findWithIndex in Hfind.
    destruct (negb (hasWordChar search)).
    { injection Hfind as _ <- _. apply Forall_Forall2_diag, Forall_forall.
      intros. apply loadedFrom_refl. }
    destruct (makeRegExp search) as [regexp|].
    2:{ injection Hfind as _ <- _. apply Forall_Forall2_diag, Forall_forall.
        intros. apply loadedFrom_refl. }
    rewrite (findLoop_runBatches _ _ (runChunk_pushesOnly search regexp)
               (length allUris) 0 allUris bucket w) in Hfind by (done || lia).
    rewrite drop_0 in Hfind.
    destruct (runBatches _ _ _ _) as [[[b bs] w1]|] eqn:Hrun; [|done].
    injection Hfind as _ <- _. simpl.
    rewrite <- (concat_batchesOf allUris) at 1.
    eapply runBatches_loadedFrom; [|exact Hrun].
    intros *. apply runChunk_loadedFrom. }
  clear Hfind. split.
  - induction Hall as [|e e' l l' [Hu _] _ IH]; csimpl; [done|]. by rewrite Hu, IH.
  - eapply Forall2_impl; [exact Hall|]. by intros e e' [_ ?].
Qed.

Lemma createIndex_NoDup (uris : list Uri) : NoDup (JsMap.keys (createIndex uris)).
Proof.
  unfold createIndex.
  assert (∀ all : list (string * Entry), NoDup (JsMap.keys all) →
    NoDup (JsMap.keys (fold_left (λ all uri, JsMap.set all (uri_toString uri) (mkEntry uri None))
                         uris all))) as Hgen.
  { induction uris as [|u uris IH]; intros all Hall; simpl; [done|].
    apply IH. by apply NoDup_keys_set. }
  apply Hgen. constructor.
Qed.

Lemma onEvent_NoDup all event :
  NoDup (JsMap.keys all) → NoDup (JsMap.keys (onEvent all event)).
Proof.
  intros Hnd. destruct event as [u|u|u]; simpl.
  - by apply NoDup_keys_set.
  - by apply NoDup_keys_delete.
  - unfold onDidChange. destruct (JsMap.get all _); [by apply NoDup_keys_set|done].
Qed.

Lemma onEvent_keyed all event : keyedByUri all → keyedByUri (onEvent all event).
Proof.
  intros Hk. destruct (watcher_keyed all
    (match event with DidCreate u | DidDelete u | DidChange u => u end) Hk)
    as (Hc & Hd & Hch).
  by destruct event.
Qed.

Lemma yieldAll_NoDup exclude (all : list (string * Entry)) :
  keyedByUri all → NoDup (JsMap.keys all) →
  NoDup ((λ e, uri_toString (entry_uri e)) <$> yieldAll exclude all).
Proof.
  intros Hk Hnd.
  assert ((λ e, uri_toString (entry_uri e)) <$> yieldAll exclude all
          = (filter (λ kv, kv.1 ∉ exclude) all).*1) as ->.
  { rewrite yieldAll_filter.
    assert (∀ kv, kv ∈ filter (λ kv, kv.1 ∉ exclude) all → uri_toString (entry_uri kv.2) = kv.1)
      as Hkeys.
    { intros [key e] [_ Hin]%list_elem_of_filter. simpl. symmetry. by apply Hk. }
    induction (filter (λ kv, kv.1 ∉ exclude) all) as [|kv l IH]; csimpl; [done|].
    rewrite Hkeys by left. f_equal. apply IH. intros. apply Hkeys. by right. }
  unfold JsMap.keys in Hnd. clear Hk.
  induction all as [|[key e] all IH]; [constructor|].
  apply NoDup_cons in Hnd as [Hnot Hnd]. rewrite filter_cons. simpl.
  case_decide; [|by apply IH]. csimpl. apply NoDup_cons. split; [|by apply IH].
  intros (kv & Heq & [_ Hin]%list_elem_of_filter)%list_elem_of_fmap.
  apply Hnot. apply list_elem_of_fmap. exists kv. done.
Qed.

(** X16. The index holds one entry for a file, under the string of its
    uri, from its creation on and after any events of the file watcher;
    [all()] therefore never yields a file twice. *)
Theorem index_stays_keyed_by_uri uris events textDocuments :
  keyedByUri (fold_left onEvent events (createIndex uris))
  ∧ NoDup (JsMap.keys (fold_left onEvent events (createIndex uris)))
  ∧ NoDup ((λ e, uri_toString (entry_uri e))
           <$> all_ (fold_left onEvent events (createIndex uris)) textDocuments).
Proof.
  assert (∀ all, keyedByUri all → NoDup (JsMap.keys all) →
            keyedByUri (fold_left onEvent events all)
            ∧ NoDup (JsMap.keys (fold_left onEvent events all))) as Hgen.
  { induction events as [|event events IH]; intros all Hk Hnd; simpl; [done|].
    apply IH; [by apply onEvent_keyed|by apply onEvent_NoDup]. }
  destruct (Hgen _ (createIndex_keyed uris) (createIndex_NoDup uris)) as [Hk Hnd].
  split_and!; [done|done|by apply yieldAll_NoDup].
Qed.

(** X17. Each event of the file watcher touches the entry of its file
    and no other: a deleted file has no entry, a created file has a
    fresh entry without cached text, and a changed file keeps its entry
    with the cache emptied, or stays absent when the index did not know
    it. *)
Theorem watcher_events_touch_one_entry all uri key :
  NoDup (JsMap.keys all) →
  JsMap.get (onDidDelete all uri) key
  = (if decide (uri_toString uri = key) then None else JsMap.get all key)
  ∧ JsMap.get (onDidCreate all uri) key
    = (if decide (uri_toString uri = key) then Some (mkEntry uri None) else JsMap.get all key)
  ∧ JsMap.get (onDidChange all uri) key
    = (if decide (uri_toString uri = key) then reset <$> JsMap.get all key
       else JsMap.get all key)
  ∧ JsMap.keys (onDidChange all uri) = JsMap.keys all.
Proof.
  intros Hnd. unfold onDidDelete, onDidCreate, onDidChange. split_and!.
  - by apply get_delete.
  - apply get_set.
  - destruct (JsMap.get all (uri_toString uri)) as [e|] eqn:He.
    + rewrite get_set. case_decide; [subst; by rewrite He|done].
    + case_decide; [subst; by rewrite He|done].
  - destruct (JsMap.get all (uri_toString uri)) as [e|] eqn:He; [|done].
    apply keys_set_in. apply get_is_Some. eauto.
Qed.

End IndexMore.

(** ** More on the prefilter *)

Section Prefilter.
Import Vscode TreeSitter Common Js WorkspaceSymbols WorkspaceSpec PrefilterSpec.
Context `{Host}.

Ltac async := unfold mbind, Async_bind, mret, Async_ret, lift, readToken in *.

Lemma eqIgnoreCase_refl c : eqIgnoreCase c c = true.
Proof. unfold eqIgnoreCase. by apply bool_decide_eq_true. Qed.

Lemma afterWordStar_nil s : afterWordStar [] s = true.
Proof. by destruct s. Qed.

Lemma afterWordStar_literal cs after : afterWordStar cs (cs ++ after) = true.
Proof.
  induction cs as [|c cs IH]; [apply afterWordStar_nil|].
  simpl. by rewrite eqIgnoreCase_refl, IH.
Qed.

Lemma literalsAt_literal cs after : literalsAt cs (cs ++ after) = true.
Proof.
  destruct cs as [|c cs]; [done|]. simpl.
  by rewrite eqIgnoreCase_refl, afterWordStar_literal.
Qed.

Lemma afterBoundary_app before cs s :
  afterBoundary cs s = true → afterBoundary cs (before ++ s) = true.
Proof.
  intros Hs. induction before as [|x before IH]; [done|].
  simpl. rewrite IH. apply orb_true_r.
Qed.

(** X18. The prefilter lets every file through in which the search
    stands as written at the start of the text or right after white
    space, [_] or [-], for a search made of word characters. *)
Theorem prefilter_accepts_a_word_start search before after :
  forallb isWordChar (chars search) = true →
  before = "" ∨ (∃ b c, before = b +:+ String c "" ∧ isBoundaryChar c = true) →
  ∃ regexp, makeRegExp search = Some regexp
    ∧ regexp (before +:+ search +:+ after) = true.
Proof.
  intros Hword Hbefore. exists (wordPrefilter search). split.
  - unfold makeRegExp. by rewrite Hword.
  - unfold wordPrefilter. rewrite !chars_append.
    destruct Hbefore as [->|(b & c & -> & Hc)].
    + simpl. by rewrite literalsAt_literal.
    + rewrite chars_append. simpl. rewrite <- app_assoc. simpl.
      rewrite (afterBoundary_app (chars b)); [apply orb_true_r|].
      simpl. by rewrite Hc, literalsAt_literal.
Qed.

Lemma isSubsequence_tail c cs s :
  isSubsequence (c :: cs) s = true → isSubsequence cs s = true.
Proof.
  revert c cs. induction s as [|x s IH]; intros c cs; simpl; [done|].
  destruct cs as [|c' cs]; [done|].
  destruct (eqIgnoreCase c x).
  - destruct (eqIgnoreCase c' x); [apply IH|done].
  - destruct (eqIgnoreCase c' x); [|apply IH].
    intros Hs. by apply IH, IH in Hs.
Qed.

Lemma afterWordStar_isSubsequence s : ∀ cs,
  afterWordStar cs s = true → isSubsequence cs s = true.
Proof.
  induction s as [|x s IH]; intros cs; simpl; [done|].
  destruct cs as [|c cs]; [done|].
  destruct (eqIgnoreCase c x); simpl.
  - intros [Hs|[_ Hs]%andb_true_iff]%orb_true_iff; [by apply IH|].
    by apply IH, isSubsequence_tail in Hs.
  - intros [_ Hs]%andb_true_iff. by apply IH.
Qed.

Lemma isSubsequence_cons cs x s :
  isSubsequence cs s = true → isSubsequence cs (x :: s) = true.
Proof.
  intros Hs. simpl. destruct cs as [|c cs]; [done|].
  destruct (eqIgnoreCase c x); [by eapply isSubsequence_tail|done].
Qed.

Lemma literalsAt_isSubsequence cs s :
  literalsAt cs s = true → isSubsequence cs s = true.
Proof.
  destruct cs as [|c cs], s as [|x s]; simpl; try done.
  intros [-> Hs]%andb_true_iff. by apply afterWordStar_isSubsequence.
Qed.

Lemma afterBoundary_isSubsequence cs s :
  afterBoundary cs s = true → isSubsequence cs s = true.
Proof.
  induction s as [|x s IH]; [done|].
  intros [[_ Hs]%andb_true_iff|Hs]%orb_true_iff; apply isSubsequence_cons.
  - by apply literalsAt_isSubsequence.
  - by apply IH.
Qed.

Lemma wordPrefilter_isSubsequence search source :
  wordPrefilter search source = true →
  isSubsequence (chars search) (chars source) = true.
Proof.
  unfold wordPrefilter.
  intros [Hs|Hs]%orb_true_iff;
    [by apply literalsAt_isSubsequence|by apply afterBoundary_isSubsequence].
Qed.

(** X19. For a search made of word characters, a file passes the
    prefilter only if its text has the characters of the search in their
    order, case ignored. A file without them is loaded but never parsed,
    and adds nothing. *)
Theorem file_without_the_letters_is_not_parsed search e bucket w source e' w' :
  forallb isWordChar (chars search) = true →
  load e w = Ok ((source, e'), w') →
  isSubsequence (chars search) (chars source) = false →
  ∃ regexp, makeRegExp search = Some regexp
    ∧ regexp source = false
    ∧ processEntry search regexp e bucket w = Ok ((bucket, e'), w').
Proof.
  intros Hword Hload Hsub.
  assert (wordPrefilter search source = false) as Hpre.
  { destruct (wordPrefilter search source) eqn:Hp; [|done].
    apply wordPrefilter_isSubsequence in Hp. congruence. }
  exists (wordPrefilter search). split_and!; [|done|].
  - unfold makeRegExp. by rewrite Hword.
  - unfold processEntry. async. by rewrite Hload, Hpre.
Qed.

End Prefilter.

(** ** Languages and the client *)

Section Languages.
Import Vscode TreeSitter Common Js WorkspaceSymbols WorkspaceSpec Client.
Context `{Host}.

Ltac async := unfold mbind, Async_bind, mret, Async_ret, lift, readToken in *.

Lemma languageIdOf_cases mapping path :
  (∃ key value suffix, (key, value) ∈ mapping ∧ suffix ∈ value
     ∧ endsWith path ("." +:+ suffix) = true ∧ languageIdOf mapping path = key)
  ∨ (languageIdOf mapping path = ""
     ∧ ∀ key value suffix, (key, value) ∈ mapping → suffix ∈ value →
         endsWith path ("." +:+ suffix) = false).
Proof.
  induction mapping as [|[key value] mapping IH]; simpl.
  - right. split; [done|]. by intros key value suffix ?%elem_of_nil.
  - destruct (existsb _ value) eqn:Hex.
    + left. apply existsb_exists in Hex as (suffix & Hin%list_elem_of_In & Hs).
      exists key, value, suffix. split_and!; try done. left.
    + destruct IH as [(k & v & s & Hin & Hs & He & Hk)|[Hnil Hnone]].
      * left. exists k, v, s. split_and!; try done. by right.
      * right. split; [done|]. intros k v s [[= -> ->]|Hin]%elem_of_cons Hs; [|by eapply Hnone].
        destruct (endsWith path ("." +:+ s)) eqn:He; [|done].
        assert (existsb (λ suffix, endsWith path ("." +:+ suffix)) value = true) as Hex';
          [|congruence].
        apply existsb_exists. exists s. split; [by apply list_elem_of_In|done].
Qed.

Lemma supported_known w languageId :
  SymbolQueries.isSupported (_data w) languageId = true → languageId ∈ Symbols.languageIds.
Proof.
  unfold SymbolQueries.isSupported. intros Hs%bool_decide_eq_true.
  apply get_is_Some in Hs. pose proof (_data_languages w) as Hall.
  rewrite forallb_forall in Hall. apply list_elem_of_In, Hall in Hs.
  by apply bool_decide_eq_true in Hs.
Qed.

(** X20. The language found for a path from [languageMapping] is the
    key of an entry one of whose suffixes ends the path, and then one of
    the languages [_data] holds a query for when it is created, which is
    supported until its query fails; or no suffix of the table ends the
    path, the language is the empty string, and that is never a supported
    language. *)
Theorem detected_language_has_a_query path :
  (languageIdOf languageMapping path ∈ Symbols.languageIds
   ∧ (∀ modules : string → result string,
        SymbolQueries.isSupported (Query := Query) (SymbolQueries.initialData modules)
          (languageIdOf languageMapping path) = true)
   ∧ ∃ suffixes suffix, (languageIdOf languageMapping path, suffixes) ∈ languageMapping
       ∧ suffix ∈ suffixes ∧ endsWith path ("." +:+ suffix) = true)
  ∨ (languageIdOf languageMapping path = ""
     ∧ (∀ w, SymbolQueries.isSupported (_data w) (languageIdOf languageMapping path) = false)
     ∧ ∀ key suffixes suffix, (key, suffixes) ∈ languageMapping → suffix ∈ suffixes →
         endsWith path ("." +:+ suffix) = false).
Proof.
  destruct (languageIdOf_cases languageMapping path)
    as [(key & value & suffix & Hin & Hs & He & ->)|[-> Hnone]].
  - left. split_and!; [| |by exists value, suffix].
    + assert (Forall (λ kv, kv.1 ∈ Symbols.languageIds) languageMapping) as Hsup
        by (repeat constructor; set_solver).
      rewrite Forall_forall in Hsup. apply (Hsup _ Hin).
    + intros modules.
      assert (Forall (λ kv, SymbolQueries.isSupported (Query := Query)
                              (SymbolQueries.initialData modules) kv.1 = true)
                     languageMapping) as Hsup by (repeat constructor).
      rewrite Forall_forall in Hsup. apply (Hsup _ Hin).
  - right. split_and!; [done| |done].
    intros w. destruct (SymbolQueries.isSupported (_data w) "") eqn:Hs; [|done].
    apply supported_known in Hs. set_solver.
Qed.

(** X21. A file of the index whose path ends in none of the suffixes
    of the table gets the empty language and is passed over: it is
    loaded, and nothing is added for it, whatever the prefilter says. *)
Theorem file_without_known_suffix_adds_nothing search regexp e bucket w source e' w' :
  languageIdOf languageMapping (path (entry_uri e)) = "" →
  load e w = Ok ((source, e'), w') →
  processEntry search regexp e bucket w = Ok ((bucket, e'), w').
Proof.
  intros Hlang Hload. unfold processEntry. async. rewrite Hload, Hlang.
  destruct (negb (regexp source)); [done|].
  unfold _collectMatches. simpl.
  destruct (SymbolQueries.isSupported (_data w') "") eqn:Hs.
  - apply supported_known in Hs. set_solver.
  - by rewrite orb_true_r.
Qed.

(** X22. The [file/read] handler of the client finds the language of a
    file by the loop [_findWithIndex] uses: over the same table the two
    give the same language. It is the language of the first item with a
    suffix that ends the path, and the empty string when no suffix of any
    item does. *)
Theorem file_read_detects_the_same_language items path :
  fileReadLanguageId items path
  = languageIdOf ((λ item, (languageId item, suffixes item)) <$> items) path
  ∧ ((∃ item suffix, item ∈ items ∧ suffix ∈ suffixes item
        ∧ endsWith path ("." +:+ suffix) = true
        ∧ fileReadLanguageId items path = languageId item)
     ∨ (fileReadLanguageId items path = ""
        ∧ ∀ item suffix, item ∈ items → suffix ∈ suffixes item →
            endsWith path ("." +:+ suffix) = false)).
Proof.
  assert (fileReadLanguageId items path
          = languageIdOf ((λ item, (languageId item, suffixes item)) <$> items) path) as Heq.
  { induction items as [|item items IH]; csimpl; [done|]. by rewrite IH. }
  split; [done|]. rewrite Heq.
  destruct (languageIdOf_cases ((λ item, (languageId item, suffixes item)) <$> items) path)
    as [(key & value & suffix & Hin & Hs & He & Hk)|[Hnil Hnone]].
  - left. apply list_elem_of_fmap in Hin as (item & [= -> ->] & Hin).
    by exists item, suffix.
  - right. split; [done|]. intros item suffix Hin Hs.
    apply (Hnone (languageId item) (suffixes item)); [|done].
    apply list_elem_of_fmap. by exists item.
Qed.

(** X23. The client sends the server at most [symbolIndexSize] files
    to index, the first ones found, and sends no request at all when the
    setting is zero or negative; without a setting the bound is 500. *)
Theorem init_queue_is_bounded toString configured uris :
  match initQueue toString configured uris with
  | Some queue =>
      (0 < default 500%Z configured)%Z
      ∧ queue = toString <$> take (Z.to_nat (default 500%Z configured)) uris
      ∧ length queue = Nat.min (Z.to_nat (default 500%Z configured)) (length uris)
  | None => (default 500%Z configured ≤ 0)%Z
  end.
Proof.
  unfold initQueue, symbolIndexSize. case_bool_decide as Hsize; [|lia].
  replace (Z.max 0 (default 500%Z configured)) with (default 500%Z configured) by lia.
  split_and!; [lia|done|]. by rewrite length_fmap, length_take.
Qed.

End Languages.

(** ** More on references, completion and ranges *)

Section ReferencesMore.
Import References ReferencesSpec CursorSpec.
Context `{Env}.

#[local] Arguments collectByKind : simpl never.

(** X24. [thisKind] is the kind of the first usage at the position
    that has a kind or, when there is none, of the first definition at
    the position. The definitions are looked at for it also when
    declarations are not asked for, and a usage of unknown kind at the
    position does not end the search. *)
Theorem cursor_kind_is_first_known_kind uri position incl usages symbols :
  (collectByKind uri position incl usages symbols).2
  = head (kindsAt uri position (default [] usages) (default [] symbols)).
Proof.
  unfold collectByKind, kindsAt.
  set (ku := omap _ (default [] usages)). set (ks := omap _ (default [] symbols)).
  assert ((match usages with
           | Some us => fold_left (visitUsage uri position) us ([], None)
           | None => ([], None)
           end).2 = head ku) as Hu.
  { subst ku. destruct usages as [us|]; simpl; [|done]. by rewrite fold_visitUsage_kind. }
  destruct (match usages with
            | Some us => fold_left (visitUsage uri position) us ([], None)
            | None => ([], None)
            end) as [m tk]. simpl in Hu. subst tk.
  assert (head (ku ++ ks) = match head ku with Some k => Some k | None => head ks end) as ->.
  { by destruct ku. }
  subst ks. destruct symbols as [ss|]; simpl.
  - by rewrite fold_visitSymbol_kind.
  - by destruct (head ku).
Qed.

Lemma elem_of_discoveryOrder k (ks : list Z) : k ∈ discoveryOrder ks ↔ k ∈ ks.
Proof.
  induction ks as [|k0 ks IH]; simpl; [done|].
  rewrite !elem_of_cons, list_elem_of_filter, IH.
  destruct (decide (k = k0)); naive_solver.
Qed.

Lemma NoDup_discoveryOrder (ks : list Z) : NoDup (discoveryOrder ks).
Proof.
  induction ks as [|k0 ks IH]; simpl; [constructor|].
  apply NoDup_cons. split; [|by apply NoDup_filter].
  intros [Hne _]%list_elem_of_filter. done.
Qed.

Lemma flat_map_bucketOf_cons (ks : list Z) k0 (loc : Location) es :
  NoDup ks → k0 ∈ ks →
  flat_map (λ k, bucketOf k ((k0, loc) :: es)) ks ≡ₚ loc :: flat_map (λ k, bucketOf k es) ks.
Proof.
  induction ks as [|k ks IH]; intros Hnd Hin; [by apply elem_of_nil in Hin|].
  apply NoDup_cons in Hnd as [Hnot Hnd]. simpl. rewrite bucketOf_cons.
  destruct (decide (k0 = k)) as [->|Hne].
  - simpl. apply Permutation_skip, Permutation_app_head.
    clear IH Hin Hnd. induction ks as [|k' ks IH]; [done|]. simpl.
    rewrite bucketOf_cons. apply not_elem_of_cons in Hnot as [Hne Hnot].
    case_decide; [done|]. by rewrite IH.
  - apply elem_of_cons in Hin as [->|Hin]; [done|].
    rewrite IH by done. by rewrite Permutation_middle.
Qed.

Lemma flat_map_bucketOf_nil (ks : list Z) :
  flat_map (λ k, bucketOf k ([] : list (Z * Location))) ks = [].
Proof. induction ks as [|k ks IH]; [done|]. simpl. by rewrite IH. Qed.

Lemma buckets_partition (es : list (Z * Location)) (ks : list Z) :
  NoDup ks → (∀ e, e ∈ es → e.1 ∈ ks) →
  flat_map (λ k, bucketOf k es) ks ≡ₚ es.*2.
Proof.
  intros Hnd. induction es as [|[k0 loc] es IH]; intros Hks.
  - by rewrite flat_map_bucketOf_nil.
  - rewrite flat_map_bucketOf_cons; [|done|apply (Hks (k0, loc)); left].
    csimpl. apply Permutation_skip, IH. intros e He. apply Hks. by right.
Qed.

Lemma two_buckets_submseteq k (es : list (Z * Location)) :
  k ≠ (-1)%Z → bucketOf k es ++ bucketOf (-1)%Z es ⊆+ es.*2.
Proof.
  intros Hk. induction es as [|[k0 loc] es IH]; [done|].
  rewrite !bucketOf_cons. csimpl. repeat case_decide; subst; try done.
  - by apply submseteq_skip.
  - rewrite <- Permutation_middle. by apply submseteq_skip.
  - by apply submseteq_cons.
Qed.

(** X25. No reference is lost or doubled when nothing at the position
    fixes a kind: the result holds the location of every usage, and of
    every definition when declarations are asked for, exactly once each.
    With a kind fixed (other than the key of the unknown kind) the
    result is a part of these locations, none taken twice. *)
Theorem references_are_candidates_once uri position incl text index_usages index_symbols :
  let usages := JsMap.get index_usages text in
  let symbols := JsMap.get index_symbols text in
  let entries := candidates incl (default [] usages) (default [] symbols) in
  let result := provideReferences uri position incl (Some text) index_usages index_symbols in
  ((collectByKind uri position incl usages symbols).2 = None → result ≡ₚ entries.*2)
  ∧ (∀ thisKind, (collectByKind uri position incl usages symbols).2 = Some thisKind →
       thisKind ≠ (-1)%Z → result ⊆+ entries.*2).
Proof.
  intros usages symbols entries result. subst result.
  rewrite provideReferences_buckets. fold usages symbols entries. split.
  - intros ->. apply buckets_partition; [apply NoDup_discoveryOrder|].
    intros e He. apply elem_of_discoveryOrder, list_elem_of_fmap. by exists e.
  - intros thisKind -> Hk. by apply two_buckets_submseteq.
Qed.

End ReferencesMore.

Lemma references_are_candidates_once_witness :
  @References.provideReferences CursorSpec.exampleEnv "c.ts" 0 true (Some "foo")
    CursorSpec.exampleUsages CursorSpec.exampleSymbols
  ≡ₚ [("a.ts", 3); ("a.ts", 9); ("b.ts", 1); ("a.ts", 0)].
Proof.
  destruct (@references_are_candidates_once CursorSpec.exampleEnv "c.ts" 0 true "foo"
              CursorSpec.exampleUsages CursorSpec.exampleSymbols) as [Hnone _].
  apply Hnone. reflexivity.
Defined.

Section CompletionMore.
Import Js Completion CompletionSpec.

Lemma set_labelled m key k :
  labelled m → labelled (JsMap.set m key (mkCompletionItem key k)).
Proof.
  intros Hm key' item [[= -> ->]|Hin]%set_elem; [done|by apply Hm].
Qed.

Lemma fold_addIdentifier_inv (ids : list string) : ∀ m,
  labelled m → NoDup (JsMap.keys m) →
  labelled (fold_left addIdentifier ids m) ∧ NoDup (JsMap.keys (fold_left addIdentifier ids m)).
Proof.
  induction ids as [|i ids IH]; intros m Hl Hnd; simpl; [done|].
  apply IH; [by apply set_labelled|by apply NoDup_keys_set].
Qed.

Lemma addDefinitions_inv defs : ∀ m r,
  labelled m → NoDup (JsMap.keys m) → addDefinitions defs m = Ok r →
  labelled r ∧ NoDup (JsMap.keys r).
Proof.
  induction defs as [|[key map] defs IH]; intros m r Hl Hnd; simpl.
  - by intros [= <-].
  - destruct (firstKind map) as [k|]; [|done].
    apply IH; [by apply set_labelled|by apply NoDup_keys_set].
Qed.

Lemma labelled_values m : labelled m → label <$> JsMap.values m = JsMap.keys m.
Proof.
  unfold JsMap.values, JsMap.keys. induction m as [|[key item] m IH]; intros Hl; csimpl; [done|].
  rewrite (Hl key item) by left. f_equal. apply IH. intros k i Hin. apply Hl. by right.
Qed.

(** X26. The items that [provideCompletionItems] returns have pairwise
    different labels, however often an identifier occurs in the file and
    whether or not the index knows it too. *)
Theorem completion_labels_are_distinct ids defs items :
  provideCompletionItems (Some ids) defs = Ok items →
  NoDup (label <$> items).
Proof.
  unfold provideCompletionItems, completionMap.
  destruct (addDefinitions defs (fold_left addIdentifier ids [])) as [r|] eqn:Hr; [|done].
  intros [= <-].
  destruct (fold_addIdentifier_inv ids []) as [Hl Hnd];
    [by intros ?? ?%elem_of_nil|constructor|].
  destruct (addDefinitions_inv defs _ _ Hl Hnd Hr) as [Hl' Hnd'].
  by rewrite labelled_values.
Qed.

Lemma addDefinitions_throws defs : ∀ m,
  addDefinitions defs m = Throw ↔ ∃ key, (key, []) ∈ defs.
Proof.
  induction defs as [|[key map] defs IH]; intros m; simpl.
  - split; [done|]. by intros (? & ?%elem_of_nil).
  - destruct map as [|[u kinds] map]; simpl.
    + split; [|done]. intros _. exists key. left.
    + rewrite IH. split; intros (k & Hin); exists k; [by right|].
      by apply elem_of_cons in Hin as [?|?].
Qed.

(** X27. [provideCompletionItems] throws exactly when the index holds
    a name whose map of definitions is empty: the destructuring of the
    first entry of that map fails, whatever the file contains. *)
Theorem completion_throws_on_an_empty_map ids defs :
  provideCompletionItems (Some ids) defs = Throw ↔ ∃ key, (key, []) ∈ defs.
Proof.
  unfold provideCompletionItems, completionMap.
  rewrite <- (addDefinitions_throws defs (fold_left addIdentifier ids [])).
  by destruct (addDefinitions _ _).
Qed.

End CompletionMore.

Lemma completion_labels_are_distinct_witness :
  NoDup (Completion.label <$> [Completion.mkCompletionItem "foo" (Some Completion.CFunction);
                               Completion.mkCompletionItem "bar" None]).
Proof.
  apply (completion_labels_are_distinct ["foo"; "bar"; "foo"] Completion.exampleDefinitions).
  reflexivity.
Defined.

Section CommonMore.
Import Vscode TreeSitter Common OutlineSpec.

(** X28. [asCodeRange] gives a range whose start is not after its end.
    For a node that starts before it ends, as the parser makes them, the
    range has the node's two points as its ends; for any other node the
    two are exchanged. *)
Theorem asCodeRange_keeps_ordered_points n :
  let s := mkPosition (row (startPosition n)) (column (startPosition n)) in
  let e := mkPosition (row (endPosition n)) (column (endPosition n)) in
  validRange (asCodeRange n)
  ∧ (ple s e → asCodeRange n = mkRange s e)
  ∧ (¬ ple s e → asCodeRange n = mkRange e s).
Proof.
  intros s e. split; [apply asCodeRange_valid|].
  unfold asCodeRange, newRange. fold s e.
  destruct (isBefore e s) eqn:Hb.
  - apply isBefore_true in Hb. split; [|done].
    unfold ple. simpl in *. lia.
  - apply isBefore_false in Hb. split; [done|]. intros Hn. by destruct Hn.
Qed.

End CommonMore.

(** ** The properties above on the example editors *)

Section Witnesses.
Import Vscode TreeSitter Common Js WorkspaceSymbols WorkspaceSpec WorkspaceExamples IndexSpec.

Lemma empty_search_lists_every_name_witness :
  ∃ symbols,
    @forEachCapture exampleHost "" exampleDocument exampleCaptures 0 exampleCaptures []
    = Ok symbols ∧ si_name <$> symbols = ["Foo"].
Proof.
  destruct (@empty_search_lists_every_name exampleHost exampleDocument
              (mkCapture "class" (mkSyntaxNode (mkPoint 0 0) (mkPoint 0 12) "class Foo {}"))
              [mkCapture "class.name" (mkSyntaxNode (mkPoint 0 6) (mkPoint 0 9) "Foo")] [])
    as (symbols & Hrun & Hnames & _); [reflexivity|].
  exists symbols. split; [exact Hrun|exact Hnames].
Defined.

Lemma name_capture_after_its_construct_witness :
  @visitCapture exampleHost "" exampleDocument
    (mkCapture "class.name" (mkSyntaxNode (mkPoint 0 6) (mkPoint 0 9) "Foo"))
    1 exampleCaptures []
  = Ok [mkSymbolInformation "Foo" Class "class" (smallFile, newRange 0 6 0 9)].
Proof.
  apply (@name_capture_after_its_construct exampleHost "" exampleDocument
           (mkCapture "class" (mkSyntaxNode (mkPoint 0 0) (mkPoint 0 12) "class Foo {}"))
           (mkCapture "class.name" (mkSyntaxNode (mkPoint 0 6) (mkPoint 0 9) "Foo"))
           0 exampleCaptures []); [reflexivity|reflexivity|by left].
Defined.

Lemma leading_name_capture_fails_the_request_witness :
  @provideWorkspaceSymbols nameFirstHost documents [exampleDocument] [] "" 5 = Throw.
Proof.
  apply (@leading_name_capture_fails_the_request nameFirstHost documents exampleDocument
           [] [] ""
           (mkCapture "class.name" (mkSyntaxNode (mkPoint 0 6) (mkPoint 0 9) "Foo"))
           [mkCapture "class" (mkSyntaxNode (mkPoint 0 0) (mkPoint 0 12) "class Foo {}")]
           5 4); [done|reflexivity..].
Defined.

Lemma skipped_documents_are_not_parsed_witness :
  @searchDocuments exampleHost "foo" [gitDocument] [] 5 = Ok (Some [], 5).
Proof.
  apply (@skipped_documents_are_not_parsed exampleHost "foo" [gitDocument] [] 5).
  repeat constructor.
Defined.

Lemma cancelled_document_pass_returns_undefined_witness :
  @provideWorkspaceSymbols exampleHost workspace [exampleDocument]
    (@createIndex exampleHost [bigFile]) "" 1
  = Ok (None, 0).
Proof.
  apply (@cancelled_document_pass_returns_undefined exampleHost workspace exampleDocument []
           (@createIndex exampleHost [bigFile]) "" 1
           [mkSymbolInformation "Foo" Class "class" (smallFile, newRange 0 6 0 9)] 0);
    [done|reflexivity|reflexivity].
Defined.

Lemma wordless_search_skips_the_workspace_witness :
  @provideWorkspaceSymbols exampleHost workspace [exampleDocument]
    (@createIndex exampleHost [bigFile]) "-" 5
  = @provideWorkspaceSymbols exampleHost documents [exampleDocument]
      (@createIndex exampleHost [bigFile]) "-" 5.
Proof.
  apply (@wordless_search_skips_the_workspace exampleHost "-" [exampleDocument]
           (@createIndex exampleHost [bigFile]) 5).
  reflexivity.
Defined.

Lemma load_caches_nonempty_text_witness :
  @load exampleHost (mkEntry smallFile (Some "class Foo {}")) 0
  = Ok (("class Foo {}", mkEntry smallFile (Some "class Foo {}")), 0).
Proof.
  destruct (@load_caches_nonempty_text exampleHost (mkEntry smallFile None) 5
              "class Foo {}" (mkEntry smallFile (Some "class Foo {}")) 3)
    as (_ & _ & Hcached & _); [reflexivity|].
  apply Hcached. done.
Defined.

Lemma search_keeps_the_entries_witness :
  entry_uri <$> [mkEntry smallFile (Some "class Foo {}"); mkEntry bigFile (Some "")]
  = entry_uri <$> [mkEntry smallFile None; mkEntry bigFile None].
Proof.
  apply (@search_keeps_the_entries exampleHost "foo"
           [mkEntry smallFile None; mkEntry bigFile None] [] 9
           [mkSymbolInformation "Foo" Class "class" (smallFile, newRange 0 6 0 9)]
           [mkEntry smallFile (Some "class Foo {}"); mkEntry bigFile (Some "")] 5).
  by vm_compute.
Defined.

Lemma watcher_events_touch_one_entry_witness :
  JsMap.get (@onDidDelete exampleHost (@createIndex exampleHost [bigFile; smallFile]) bigFile)
            "file:///src/big.ts" = None.
Proof.
  destruct (@watcher_events_touch_one_entry exampleHost
              (@createIndex exampleHost [bigFile; smallFile]) bigFile "file:///src/big.ts")
    as (Hdelete & _).
  - apply (bool_decide_unpack _). by vm_compute.
  - exact Hdelete.
Defined.

Lemma prefilter_accepts_a_word_start_witness :
  ∃ regexp, @makeRegExp exampleHost "foo" = Some regexp ∧ regexp "let fooBar" = true.
Proof.
  apply (@prefilter_accepts_a_word_start exampleHost "foo" "let " "Bar"); [reflexivity|].
  right. eexists "let", _. split; reflexivity.
Defined.

Lemma file_without_the_letters_is_not_parsed_witness :
  ∃ regexp, @makeRegExp exampleHost "bar" = Some regexp
    ∧ regexp "class Foo {}" = false
    ∧ @processEntry exampleHost "bar" regexp (mkEntry smallFile None) [] 5
      = Ok (([], mkEntry smallFile (Some "class Foo {}")), 3).
Proof.
  apply (@file_without_the_letters_is_not_parsed exampleHost "bar" (mkEntry smallFile None) []
           5 "class Foo {}" (mkEntry smallFile (Some "class Foo {}")) 3); reflexivity.
Defined.

Lemma file_without_known_suffix_adds_nothing_witness :
  @processEntry exampleHost "foo" (wordPrefilter "foo")
    (mkEntry (mkUri "file" "" "/README.md" "" "") None) [] 5
  = Ok (([], mkEntry (mkUri "file" "" "/README.md" "" "") (Some "class Foo {}")), 3).
Proof.
  apply (@file_without_known_suffix_adds_nothing exampleHost "foo" (wordPrefilter "foo")
           (mkEntry (mkUri "file" "" "/README.md" "" "") None) [] 5 "class Foo {}"
           (mkEntry (mkUri "file" "" "/README.md" "" "") (Some "class Foo {}")) 3);
    reflexivity.
Defined.

End Witnesses.
